(** * Infinite-Transactions: the AMM core, embedded and verified

    A shallow embedding of the pool, price-resolution, routing and
    capital-analysis code of the simulator:

    - the [Token] class: [calculateTokenPriceUSD], [addLiquidity],
      [calculateSwapOutput], [executeBuy], [calculatePriceImpact],
      [getTokensLockedInOtherPools], [getAvailableSupply],
      [updateTotalSupply];
    - routing.js: [findAllPaths], [calculatePathOutput], [simulateSwap],
      [findBestPath], [executeRoute];
    - state.js: the global [state] object, [updateAllTokenPrices] and
      [getTokenPriceChain];
    - capitalTracking.js: [calculateLiquidityDepth], [calculateRealCapital],
      [calculateDerivedCapital], [getCapitalBreakdown],
      [calculateCascadeImpact], [detectArbitrageOpportunities];
    - wallet.js: the [Wallet] class and the functions on [state.wallets].

    Conventions of the embedding.

    - Numbers.  Every quantity of the program is a decimal.js [Decimal].
      decimal.js is an external library; its values are modelled as exact
      rationals ([Qc], canonical fractions with Leibniz equality), that is
      without the rounding to a number of significant digits, and without
      NaN and the infinities.  A division by zero is [0] in [Qc]; the program
      guards most of its divisions, and a theorem that goes through an
      unguarded one assumes the divisor away from zero.
    - Objects.  [state.tokens] is a JavaScript array of mutable [Token]
      objects.  The store is the list [tokens]; an object reference is the
      position of the object in that list, and a write to a field of an
      object replaces the record at that position.
    - Clock.  [Date.now()] reads the field [clock] of the state at the
      current tick and advances the tick, so that a result may depend on
      every reading of the clock separately.
    - Console.  [console.warn] appends to the field [console].
    - The DOM (displays, alerts, glow effects) is not modelled. *)

From Stdlib Require Import QArith Qcanon ZArith Lia.
From stdpp Require Import base numbers list strings gmap pretty.

Local Open Scope Qc_scope.

(** ** The decimal layer *)

Abbreviation Decimal := Qc.

Module Dec.

(** [new Decimal('n.ddd')] for a literal with numerator [n] over [d]. *)
Definition lit (n : Z) (d : positive) : Decimal := Q2Qc (n # d).

Definition isZero (x : Decimal) : bool := bool_decide (x = 0).
Definition gt (x y : Decimal) : bool := bool_decide (y < x).
Definition gte (x y : Decimal) : bool := bool_decide (y <= x).
Definition lt (x y : Decimal) : bool := bool_decide (x < y).
Definition lte (x y : Decimal) : bool := bool_decide (x <= y).
Definition abs (x : Decimal) : Decimal := if bool_decide (x < 0) then - x else x.

End Dec.

(** The fee of a swap, [new Decimal('0.003')], and what is left of an
    input after it, [new Decimal(1).minus(fee)]. *)
Definition fee : Decimal := Dec.lit 3 1000.
Definition hundred : Decimal := Dec.lit 100 1.

(** ** Tokens and the global state *)

Inductive PairType := USD | WPLS | TOKEN.

Global Instance PairType_eq_dec : EqDecision PairType.
Proof. solve_decision. Defined.

(** The fields of a [Token] that the pool, the resolver, the router and
    the analyzer read or write.  [liquidityDepth], [realCapital] and
    [derivedCapital] are written only by the promise callback of
    [updateCapitalTracking], after the synchronous code has returned, and
    no function below reads them: they are left out, with the DOM
    element. *)
Record Token := mkToken {
  id : nat;
  name : string;
  plsBalance : Decimal;
  totalSupply : Decimal;
  totalLiquidity : Decimal;
  pairType : PairType;
  pairedTokenId : option nat;   (* [null] is [None] *)
  tokenReserve : Decimal;
  pairReserve : Decimal;
  lpTotalSupply : Decimal;
  k : Decimal;
  cachedUSDPrice : Decimal;
  priceLastUpdated : Z
}.

(** [new Token({ id })]: the constructor's initial field values. *)
Definition newToken (i : nat) (nm : string) : Token :=
  {| id := i; name := nm;
     plsBalance := Dec.lit 1000000 1;
     totalSupply := Dec.lit 1000000 1;
     totalLiquidity := 0;
     pairType := USD; pairedTokenId := None;
     tokenReserve := 0; pairReserve := 0;
     lpTotalSupply := 0; k := 0;
     cachedUSDPrice := 0; priceLastUpdated := 0 |}.

Inductive CapitalMode := market | backing.

Inductive Warning :=
  | CircularPrice (tokenId : nat)
  | MaxIterations.

Record State := mkState {
  tokens : list Token;
  plsPrice : Decimal;
  maxRoutingHops : nat;
  applySlippage : bool;
  capitalCalculationMode : CapitalMode;
  clock : nat -> Z;
  ticks : nat;
  console : list Warning
}.

Definition set_tokens (ts : list Token) (s : State) : State :=
  {| tokens := ts; plsPrice := plsPrice s; maxRoutingHops := maxRoutingHops s;
     applySlippage := applySlippage s;
     capitalCalculationMode := capitalCalculationMode s;
     clock := clock s; ticks := ticks s; console := console s |}.

(** A write to fields of the object at position [this]. *)
Definition update (this : nat) (f : Token -> Token) (s : State) : State :=
  set_tokens (alter f this (tokens s)) s.

Definition Date_now (s : State) : Z * State :=
  (clock s (ticks s),
   {| tokens := tokens s; plsPrice := plsPrice s;
      maxRoutingHops := maxRoutingHops s; applySlippage := applySlippage s;
      capitalCalculationMode := capitalCalculationMode s;
      clock := clock s; ticks := S (ticks s); console := console s |}).

Definition console_warn (w : Warning) (s : State) : State :=
  {| tokens := tokens s; plsPrice := plsPrice s;
     maxRoutingHops := maxRoutingHops s; applySlippage := applySlippage s;
     capitalCalculationMode := capitalCalculationMode s;
     clock := clock s; ticks := ticks s; console := console s ++ [w] |}.

(** [state.tokens.find(t => t.id === i)]: the first object whose id is
    [i]; nothing is found for [null]. *)
Fixpoint find_from (base : nat) (ts : list Token) (i : nat) : option nat :=
  match ts with
  | [] => None
  | t :: ts' => if bool_decide (id t = i) then Some base
                else find_from (S base) ts' i
  end.

Definition find_token (s : State) (i : option nat) : option nat :=
  match i with
  | None => None
  | Some i => find_from 0 (tokens s) i
  end.

(** JavaScript truthiness of a [pairedTokenId]: [null] and [0] are falsy. *)
Definition truthy (i : option nat) : bool :=
  match i with
  | Some (S _) => true
  | _ => false
  end.

(** ** Field writes *)

Definition set_price (p : Decimal) (now : Z) (t : Token) : Token :=
  {| id := id t; name := name t; plsBalance := plsBalance t;
     totalSupply := totalSupply t; totalLiquidity := totalLiquidity t;
     pairType := pairType t; pairedTokenId := pairedTokenId t;
     tokenReserve := tokenReserve t; pairReserve := pairReserve t;
     lpTotalSupply := lpTotalSupply t; k := k t;
     cachedUSDPrice := p; priceLastUpdated := now |}.

Definition set_priceLastUpdated (now : Z) (t : Token) : Token :=
  set_price (cachedUSDPrice t) now t.

(** [this.tokenReserve = tr; this.pairReserve = pr;
     this.k = this.tokenReserve.times(this.pairReserve)]. *)
Definition set_reserves (tr pr : Decimal) (t : Token) : Token :=
  {| id := id t; name := name t; plsBalance := plsBalance t;
     totalSupply := totalSupply t; totalLiquidity := totalLiquidity t;
     pairType := pairType t; pairedTokenId := pairedTokenId t;
     tokenReserve := tr; pairReserve := pr;
     lpTotalSupply := lpTotalSupply t; k := tr * pr;
     cachedUSDPrice := cachedUSDPrice t;
     priceLastUpdated := priceLastUpdated t |}.

Definition set_totalLiquidity (l : Decimal) (t : Token) : Token :=
  {| id := id t; name := name t; plsBalance := plsBalance t;
     totalSupply := totalSupply t; totalLiquidity := l;
     pairType := pairType t; pairedTokenId := pairedTokenId t;
     tokenReserve := tokenReserve t; pairReserve := pairReserve t;
     lpTotalSupply := lpTotalSupply t; k := k t;
     cachedUSDPrice := cachedUSDPrice t;
     priceLastUpdated := priceLastUpdated t |}.

Definition set_lpTotalSupply (l : Decimal) (t : Token) : Token :=
  {| id := id t; name := name t; plsBalance := plsBalance t;
     totalSupply := totalSupply t; totalLiquidity := totalLiquidity t;
     pairType := pairType t; pairedTokenId := pairedTokenId t;
     tokenReserve := tokenReserve t; pairReserve := pairReserve t;
     lpTotalSupply := l; k := k t;
     cachedUSDPrice := cachedUSDPrice t;
     priceLastUpdated := priceLastUpdated t |}.

Definition set_plsBalance (b : Decimal) (t : Token) : Token :=
  {| id := id t; name := name t; plsBalance := b;
     totalSupply := totalSupply t; totalLiquidity := totalLiquidity t;
     pairType := pairType t; pairedTokenId := pairedTokenId t;
     tokenReserve := tokenReserve t; pairReserve := pairReserve t;
     lpTotalSupply := lpTotalSupply t; k := k t;
     cachedUSDPrice := cachedUSDPrice t;
     priceLastUpdated := priceLastUpdated t |}.

(** ** The price resolver: [Token.calculateTokenPriceUSD] *)

(** The outcome of a run with a bound on the depth of the recursion. *)
Inductive Run (A : Type) :=
  | Done (a : A)
  | OutOfFuel.
Arguments Done {A} a.
Arguments OutOfFuel {A}.

(** [this.calculateTokenPriceUSD(visited)].  [visited] is one JavaScript
    [Set] shared by the whole recursion (and by whoever passed it in), so
    it is threaded through like the state.  A call on a position that
    holds no object does nothing. *)
Fixpoint calculateTokenPriceUSD_rec (fuel : nat) (this : nat)
    (visited : gset nat) (s : State) : Run (Decimal * gset nat * State) :=
  match fuel with
  | O => OutOfFuel
  | S fuel' =>
    match tokens s !! this with
    | None => Done (0, visited, s)
    | Some t =>
      if bool_decide (id t ∈ visited) then
        Done (0, visited, console_warn (CircularPrice (id t)) s)
      else
        let visited := visited ∪ {[ id t ]} in
        let '(now, s) := Date_now s in
        if bool_decide (now - priceLastUpdated t < 1000)%Z
           && negb (Dec.isZero (cachedUSDPrice t)) then
          Done (cachedUSDPrice t, visited, s)
        else if Dec.isZero (pairReserve t) || Dec.isZero (tokenReserve t) then
          Done (0, visited, update this (set_price 0 now) s)
        else
          let priceInPairAsset := pairReserve t / tokenReserve t in
          match pairType t with
          | USD =>
            let usdPrice := priceInPairAsset in
            Done (usdPrice, visited, update this (set_price usdPrice now) s)
          | WPLS =>
            let usdPrice := priceInPairAsset * plsPrice s in
            Done (usdPrice, visited, update this (set_price usdPrice now) s)
          | TOKEN =>
            match find_token s (pairedTokenId t) with
            | None =>
              Done (0, visited, update this (set_price 0 now) s)
            | Some pairedToken =>
              match calculateTokenPriceUSD_rec fuel' pairedToken visited s with
              | OutOfFuel => OutOfFuel
              | Done (pairTokenUSDPrice, visited, s) =>
                let usdPrice := priceInPairAsset * pairTokenUSDPrice in
                Done (usdPrice, visited,
                      update this (set_price usdPrice now) s)
              end
            end
          end
    end
  end.

(** Every call that passes the check on [visited] adds a new id of the
    store to it, so the recursion is never deeper than the number of
    objects plus one. *)
Definition calculateTokenPriceUSD (this : nat) (visited : gset nat)
    (s : State) : Run (Decimal * gset nat * State) :=
  calculateTokenPriceUSD_rec (S (length (tokens s))) this visited s.

(** The recursion never runs out of its bound (see
    [calculateTokenPriceUSD_total] below), so the last case is dead. *)
Definition priceUSD (this : nat) (visited : gset nat) (s : State)
    : Decimal * gset nat * State :=
  match calculateTokenPriceUSD this visited s with
  | Done r => r
  | OutOfFuel => (0, visited, s)
  end.

(** ** The pool: swaps *)

(** [calculateSwapOutput(inputAmount, inputReserve, outputReserve,
    feePercent = 0.3)]. *)
Definition defaultFeePercent : Decimal := Dec.lit 3 10.

Definition calculateSwapOutput (inputAmount inputReserve outputReserve : Decimal)
    (feePercent : Decimal) : Decimal :=
  let fee := feePercent / hundred in
  let inputWithFee := inputAmount * (1 - fee) in
  outputReserve * inputWithFee / (inputReserve + inputWithFee).

(** [this.calculatePriceImpact(amountIn, amountOut)]. *)
Definition calculatePriceImpact (t : Token) (amountIn amountOut : Decimal)
    : Decimal :=
  let priceBefore := pairReserve t / tokenReserve t in
  let priceAfter := (pairReserve t + amountIn) / (tokenReserve t - amountOut) in
  (priceAfter - priceBefore) / priceBefore * hundred.

Inductive BuyResult :=
  | BuyFailure (error : string)
  | BuySuccess (tokensReceived priceImpact : Decimal) (slippageApplied : bool)
               (newPrice : Decimal).

(** The writes of a committed buy: both reserves, [k], the legacy
    [totalLiquidity], and the invalidation of the price cache. *)
Definition commit_buy (amountIn tokenOut : Decimal) (t : Token) : Token :=
  let t := set_reserves (tokenReserve t - tokenOut) (pairReserve t + amountIn) t in
  let t := set_totalLiquidity (pairReserve t) t in
  set_priceLastUpdated 0 t.

(** [this.executeBuy(pairAmountIn)].  On a position that holds no
    object there is no method to call: the model answers with a failure
    of its own and no effect. *)
Definition executeBuy (this : nat) (pairAmountIn : Decimal) (s : State)
    : BuyResult * State :=
  match tokens s !! this with
  | None => (BuyFailure "not a token", s)
  | Some t =>
    let amountIn := pairAmountIn in
    if Dec.lte amountIn 0 then
      (BuyFailure "Amount must be positive", s)
    else if Dec.isZero (pairReserve t) || Dec.isZero (tokenReserve t) then
      (BuyFailure "No liquidity in pool", s)
    else
      let quote : option (Decimal * Decimal) :=
        if applySlippage s then
          let tokenOut :=
            calculateSwapOutput amountIn (pairReserve t) (tokenReserve t)
                                defaultFeePercent in
          if Dec.gte tokenOut (tokenReserve t) then None
          else Some (tokenOut, calculatePriceImpact t amountIn tokenOut)
        else
          let currentPrice := pairReserve t / tokenReserve t in
          let tokenOut := amountIn / currentPrice in
          if Dec.gte tokenOut (tokenReserve t) then None
          else Some (tokenOut, 0)
      in
      match quote with
      | None => (BuyFailure "Insufficient liquidity for this trade", s)
      | Some (tokenOut, priceImpact) =>
        let s := update this (commit_buy amountIn tokenOut) s in
        let '(newPrice, _, s) := priceUSD this ∅ s in
        (BuySuccess tokenOut priceImpact (applySlippage s) newPrice, s)
      end
  end.

(** ** The pool: supply and liquidity *)

(** [this.getTokensLockedInOtherPools()]: the pair reserves of the other
    pools that use this token as their pair asset. *)
Definition getTokensLockedInOtherPools (t : Token) (s : State) : Decimal :=
  foldl (fun lockedAmount otherToken =>
           if bool_decide (id otherToken <> id t)
              && bool_decide (pairType otherToken = TOKEN)
              && bool_decide (pairedTokenId otherToken = Some (id t))
           then lockedAmount + pairReserve otherToken
           else lockedAmount)
        0 (tokens s).

(** [this.getAvailableSupply()]. *)
Definition getAvailableSupply (t : Token) (s : State) : Decimal :=
  let tokensInOwnPool := tokenReserve t in
  let tokensInOtherPools := getTokensLockedInOtherPools t s in
  totalSupply t - tokensInOwnPool - tokensInOtherPools.

Definition ratioTolerance : Decimal := Dec.lit 1 1000.

Section Liquidity.

(** [Decimal.prototype.sqrt] of the library has no rational model; the
    pool only stores its result in [lpTotalSupply]. *)
Variable Decimal_sqrt : Decimal -> Decimal.

(** The writes of an accepted deposit, in the order of the source. *)
Definition commit_liquidity (tokenToAdd pairToAdd lpTokensToMint : Decimal)
    (t : Token) : Token :=
  let t := set_reserves (tokenReserve t + tokenToAdd)
                        (pairReserve t + pairToAdd) t in
  let t := set_lpTotalSupply (lpTotalSupply t + lpTokensToMint) t in
  let t := set_totalLiquidity (pairReserve t) t in
  set_priceLastUpdated 0 t.

(** [this.addLiquidity(tokenAmount, pairAmount)].  The result is the
    boolean the method returns.  The last step is the
    [calculateTokenPriceUSD()] of the closing [console.log], which
    refreshes price caches. *)
Definition addLiquidity (this : nat) (tokenAmount pairAmount : Decimal)
    (s : State) : bool * State :=
  match tokens s !! this with
  | None => (false, s)
  | Some t =>
    let tokenToAdd := tokenAmount in
    let pairToAdd := pairAmount in
    if Dec.lte tokenToAdd 0 || Dec.lte pairToAdd 0 then (false, s)
    else
      let availableSupply := totalSupply t - tokenReserve t in
      if Dec.gt tokenToAdd availableSupply then (false, s)
      else
        let isInitialLiquidity :=
          Dec.isZero (pairReserve t) && Dec.isZero (tokenReserve t) in
        let ratioRejected :=
          if isInitialLiquidity then false
          else
            let currentRatio := pairReserve t / tokenReserve t in
            let providedRatio := pairToAdd / tokenToAdd in
            let ratioDiff :=
              Dec.abs (currentRatio - providedRatio) / currentRatio in
            Dec.gt ratioDiff ratioTolerance
        in
        if ratioRejected then (false, s)
        else
          (* the pair side: the contract's PLS, or the paired token's
             available supply *)
          let pairSide : option State :=
            match pairType t with
            | WPLS =>
              if Dec.gt pairToAdd (plsBalance t) then None
              else Some (update this
                           (fun t => set_plsBalance (plsBalance t - pairToAdd) t) s)
            | TOKEN =>
              match find_token s (pairedTokenId t) with
              | None => None
              | Some pairedToken =>
                match tokens s !! pairedToken with
                | None => None
                | Some pt =>
                  let pairedTokenAvailable := getAvailableSupply pt s in
                  if Dec.gt pairToAdd pairedTokenAvailable then None
                  else Some s
                end
              end
            | USD => Some s
            end
          in
          match pairSide with
          | None => (false, s)
          | Some s =>
            let lpTokensToMint :=
              if isInitialLiquidity then Decimal_sqrt (tokenToAdd * pairToAdd)
              else
                let tokenShare := tokenToAdd / tokenReserve t in
                lpTotalSupply t * tokenShare
            in
            let s := update this
                       (commit_liquidity tokenToAdd pairToAdd lpTokensToMint) s in
            let '(_, _, s) := priceUSD this ∅ s in
            (true, s)
          end
  end.

End Liquidity.

(** ** System-wide price update: [updateAllTokenPrices] (state.js) *)

(** [state.tokens.filter(t => t.pairType === p)]: the objects of the
    store with pair type [p], as positions, in the order of the store. *)
Fixpoint filter_from (base : nat) (p : PairType) (ts : list Token) : list nat :=
  match ts with
  | [] => []
  | t :: ts' =>
    if bool_decide (pairType t = p) then base :: filter_from (S base) p ts'
    else filter_from (S base) p ts'
  end.

Definition tokens_paired (p : PairType) (s : State) : list nat :=
  filter_from 0 p (tokens s).

(** The read [token.cachedUSDPrice] of the object at position [i]. *)
Definition cached_price (s : State) (i : nat) : Decimal :=
  from_option cachedUSDPrice 0 (tokens s !! i).

Definition changeThreshold : Decimal := Dec.lit 1 10000.

(** The test of the loop body: did the cached price of a token move by
    more than 0.01%, or away from zero. *)
Definition price_changed (oldPrice newPrice : Decimal) : bool :=
  if negb (Dec.isZero oldPrice) then
    let change := Dec.abs (newPrice - oldPrice) / oldPrice in
    Dec.gt change changeThreshold
  else negb (Dec.isZero newPrice).

(** First pass: [wplsPairedTokens.forEach(token =>
    token.calculateTokenPriceUSD(visited))]. *)
Fixpoint wpls_pass (l : list nat) (visited : gset nat) (s : State)
    : gset nat * State :=
  match l with
  | [] => (visited, s)
  | token :: l' =>
    let '(_, visited, s) := priceUSD token visited s in
    wpls_pass l' visited s
  end.

(** One iteration over the token-paired tokens. *)
Fixpoint token_pass (l : list nat) (updated : bool) (visited : gset nat)
    (s : State) : bool * gset nat * State :=
  match l with
  | [] => (updated, visited, s)
  | token :: l' =>
    let oldPrice := cached_price s token in
    let '(_, visited, s) := priceUSD token visited s in
    let updated := updated || price_changed oldPrice (cached_price s token) in
    token_pass l' updated visited s
  end.

Definition maxIterations : nat := 10.

(** [while (updated && iteration < maxIterations)], on the number of
    iterations that are left. *)
Fixpoint price_loop (left : nat) (updated : bool) (iteration : nat)
    (visited : gset nat) (s : State) : nat * gset nat * State :=
  match left with
  | O => (iteration, visited, s)
  | S left' =>
    if updated then
      let '(updated, visited, s) :=
        token_pass (tokens_paired TOKEN s) false visited s in
      price_loop left' updated (S iteration) visited s
    else (iteration, visited, s)
  end.

(** [updateAllTokenPrices()].  The set [visited] is created once and
    handed to every call of the two passes. *)
Definition updateAllTokenPrices (s : State) : State :=
  let visited : gset nat := ∅ in
  let '(visited, s) := wpls_pass (tokens_paired WPLS s) visited s in
  let '(iteration, _, s) := price_loop maxIterations true 0 visited s in
  if bool_decide (maxIterations <= iteration)%nat
  then console_warn MaxIterations s
  else s.

(** ** The router (routing.js) *)

(** What a routing function does: it returns, or it dies on a
    [TypeError] (a property of [undefined] is read), or, in the model
    only, its loop exhausts the bound on its iterations. *)
Inductive Outcome (A : Type) :=
  | Returns (a : A)
  | TypeError
  | Exhausted.
Arguments Returns {A} a.
Arguments TypeError {A}.
Arguments Exhausted {A}.

Definition id_at (s : State) (i : nat) : option nat := id <$> tokens s !! i.

(** The breadth-first loop of [findAllPaths]: [queue] holds paths from
    the target backwards, [paths] the finished ones. *)
Fixpoint findAllPaths_loop (fuel : nat) (maxDepth : nat)
    (queue paths : list (list nat)) (s : State) : Outcome (list (list nat)) :=
  match fuel with
  | O => Exhausted
  | S fuel' =>
    match queue with
    | [] => Returns paths
    | currentPath :: queue =>
      match last currentPath ≫= (fun i => tokens s !! i) with
      | None => TypeError
      | Some currentToken =>
        if bool_decide (pairType currentToken = USD)
           || bool_decide (pairType currentToken = WPLS) then
          findAllPaths_loop fuel' maxDepth queue
                            (paths ++ [reverse currentPath]) s
        else if bool_decide (maxDepth <= length currentPath)%nat then
          findAllPaths_loop fuel' maxDepth queue paths s
        else if bool_decide (pairType currentToken = TOKEN)
                && truthy (pairedTokenId currentToken) then
          match find_token s (pairedTokenId currentToken) with
          | Some pairedToken =>
            if negb (existsb (fun t => bool_decide (id_at s t = id_at s pairedToken))
                             currentPath) then
              findAllPaths_loop fuel' maxDepth
                                (queue ++ [currentPath ++ [pairedToken]]) paths s
            else findAllPaths_loop fuel' maxDepth queue paths s
          | None => findAllPaths_loop fuel' maxDepth queue paths s
          end
        else findAllPaths_loop fuel' maxDepth queue paths s
      end
    end
  end.

(** [findAllPaths(targetToken, maxDepth = null)].  A path grows by one
    token per iteration and stops growing at [maxDepth], so the loop runs
    at most [max 1 maxDepth] times, and once more to find the queue
    empty. *)
Definition findAllPaths (targetToken : nat) (maxDepth : option nat) (s : State)
    : Outcome (list (list nat)) :=
  let maxDepth := from_option (fun d => d) (maxRoutingHops s) maxDepth in
  findAllPaths_loop (S (S maxDepth)) maxDepth [[targetToken]] [] s.

Record SwapQuote := mkQuote {
  quoteOut : Decimal;
  quoteImpact : Decimal
}.

(** [simulateSwap(token, amountIn, inputType, inputToken = null)].  On
    an [inputType] that is none of the three strings [pairAmountIn] stays
    [undefined] and the multiplication throws. *)
Definition simulateSwap (token : Token) (amountIn : Decimal)
    (inputType : option PairType) (inputToken : option nat)
    : Outcome (option SwapQuote) :=
  if Dec.isZero (tokenReserve token) || Dec.isZero (pairReserve token) then
    Returns None
  else
    match inputType with
    | None => TypeError
    | Some _ =>
      let pairAmountIn := amountIn in
      let amountInWithFee := pairAmountIn * (1 - fee) in
      let tokenOut :=
        tokenReserve token * amountInWithFee
        / (pairReserve token + amountInWithFee) in
      let priceBefore := pairReserve token / tokenReserve token in
      let newPairReserve := pairReserve token + pairAmountIn in
      let newTokenReserve := tokenReserve token - tokenOut in
      let priceAfter := newPairReserve / newTokenReserve in
      let priceImpact := (priceAfter - priceBefore) / priceBefore * hundred in
      Returns (Some {| quoteOut := tokenOut; quoteImpact := priceImpact |})
    end.

Record RouteHop := mkHop {
  hopToken : nat;            (* the token object of the hop *)
  hopAmountIn : Decimal;
  hopAmountOut : Decimal;
  hopPriceImpact : Decimal;
  hopPairType : PairType
}.

Record Route := mkRoute {
  hops : list RouteHop;
  totalAmountOut : Decimal;
  totalPriceImpact : Decimal;
  pathDescription : string
}.

Definition arrow : string := " → ".

(** [buildPathDescription(path)], for a path of objects of the store. *)
Definition buildPathDescription (path : list Token) : string :=
  match path with
  | [] => "No path"
  | token :: rest =>
    let general :=
      String.concat arrow
        (["USD"] ++ (if bool_decide (pairType token = WPLS) then ["WPLS"] else [])
                 ++ (name <$> path)) in
    match rest, pairType token with
    | [], USD => "USD" +:+ arrow +:+ name token
    | [], WPLS => "USD" +:+ arrow +:+ "WPLS" +:+ arrow +:+ name token
    | _, _ => general
    end
  end.

(** The loop of the multi-hop branch of [calculatePathOutput], from hop
    [i] on; [prev] is [path[i - 1]]. *)
Fixpoint multi_hop (path : list nat) (i : nat) (prev : option nat)
    (currentAmount totalPriceImpact : Decimal) (hops : list RouteHop)
    (s : State) : Outcome (option (list RouteHop * Decimal * Decimal)) :=
  match path with
  | [] => Returns (Some (hops, currentAmount, totalPriceImpact))
  | tok :: path' =>
    match tokens s !! tok with
    | None => TypeError
    | Some token =>
      let isFirstHop := bool_decide (i = 0%nat) in
      let '(inputType, currentAmount) :=
        if isFirstHop then
          match pairType token with
          | USD => (Some USD, currentAmount)
          | WPLS => (Some WPLS, currentAmount / plsPrice s)
          | TOKEN => (None, currentAmount)
          end
        else (Some TOKEN, currentAmount)
      in
      match simulateSwap token currentAmount inputType prev with
      | TypeError => TypeError
      | Exhausted => Exhausted
      | Returns None => Returns None
      | Returns (Some result) =>
        let hop := {| hopToken := tok; hopAmountIn := currentAmount;
                      hopAmountOut := quoteOut result;
                      hopPriceImpact := quoteImpact result;
                      hopPairType := pairType token |} in
        multi_hop path' (S i) (Some tok) (quoteOut result)
                  (totalPriceImpact + Dec.abs (quoteImpact result))
                  (hops ++ [hop]) s
      end
    end
  end.

(** The objects of a path; [None] when a position holds no object. *)
Definition path_tokens (s : State) (path : list nat) : option (list Token) :=
  mapM (fun i => tokens s !! i) path.

(** [calculatePathOutput(path, amountIn)]. *)
Definition calculatePathOutput (path : list nat) (amountIn : Decimal)
    (s : State) : Outcome (option Route) :=
  match path with
  | [] => Returns None
  | _ =>
    match path_tokens s path with
    | None => TypeError
    | Some objects =>
      let walked : Outcome (option (list RouteHop * Decimal * Decimal)) :=
        match path, objects with
        | [tok], [token] =>
          match pairType token with
          | USD =>
            match simulateSwap token amountIn (Some USD) None with
            | Returns (Some result) =>
              Returns (Some ([ {| hopToken := tok; hopAmountIn := amountIn;
                                  hopAmountOut := quoteOut result;
                                  hopPriceImpact := quoteImpact result;
                                  hopPairType := USD |} ],
                             quoteOut result, quoteImpact result))
            | Returns None => Returns None
            | TypeError => TypeError
            | Exhausted => Exhausted
            end
          | WPLS =>
            let wplsAmount := amountIn / plsPrice s in
            match simulateSwap token wplsAmount (Some WPLS) None with
            | Returns (Some result) =>
              Returns (Some ([ {| hopToken := tok; hopAmountIn := amountIn;
                                  hopAmountOut := quoteOut result;
                                  hopPriceImpact := quoteImpact result;
                                  hopPairType := WPLS |} ],
                             quoteOut result, quoteImpact result))
            | Returns None => Returns None
            | TypeError => TypeError
            | Exhausted => Exhausted
            end
          | TOKEN => Returns (Some ([], amountIn, 0))
          end
        | _, _ => multi_hop path 0 None amountIn 0 [] s
        end
      in
      match walked with
      | Returns (Some (hops, currentAmount, totalPriceImpact)) =>
        Returns (Some {| hops := hops; totalAmountOut := currentAmount;
                         totalPriceImpact := totalPriceImpact;
                         pathDescription := buildPathDescription objects |})
      | Returns None => Returns None
      | TypeError => TypeError
      | Exhausted => Exhausted
      end
    end
  end.

(** The loop of [findBestPath] over the candidate paths. *)
Fixpoint best_of (paths : list (list nat)) (amountIn : Decimal)
    (bestRoute : option Route) (bestOutput : Decimal) (s : State)
    : Outcome (option Route) :=
  match paths with
  | [] => Returns bestRoute
  | path :: paths' =>
    match calculatePathOutput path amountIn s with
    | TypeError => TypeError
    | Exhausted => Exhausted
    | Returns (Some route) =>
      if Dec.gt (totalAmountOut route) bestOutput then
        best_of paths' amountIn (Some route) (totalAmountOut route) s
      else best_of paths' amountIn bestRoute bestOutput s
    | Returns None => best_of paths' amountIn bestRoute bestOutput s
    end
  end.

(** [findBestPath(targetToken, amountIn)].  [getDecimal().zero()] is
    taken to be the library's zero. *)
Definition findBestPath (targetToken : nat) (amountIn : Decimal) (s : State)
    : Outcome (option Route) :=
  match findAllPaths targetToken None s with
  | TypeError => TypeError
  | Exhausted => Exhausted
  | Returns [] => Returns None
  | Returns paths => best_of paths amountIn None 0 s
  end.

Record ExecutedHop := mkExecutedHop {
  exTokenId : nat;
  exTokenName : string;
  exAmountIn : Decimal;
  exAmountOut : Decimal;
  exPriceImpact : Decimal
}.

Inductive RouteResult :=
  | RouteFailure (error : string)
  | RouteSuccess (finalAmount : Decimal) (executed : list ExecutedHop)
                 (totalImpact : Decimal) (description : string).

(** The write of one hop of [executeRoute]. *)
Definition commit_hop (hop : RouteHop) (t : Token) : Token :=
  set_reserves (tokenReserve t - hopAmountOut hop)
               (pairReserve t + hopAmountIn hop) t.

(** The loop of [executeRoute] over the hops of the route. *)
Fixpoint execute_hops (l : list RouteHop) (executedHops : list ExecutedHop)
    (s : State) : Outcome (list ExecutedHop * State) :=
  match l with
  | [] => Returns (executedHops, s)
  | hop :: l' =>
    match tokens s !! hopToken hop with
    | None => TypeError
    | Some token =>
      let s := update (hopToken hop) (commit_hop hop) s in
      execute_hops l'
        (executedHops ++ [ {| exTokenId := id token; exTokenName := name token;
                              exAmountIn := hopAmountIn hop;
                              exAmountOut := hopAmountOut hop;
                              exPriceImpact := hopPriceImpact hop |} ]) s
    end
  end.

(** [executeRoute(route, amountIn, walletId)]; [route] is [None] for
    [null].  On a [TypeError] the writes made so far stay. *)
Definition executeRoute (route : option Route) (amountIn : Decimal)
    (walletId : string) (s : State) : Outcome (RouteResult * State) :=
  match route with
  | None => Returns (RouteFailure "Invalid route", s)
  | Some route =>
    match hops route with
    | [] => Returns (RouteFailure "Invalid route", s)
    | _ =>
      match execute_hops (hops route) [] s with
      | Returns (executedHops, s) =>
        Returns (RouteSuccess (totalAmountOut route) executedHops
                              (totalPriceImpact route) (pathDescription route), s)
      | TypeError => TypeError
      | Exhausted => Exhausted
      end
    end
  end.

(** ** The capital analyzer (capitalTracking.js) *)

(** [calculateLiquidityDepth(token, visited)]: a JavaScript number,
    [None] for [Infinity]. *)
Fixpoint calculateLiquidityDepth_rec (fuel : nat) (token : nat)
    (visited : gset nat) (s : State) : Run (option nat * gset nat) :=
  match fuel with
  | O => OutOfFuel
  | S fuel' =>
    match tokens s !! token with
    | None => Done (None, visited)
    | Some t =>
      if bool_decide (id t ∈ visited) then Done (None, visited)
      else
        let visited := visited ∪ {[ id t ]} in
        if bool_decide (pairType t = USD) || bool_decide (pairType t = WPLS) then
          Done (Some 0%nat, visited)
        else if bool_decide (pairType t = TOKEN) && truthy (pairedTokenId t) then
          match find_token s (pairedTokenId t) with
          | None => Done (None, visited)
          | Some pairedToken =>
            match calculateLiquidityDepth_rec fuel' pairedToken visited s with
            | OutOfFuel => OutOfFuel
            | Done (d, visited) => Done (S <$> d, visited)
            end
          end
        else Done (None, visited)
    end
  end.

(** [calculateLiquidityDepth(token)] with a fresh [visited]; the bound
    is never reached ([calculateLiquidityDepth_total]). *)
Definition calculateLiquidityDepth (token : nat) (s : State) : option nat :=
  match calculateLiquidityDepth_rec (S (length (tokens s))) token ∅ s with
  | Done (d, _) => d
  | OutOfFuel => None
  end.

(** [calculateRealCapital(token)]. *)
Definition calculateRealCapital (t : Token) (s : State) : Decimal :=
  if negb (Dec.isZero (pairReserve t)) then
    match pairType t with
    | USD => pairReserve t
    | WPLS => pairReserve t * plsPrice s
    | TOKEN => 0
    end
  else 0.

(** [calculateRealCapitalBacking(token, pairedToken, visited)]. *)
Fixpoint calculateRealCapitalBacking_rec (fuel : nat) (token pairedToken : nat)
    (visited : gset nat) (s : State) : Run (Decimal * gset nat) :=
  match fuel with
  | O => OutOfFuel
  | S fuel' =>
    match tokens s !! token, tokens s !! pairedToken with
    | Some t, Some pt =>
      if bool_decide (id pt ∈ visited) then Done (0, visited)
      else
        let visited := visited ∪ {[ id pt ]} in
        let pairedTokenUsed := pairReserve t in
        let pairedTokenTotalSupply := totalSupply pt in
        if Dec.isZero pairedTokenTotalSupply then Done (0, visited)
        else
          let percentageUsed := pairedTokenUsed / pairedTokenTotalSupply in
          match pairType pt with
          | USD => Done (pairReserve pt * percentageUsed, visited)
          | WPLS => Done (pairReserve pt * plsPrice s * percentageUsed, visited)
          | TOKEN =>
            if truthy (pairedTokenId pt) then
              match find_token s (pairedTokenId pt) with
              | Some grandparentToken =>
                match calculateRealCapitalBacking_rec fuel' pairedToken
                        grandparentToken visited s with
                | OutOfFuel => OutOfFuel
                | Done (realCapitalBehindPaired, visited) =>
                  Done (realCapitalBehindPaired * percentageUsed, visited)
                end
              | None => Done (0 * percentageUsed, visited)
              end
            else Done (0 * percentageUsed, visited)
          end
    | _, _ => Done (0, visited)
    end
  end.

Definition calculateRealCapitalBacking (token pairedToken : nat) (s : State)
    : Decimal :=
  match calculateRealCapitalBacking_rec (S (length (tokens s)))
          token pairedToken ∅ s with
  | Done (c, _) => c
  | OutOfFuel => 0
  end.

(** [calculateDerivedCapital(token)].  In market mode the price of the
    paired token is resolved, which refreshes price caches. *)
Definition calculateDerivedCapital (token : nat) (s : State) : Decimal * State :=
  match tokens s !! token with
  | None => (0, s)
  | Some t =>
    if bool_decide (pairType t = TOKEN) && truthy (pairedTokenId t)
       && negb (Dec.isZero (pairReserve t)) then
      match find_token s (pairedTokenId t) with
      | None => (0, s)
      | Some pairedToken =>
        match capitalCalculationMode s with
        | market =>
          let '(pairedTokenPrice, _, s) := priceUSD pairedToken ∅ s in
          (pairReserve t * pairedTokenPrice, s)
        | backing => (calculateRealCapitalBacking token pairedToken s, s)
        end
      end
    else (0, s)
  end.

Record CapitalBreakdown := mkBreakdown {
  realCapital : Decimal;
  derivedCapital : Decimal;
  totalDisplayedValue : Decimal;
  leverageRatio : Decimal;
  averageDepth : Decimal
}.

Definition of_nat (n : nat) : Decimal := Qc_of_Z (Z.of_nat n).

(** The [forEach] of [getCapitalBreakdown], from the object at position
    [token] on; the accumulators are the four local variables. *)
Fixpoint breakdown_loop (n : nat) (token : nat)
    (realCapital derivedCapital : Decimal) (totalDepth tokenCount : nat)
    (s : State) : Decimal * Decimal * nat * nat * State :=
  match n with
  | O => (realCapital, derivedCapital, totalDepth, tokenCount, s)
  | S n' =>
    match tokens s !! token with
    | None => (realCapital, derivedCapital, totalDepth, tokenCount, s)
    | Some t =>
      let real := calculateRealCapital t s in
      let '(derived, s) := calculateDerivedCapital token s in
      let realCapital := realCapital + real in
      let derivedCapital := derivedCapital + derived in
      match calculateLiquidityDepth token s with
      | Some depth =>
        breakdown_loop n' (S token) realCapital derivedCapital
                       (totalDepth + depth) (S tokenCount) s
      | None =>
        breakdown_loop n' (S token) realCapital derivedCapital
                       totalDepth tokenCount s
      end
    end
  end.

(** [getCapitalBreakdown()]. *)
Definition getCapitalBreakdown (s : State) : CapitalBreakdown * State :=
  let '(realCapital, derivedCapital, totalDepth, tokenCount, s) :=
    breakdown_loop (length (tokens s)) 0 0 0 0 0 s in
  let totalDisplayedValue := realCapital + derivedCapital in
  let leverageRatio :=
    if Dec.isZero realCapital then 0 else derivedCapital / realCapital in
  let averageDepth :=
    if bool_decide (0 < tokenCount)%nat
    then of_nat totalDepth / of_nat tokenCount else 0 in
  ({| realCapital := realCapital; derivedCapital := derivedCapital;
      totalDisplayedValue := totalDisplayedValue;
      leverageRatio := leverageRatio; averageDepth := averageDepth |}, s).

(** *** Numbers that may not be finite

    [calculateCascadeImpact] raises the multiplier to [depth + 1], and
    the depth of a token outside every chain is the JavaScript
    [Infinity]: here the program itself feeds a non-finite value to the
    library.  The values downstream of that power are modelled with the
    non-finite cases of decimal.js and of JavaScript numbers (the sign of
    a zero is not tracked). *)
Inductive Num :=
  | Fin (q : Decimal)
  | PInf
  | NInf
  | NaN.

Module Num.

Definition sgn (q : Decimal) : comparison := q ?= 0.

Definition inf (positive : bool) : Num := if positive then PInf else NInf.

Definition opp (x : Num) : Num :=
  match x with Fin q => Fin (- q) | PInf => NInf | NInf => PInf | NaN => NaN end.

Definition plus (x y : Num) : Num :=
  match x, y with
  | Fin a, Fin b => Fin (a + b)
  | NaN, _ | _, NaN => NaN
  | PInf, NInf | NInf, PInf => NaN
  | PInf, _ | _, PInf => PInf
  | NInf, _ | _, NInf => NInf
  end.

Definition minus (x y : Num) : Num := plus x (opp y).

Definition scale (q : Decimal) (positive : bool) : Num :=
  match sgn q with
  | Eq => NaN
  | Gt => inf positive
  | Lt => inf (negb positive)
  end.

Definition times (x y : Num) : Num :=
  match x, y with
  | Fin a, Fin b => Fin (a * b)
  | NaN, _ | _, NaN => NaN
  | Fin a, PInf | PInf, Fin a => scale a true
  | Fin a, NInf | NInf, Fin a => scale a false
  | PInf, PInf | NInf, NInf => PInf
  | PInf, NInf | NInf, PInf => NInf
  end.

Definition dividedBy (x y : Num) : Num :=
  match x, y with
  | NaN, _ | _, NaN => NaN
  | Fin a, Fin b =>
    match sgn b with
    | Eq => scale a true
    | _ => Fin (a / b)
    end
  | Fin _, _ => Fin 0
  | PInf, Fin b => match sgn b with Lt => NInf | _ => PInf end
  | NInf, Fin b => match sgn b with Lt => PInf | _ => NInf end
  | _, _ => NaN
  end.

Definition abs (x : Num) : Num :=
  match x with Fin q => Fin (Dec.abs q) | PInf | NInf => PInf | NaN => NaN end.

(** [x > 0] on JavaScript numbers. *)
Definition positive (x : Num) : bool :=
  match x with Fin q => Dec.gt q 0 | PInf => true | _ => false end.

(** [x.pow(n)] for a finite [x] and the JavaScript number [n], [None]
    for [Infinity]: decimal.js answers [Math.pow(x, Infinity)]. *)
Definition pow (x : Decimal) (n : option nat) : Num :=
  match n with
  | Some n => Fin (x ^ n)
  | None =>
    match Dec.abs x ?= 1 with
    | Gt => PInf
    | Lt => Fin 0
    | Eq => NaN
    end
  end.

End Num.

Record TokenImpact := mkImpact {
  impactTokenId : nat;
  impactDepth : option nat;
  originalValue : Decimal;
  newValue : Num;
  changePercent : Num
}.

(** [impacts.sort((a, b) => Math.abs(b.changePercent) -
    Math.abs(a.changePercent))], as the stable insertion sort: [a] moves
    behind [b] exactly when the comparator is positive. *)
Definition impact_after (a b : TokenImpact) : bool :=
  Num.positive (Num.minus (Num.abs (changePercent b)) (Num.abs (changePercent a))).

Fixpoint insert_impact (a : TokenImpact) (l : list TokenImpact)
    : list TokenImpact :=
  match l with
  | [] => [a]
  | b :: l' => if impact_after a b then b :: insert_impact a l' else a :: l
  end.

Definition sort_impacts (l : list TokenImpact) : list TokenImpact :=
  foldr insert_impact [] l.

(** The callback of [state.tokens.map] in [calculateCascadeImpact], for
    the object at position [token]. *)
Definition impact_of (multiplier : Decimal) (token : nat) (t : Token) (s : State)
    : TokenImpact * State :=
  let depth := calculateLiquidityDepth token s in
  let real := calculateRealCapital t s in
  let '(derived, s) := calculateDerivedCapital token s in
  let originalValue := real + derived in
  let depthMultiplier := Num.pow multiplier (fmap (fun d => d + 1)%nat depth) in
  let newValue := Num.times (Fin originalValue) depthMultiplier in
  let changePercent :=
    if Dec.isZero originalValue then Fin 0
    else Num.times
           (Num.dividedBy (Num.minus newValue (Fin originalValue))
                          (Fin originalValue))
           (Fin hundred)
  in
  ({| impactTokenId := id t; impactDepth := depth;
      originalValue := originalValue; newValue := newValue;
      changePercent := changePercent |}, s).

Fixpoint impacts_loop (n : nat) (token : nat) (multiplier : Decimal)
    (s : State) : list TokenImpact * State :=
  match n with
  | O => ([], s)
  | S n' =>
    match tokens s !! token with
    | None => ([], s)
    | Some t =>
      let '(e, s) := impact_of multiplier token t s in
      let '(l, s) := impacts_loop n' (S token) multiplier s in
      (e :: l, s)
    end
  end.

Record CascadeImpact := mkCascade {
  plsPriceChange : Decimal;
  newPlsPrice : Decimal;
  realCapitalChange : Decimal;
  impacts : list TokenImpact;
  mostVulnerable : option TokenImpact;
  averageImpact : Num
}.

(** [calculateCascadeImpact(percentageChange)]. *)
Definition calculateCascadeImpact (percentageChange : Decimal) (s : State)
    : CascadeImpact * State :=
  let multiplier := 1 + percentageChange / hundred in
  let '(originalBreakdown, s) := getCapitalBreakdown s in
  let newPlsPrice := plsPrice s * multiplier in
  let newRealCapital := realCapital originalBreakdown * multiplier in
  let '(impacts, s) := impacts_loop (length (tokens s)) 0 multiplier s in
  let impacts := sort_impacts impacts in
  ({| plsPriceChange := percentageChange;
      newPlsPrice := newPlsPrice;
      realCapitalChange := newRealCapital - realCapital originalBreakdown;
      impacts := impacts;
      mostVulnerable := head impacts;
      averageImpact :=
        Num.dividedBy
          (foldl (fun sum t => Num.plus sum (Num.abs (changePercent t)))
                 (Fin 0) impacts)
          (Fin (of_nat (length impacts))) |}, s).

(** ** The pool: total supply *)



(** ** The price chain of a token (state.js) *)

(** An entry of the chain.  The source stores the two prices as the
    strings [toString()] gives; the entry holds the numbers. *)
Record PriceLink := mkLink {
  linkTokenId : nat;
  linkPairType : PairType;
  linkPairedTokenId : option nat;
  priceInPair : Decimal;
  priceInUSD : Decimal
}.

Definition link_of (current : Token) : PriceLink :=
  {| linkTokenId := id current;
     linkPairType := pairType current;
     linkPairedTokenId := pairedTokenId current;
     priceInPair :=
       if Dec.isZero (pairReserve current) || Dec.isZero (tokenReserve current)
       then 0
       else pairReserve current / tokenReserve current;
     priceInUSD := cachedUSDPrice current |}.

(** [while (current && !visited.has(current.id))]; [current] is [None]
    for [undefined]. *)
Fixpoint price_chain_loop (fuel : nat) (current : option nat)
    (visited : gset nat) (chain : list PriceLink) (s : State)
    : Run (list PriceLink) :=
  match fuel with
  | O => OutOfFuel
  | S fuel' =>
    match current ≫= (fun i => tokens s !! i) with
    | None => Done chain
    | Some t =>
      if bool_decide (id t ∈ visited) then Done chain
      else
        let visited := visited ∪ {[ id t ]} in
        let chain := chain ++ [link_of t] in
        if bool_decide (pairType t = TOKEN) then
          price_chain_loop fuel' (find_token s (pairedTokenId t)) visited chain s
        else Done chain
    end
  end.

(** [getTokenPriceChain(tokenId)]: [None] is [null].  Every iteration
    adds a new id of the store to [visited], so the bound is never
    reached. *)
Definition getTokenPriceChain (tokenId : nat) (s : State)
    : option (list PriceLink) :=
  match find_token s (Some tokenId) with
  | None => None
  | Some token =>
    match price_chain_loop (S (length (tokens s))) (Some token) ∅ [] s with
    | Done chain => Some chain
    | OutOfFuel => Some []
    end
  end.

(** ** Arbitrage detection (capitalTracking.js) *)

Record Opportunity := mkOpportunity {
  oppTokenA : nat;
  oppTokenB : nat;
  directPrice : Decimal;
  indirectPrice : Decimal;
  discrepancy : Decimal
}.

(** [calculatePathPrice(tokenA, tokenB, visited)]: the body of the
    source is [return null]. *)
Definition calculatePathPrice (tokenA tokenB : nat) (visited : list nat)
    : option Decimal := None.

(** [calculatePathPriceThroughWPLS(tokenA, tokenB)]. *)
Definition calculatePathPriceThroughWPLS (tokenA tokenB : nat) (s : State)
    : option Decimal * State :=
  let '(priceA, _, s) := priceUSD tokenA ∅ s in
  let '(priceB, _, s) := priceUSD tokenB ∅ s in
  if Dec.isZero priceA || Dec.isZero priceB then (None, s)
  else (Some (priceA / priceB), s).

Definition arbitrageThreshold : Decimal := Dec.lit 1 10.

(** The inner [forEach] of [detectArbitrageOpportunities], from the
    object at position [tokenB] on. *)
Fixpoint arbitrage_inner (n : nat) (tokenA tokenB : nat)
    (opportunities : list Opportunity) (s : State)
    : list Opportunity * State :=
  match n with
  | O => (opportunities, s)
  | S n' =>
    match id_at s tokenA, id_at s tokenB with
    | Some idA, Some idB =>
      if bool_decide (idB <= idA)%nat then
        arbitrage_inner n' tokenA (S tokenB) opportunities s
      else
        let directPath := calculatePathPrice tokenA tokenB [] in
        let '(viaWPLS, s) := calculatePathPriceThroughWPLS tokenA tokenB s in
        let opportunities :=
          match directPath, viaWPLS with
          | Some direct, Some via =>
            if negb (bool_decide (direct = via)) then
              let discrepancy := (via - direct) / direct * hundred in
              if Dec.gt (Dec.abs discrepancy) arbitrageThreshold then
                opportunities ++
                  [{| oppTokenA := idA; oppTokenB := idB;
                      directPrice := direct; indirectPrice := via;
                      discrepancy := discrepancy |}]
              else opportunities
            else opportunities
          | _, _ => opportunities
          end in
        arbitrage_inner n' tokenA (S tokenB) opportunities s
    | _, _ => (opportunities, s)
    end
  end.

(** The outer [forEach], from the object at position [tokenA] on. *)
Fixpoint arbitrage_outer (n : nat) (tokenA : nat)
    (opportunities : list Opportunity) (s : State)
    : list Opportunity * State :=
  match n with
  | O => (opportunities, s)
  | S n' =>
    let '(opportunities, s) :=
      arbitrage_inner (length (tokens s)) tokenA 0 opportunities s in
    arbitrage_outer n' (S tokenA) opportunities s
  end.

(** [detectArbitrageOpportunities()]. *)
Definition detectArbitrageOpportunities (s : State) : list Opportunity * State :=
  arbitrage_outer (length (tokens s)) 0 [] s.

(** ** Wallets (wallet.js) *)

(** [token ? token.name : `Token ${tokenId}`] for
    [token = state.tokens.find(t => t.id === tokenId)]. *)
Definition token_display_name (s : State) (tokenId : nat) : string :=
  match find_token s (Some tokenId) ≫= (fun i => tokens s !! i) with
  | Some token => name token
  | None => "Token " +:+ pretty tokenId
  end.

(** [name || fallback] on strings: [undefined] and the empty string are
    falsy. *)
Definition name_or (name : option string) (fallback : string) : string :=
  match name with
  | Some n => if decide (n = EmptyString) then fallback else n
  | None => fallback
  end.

Module Wallet.

(** The class [Wallet].  [tokenBalances] is a JavaScript [Map] from
    token ids to balances. *)
Record Wallet := mkWallet {
  id : nat;
  name : string;
  tokenBalances : gmap nat Decimal;
  plsBalance : Decimal;
  usdBalance : Decimal
}.

(** [new Wallet({ id, name })]. *)
Definition new (id : nat) (name : option string) : Wallet :=
  {| id := id;
     name := name_or name ("Wallet " +:+ pretty id);
     tokenBalances := ∅;
     plsBalance := Dec.lit 1000000 1;
     usdBalance := Dec.lit 1000000 1 |}.

(** [this.getTokenBalance(tokenId)]. *)
Definition getTokenBalance (w : Wallet) (tokenId : nat) : Decimal :=
  default 0 (tokenBalances w !! tokenId).

(** [this.setTokenBalance(tokenId, balance)]. *)
Definition setTokenBalance (tokenId : nat) (balance : Decimal) (w : Wallet)
    : Wallet :=
  {| id := id w; name := name w;
     tokenBalances := <[tokenId := balance]> (tokenBalances w);
     plsBalance := plsBalance w; usdBalance := usdBalance w |}.

(** [this.addTokenBalance(tokenId, amount)]. *)
Definition addTokenBalance (tokenId : nat) (amount : Decimal) (w : Wallet)
    : Wallet :=
  let currentBalance := getTokenBalance w tokenId in
  let newBalance := currentBalance + amount in
  setTokenBalance tokenId newBalance w.

(** [this.subtractTokenBalance(tokenId, amount)], with the boolean it
    returns. *)
Definition subtractTokenBalance (tokenId : nat) (amount : Decimal) (w : Wallet)
    : bool * Wallet :=
  let currentBalance := getTokenBalance w tokenId in
  if Dec.lt currentBalance amount then (false, w)
  else
    let newBalance := currentBalance - amount in
    (true, setTokenBalance tokenId newBalance w).

Definition set_usdBalance (b : Decimal) (w : Wallet) : Wallet :=
  {| id := id w; name := name w; tokenBalances := tokenBalances w;
     plsBalance := plsBalance w; usdBalance := b |}.

Definition set_plsBalance (b : Decimal) (w : Wallet) : Wallet :=
  {| id := id w; name := name w; tokenBalances := tokenBalances w;
     plsBalance := b; usdBalance := usdBalance w |}.

(** [this.addUSD(amount)]. *)
Definition addUSD (amount : Decimal) (w : Wallet) : Wallet :=
  set_usdBalance (usdBalance w + amount) w.

(** [this.subtractUSD(amount)]. *)
Definition subtractUSD (amount : Decimal) (w : Wallet) : bool * Wallet :=
  if Dec.lt (usdBalance w) amount then (false, w)
  else (true, set_usdBalance (usdBalance w - amount) w).

(** [this.addPLS(amount)]. *)
Definition addPLS (amount : Decimal) (w : Wallet) : Wallet :=
  set_plsBalance (plsBalance w + amount) w.

(** [this.subtractPLS(amount)]. *)
Definition subtractPLS (amount : Decimal) (w : Wallet) : bool * Wallet :=
  if Dec.lt (plsBalance w) amount then (false, w)
  else (true, set_plsBalance (plsBalance w - amount) w).

(** The object [getBalanceSummary] returns; [summaryTokens] is its
    [tokens] object, keyed by token id. *)
Record Summary := mkSummary {
  summaryName : string;
  usd : Decimal;
  pls : Decimal;
  summaryTokens : gmap nat (Decimal * string)
}.

(** [this.getBalanceSummary()]. *)
Definition getBalanceSummary (w : Wallet) (s : State) : Summary :=
  {| summaryName := name w;
     usd := usdBalance w;
     pls := plsBalance w;
     summaryTokens :=
       map_imap (fun tokenId balance =>
                   if Dec.gt balance 0
                   then Some (balance, token_display_name s tokenId)
                   else None)
                (tokenBalances w) |}.

End Wallet.

(** The array [state.wallets]; the functions below take it and give it
    back.  The lines of [console.log] are not recorded. *)

(** [initializeWalletSystem()]; [None] is a [state.wallets] that is not
    set. *)
Definition initializeWalletSystem (wallets : option (list Wallet.Wallet))
    : list Wallet.Wallet :=
  let wallets := default [] wallets in
  if bool_decide (length wallets = 0%nat)
  then wallets ++ [Wallet.new 1 (Some "Wallet 1")]
  else wallets.

(** [getWalletById(walletId)]: [None] is [null]. *)
Definition getWalletById (walletId : nat) (wallets : list Wallet.Wallet)
    : option Wallet.Wallet :=
  snd <$> list_find (fun w => Wallet.id w = walletId) wallets.

(** [getWalletByName(walletName)]. *)
Definition getWalletByName (walletName : string) (wallets : list Wallet.Wallet)
    : option Wallet.Wallet :=
  snd <$> list_find (fun w => Wallet.name w = walletName) wallets.

(** [createWallet(name)]: the new wallet and the array after the push. *)
Definition createWallet (name : option string) (wallets : list Wallet.Wallet)
    : Wallet.Wallet * list Wallet.Wallet :=
  let newId := (length wallets + 1)%nat in
  let wallet :=
    Wallet.new newId (Some (name_or name ("Wallet " +:+ pretty newId))) in
  (wallet, wallets ++ [wallet]).

(** [getAllWallets()]. *)
Definition getAllWallets (wallets : option (list Wallet.Wallet))
    : list Wallet.Wallet :=
  default [] wallets.

(** * Statements: vocabulary, scenarios, and the claims as worded *)

(** ** What the price resolver leaves alone *)

(** A token without its price cache. *)
Definition erase_cache (t : Token) : Token := set_price 0 0 t.

(** [cache_only s s']: from [s] to [s'] nothing but price caches, clock
    ticks and console lines has changed. *)
Record cache_only (s s' : State) : Prop := mk_cache_only {
  co_pools : erase_cache <$> tokens s' = erase_cache <$> tokens s;
  co_plsPrice : plsPrice s' = plsPrice s;
  co_maxRoutingHops : maxRoutingHops s' = maxRoutingHops s;
  co_applySlippage : applySlippage s' = applySlippage s;
  co_mode : capitalCalculationMode s' = capitalCalculationMode s;
  co_clock : clock s' = clock s
}.

(** ** Termination of the price recursion *)

(** The ids of the objects of the store. *)
Definition ids (s : State) : gset nat := list_to_set (id <$> tokens s).

(** The measure: the ids of the store that are not yet in [visited]. *)
Definition unvisited (s : State) (visited : gset nat) : nat :=
  size (ids s ∖ visited).

(** The calls of a run, counted on what each of them leaves behind: a
    call either finds its token in [visited] and writes one warning, or
    it reads the clock once. *)
Definition calls (s s' : State) : nat :=
  (ticks s' - ticks s) + (length (console s') - length (console s)).

(** What a run of the resolver from [s] with [visited] guarantees. *)
Record price_post (s : State) (visited : gset nat) (p : Decimal)
    (visited' : gset nat) (s' : State) : Prop := mk_price_post {
  pp_frame : cache_only s s';
  pp_visited : visited ⊆ visited';
  pp_effects : exists a w,
      ticks s' = (ticks s + a)%nat /\ console s' = console s ++ w /\
      (a + length w <= S (unvisited s visited))%nat /\
      (w <> [] -> p = 0)
}.

(** *** Scenario: a cycle of two tokens *)

(** Token A (id 1) is paired with token B (id 2) and B with A; both
    pools are funded and no price is cached. *)
Definition cyclic_pool (i j : nat) (nm : string) : Token :=
  {| id := i; name := nm;
     plsBalance := Dec.lit 1000000 1; totalSupply := Dec.lit 1000000 1;
     totalLiquidity := Dec.lit 500 1;
     pairType := TOKEN; pairedTokenId := Some j;
     tokenReserve := Dec.lit 1000 1; pairReserve := Dec.lit 500 1;
     lpTotalSupply := 0; k := Dec.lit 500000 1;
     cachedUSDPrice := 0; priceLastUpdated := 0 |}.

Definition state_of (ts : list Token) : State :=
  {| tokens := ts; plsPrice := 1; maxRoutingHops := 3; applySlippage := true;
     capitalCalculationMode := market;
     clock := fun _ => 5000%Z; ticks := 0; console := [] |}.

Definition cycle_AB : State :=
  state_of [cyclic_pool 1 2 "Token 1"; cyclic_pool 2 1 "Token 2"].

(** ** Swaps *)

(** The constant-product output of the source, with the default fee. *)
Definition swapOutput (amountIn inputReserve outputReserve : Decimal) : Decimal :=
  let amountInWithFee := amountIn * (1 - fee) in
  outputReserve * amountInWithFee / (inputReserve + amountInWithFee).

(** *** Scenario pools *)

Definition pool (i : nat) (nm : string) (pt : PairType) (paired : option nat)
    (tr pr : Z) : Token :=
  {| id := i; name := nm;
     plsBalance := Dec.lit 1000000 1; totalSupply := Dec.lit 1000000 1;
     totalLiquidity := Dec.lit pr 1;
     pairType := pt; pairedTokenId := paired;
     tokenReserve := Dec.lit tr 1; pairReserve := Dec.lit pr 1;
     lpTotalSupply := 0; k := Dec.lit (tr * pr) 1;
     cachedUSDPrice := 0; priceLastUpdated := 0 |}.

(** One pool paired with USD, reserves 1000 and 1000. *)
Definition pool_X : Token := pool 1 "X" USD None 1000 1000.

Definition one_pool : State := state_of [pool_X].

(** The same store with [state.applySlippage] switched off. *)
Definition ideal_mode (s : State) : State :=
  {| tokens := tokens s; plsPrice := plsPrice s;
     maxRoutingHops := maxRoutingHops s; applySlippage := false;
     capitalCalculationMode := capitalCalculationMode s;
     clock := clock s; ticks := ticks s; console := console s |}.

(** *** C2: the product of the reserves *)


(** *** C5: the fee and the constant-product formula *)

(** [result.tokensReceived], 0 when there is none. *)
Definition tokensReceived_of (r : BuyResult) : Decimal :=
  match r with
  | BuySuccess out _ _ _ => out
  | BuyFailure _ => 0
  end.

(** The claim as the specification words it, for the swap method of the
    pool: on a non-empty pool the output is the constant-product amount
    after the 0.3% fee, and the swap fails on an empty pool or when that
    amount would drain the reserve. *)
Definition every_swap_applies_fee : Prop :=
  forall s this t a,
    tokens s !! this = Some t -> 0 < a ->
    let amountInWithFee := a * (1 - Dec.lit 3 1000) in
    let amountOut :=
      tokenReserve t * amountInWithFee / (pairReserve t + amountInWithFee) in
    (pairReserve t = 0 \/ tokenReserve t = 0 ->
     exists e, executeBuy this a s = (BuyFailure e, s))
    /\ (pairReserve t <> 0 -> tokenReserve t <> 0 ->
        (tokenReserve t <= amountOut ->
         exists e, executeBuy this a s = (BuyFailure e, s))
        /\ (amountOut < tokenReserve t ->
            exists impact slip newPrice s',
              executeBuy this a s
              = (BuySuccess amountOut impact slip newPrice, s'))).

(** ** C1: route execution *)





(** A route to X planned for 10000 USD on the pool (1000, 1000) ... *)
Definition big_order : Decimal := Dec.lit 10000 1.

Definition planned_route : Route :=
  match findBestPath 0 big_order one_pool with
  | Returns (Some route) => route
  | _ => {| hops := []; totalAmountOut := 0; totalPriceImpact := 0;
            pathDescription := "" |}
  end.

(** ... and the pool after another buy of the same size got in first:
    fewer tokens are left than the route was planned to take out. *)
Definition pool_after_buy : State := (executeBuy 0 big_order one_pool).2.

(** [two_pools] holds X, paired with USD, reserves (1000, 1000), and Y,
    paired with X, with [tokenReserve = 1000] and [pairReserve = 500]:
    the order of the data model and of [addLiquidity(tokenAmount,
    pairAmount)].  One Y costs 0.5 X at the spot price. *)
Definition pool_Y : Token := pool 2 "Y" TOKEN (Some 1%nat) 1000 500.

Definition two_pools : State := state_of [pool_X; pool_Y].


(** ** C3: the system-wide price update *)

(** W (id 1) is paired with WPLS, reserves 1000 and 1000; Y (id 2) is
    paired with W, 1000 Y against 500 W.  PLS is at 1 USD, no price is
    cached, and the clock reads 5000 ms. *)
Definition pool_W : Token := pool 1 "W" WPLS None 1000 1000.
Definition pool_Y_on_W : Token := pool 2 "Y" TOKEN (Some 1%nat) 1000 500.

Definition wpls_chain : State := state_of [pool_W; pool_Y_on_W].

(** The same with an anchor in USD and two tokens paired with it: the
    first is priced, and resolving it puts the anchor into [visited], so
    the second gets 0. *)
Definition usd_fan : State :=
  state_of [pool_X; pool 2 "Y" TOKEN (Some 1%nat) 1000 500;
            pool 3 "Z" TOKEN (Some 1%nat) 1000 500].

(** ** C4: available supply *)

(** Token 1 as the constructor makes it (paired with USD, supply
    1000000), and token 2 paired with token 1. *)
Definition token_1 : Token := newToken 1 "Token 1".

Definition token_2 : Token :=
  {| id := 2; name := "Token 2";
     plsBalance := Dec.lit 1000000 1; totalSupply := Dec.lit 1000000 1;
     totalLiquidity := 0;
     pairType := TOKEN; pairedTokenId := Some 1%nat;
     tokenReserve := 0; pairReserve := 0;
     lpTotalSupply := 0; k := 0;
     cachedUSDPrice := 0; priceLastUpdated := 0 |}.

Definition fresh_pair : State := state_of [token_1; token_2].

(** The available supply of the object at position [i]. *)
Definition available_at (i : nat) (s : State) : Decimal :=
  from_option (fun t => getAvailableSupply t s) 0 (tokens s !! i).

(** ** C7: the route to a token paired with an anchor-paired token *)



(** ** C10: the analyzer is read-only on the pools *)

(** No pool has changed from [s] to [s']: the same objects, each with
    the reserves, the [k] and the LP supply it had, and the same price
    of PLS. *)
Definition pools_unchanged (s s' : State) : Prop :=
  length (tokens s') = length (tokens s) /\
  (forall i t, tokens s !! i = Some t ->
     exists t', tokens s' !! i = Some t' /\
       tokenReserve t' = tokenReserve t /\ pairReserve t' = pairReserve t /\
       k t' = k t /\ lpTotalSupply t' = lpTotalSupply t) /\
  plsPrice s' = plsPrice s.

(** ** C8: the cascade compounds with depth *)

(** What an entry says about a token of finite depth under the
    multiplier [m]. *)
Definition compounds (m : Decimal) (e : TokenImpact) : Prop :=
  forall d, impactDepth e = Some d ->
    newValue e = Fin (originalValue e * m ^ (d + 1)) /\
    (originalValue e <> 0 ->
     changePercent e = Fin ((m ^ (d + 1) - 1) * hundred)).

(** The entry of the object at position [i], read off [impact_of] in
    some state [si] that differs from [s] in price caches only. *)
Definition entry_of (m : Decimal) (s : State) (i : nat) (t : Token)
    (e : TokenImpact) : Prop :=
  impactTokenId e = id t /\
  impactDepth e = calculateLiquidityDepth i s /\
  (exists si, cache_only s si /\
     originalValue e = calculateRealCapital t s + (calculateDerivedCapital i si).1) /\
  compounds m e.

(** A chain of depth 2: X on USD, Y on X, Z on Y, and a shock of +10%. *)
Definition pool_Z : Token := pool 3 "Z" TOKEN (Some 2%nat) 1000 500.

Definition chain_X_Y_Z : State := state_of [pool_X; pool_Y; pool_Z].

(** The percentage reported for the token with id [i], when finite. *)
Definition percent_of (i : nat) (r : CascadeImpact) : option Q :=
  match filter (fun e => impactTokenId e = i) (impacts r) with
  | e :: _ => match changePercent e with Fin q => Some (this q) | _ => None end
  | [] => None
  end.

(** * Further statements *)

(** ** Liquidity deposits *)

(** The LP tokens a deposit mints: the square root of the product for
    the first deposit, the share of the token side afterwards. *)
Definition lp_minted (Decimal_sqrt : Decimal -> Decimal) (t : Token)
    (tokenAmount pairAmount : Decimal) : Decimal :=
  if Dec.isZero (pairReserve t) && Dec.isZero (tokenReserve t)
  then Decimal_sqrt (tokenAmount * pairAmount)
  else lpTotalSupply t * (tokenAmount / tokenReserve t).

(** The contract's PLS after a deposit: debited for a WPLS pair only. *)
Definition pls_after_deposit (t : Token) (pairAmount : Decimal) : Decimal :=
  match pairType t with
  | WPLS => plsBalance t - pairAmount
  | _ => plsBalance t
  end.

(** ** Routes *)



(** Each hop feeds the next one, and the last one yields [final]. *)
Fixpoint linked (l : list RouteHop) (final : Decimal) : Prop :=
  match l with
  | [] => True
  | hop :: l' =>
    match l' with
    | [] => hopAmountOut hop = final
    | next :: _ => hopAmountIn next = hopAmountOut hop /\ linked l' final
    end
  end.

(** The object at the head of a path is paired with an anchor asset. *)
Definition starts_at_anchor (s : State) (path : list nat) : Prop :=
  exists tok rest t, path = tok :: rest /\ tokens s !! tok = Some t /\
                     pairType t <> TOKEN.

(** ** The pairing graph *)

(** The object at [x] is paired with a token, and [find] gives the
    object at [y] for it. *)
Definition pairs_with (s : State) (x y : nat) : Prop :=
  exists tx, tokens s !! x = Some tx /\ pairType tx = TOKEN /\
             find_token s (pairedTokenId tx) = Some y.

(** The object at [x] is paired with USD or WPLS. *)
Definition anchored (s : State) (x : nat) : Prop :=
  exists tx, tokens s !! x = Some tx /\ pairType tx <> TOKEN.

(** A path in the order in which it is traded: every token after the
    first is paired with the one before it. *)
Fixpoint pairing_chain (s : State) (path : list nat) : Prop :=
  match path with
  | x :: rest =>
    match rest with
    | [] => True
    | y :: _ => pairs_with s y x /\ pairing_chain s rest
    end
  | [] => True
  end.

(** The bound on the length of a path that [findAllPaths] works with. *)
Definition hop_bound (s : State) (maxDepth : option nat) : nat :=
  from_option (fun d => d) (maxRoutingHops s) maxDepth.

(** ** The price update *)

(** The lines the console has gained from [s] to [s'] are [w]. *)
Definition logged (s s' : State) (w : list Warning) : Prop :=
  console s' = console s ++ w.

(** The passes of the loop of [updateAllTokenPrices], started as the
    function starts it. *)
Definition passes_of_update (s : State) : nat :=
  let '(visited, s) := wpls_pass (tokens_paired WPLS s) ∅ s in
  (price_loop maxIterations true 0 visited s).1.1.

(** ** Prices *)



(** ** Capital *)

(** The sum of [f] over the objects of a list. *)
Definition sum_of (f : Token -> Decimal) (l : list Token) : Decimal :=
  foldr (fun t acc => f t + acc) 0 l.

(** No pool holds more of its pair token than that token has supply:
    for every token paired with a token of the store, the pair reserve
    is at most the total supply of the paired token. *)
Definition supply_respected (s : State) : Prop :=
  Forall (fun t =>
            match find_token s (pairedTokenId t) ≫= (fun j => tokens s !! j) with
            | Some pt => pairType t = TOKEN -> pairReserve t <= totalSupply pt
            | None => True
            end) (tokens s).

(** No pair reserve and no PLS price is negative. *)
Definition reserves_nonneg (s : State) : Prop :=
  Forall (fun t => 0 <= pairReserve t) (tokens s) /\ 0 <= plsPrice s.

(** [B] is at least the real capital of every pool of the store. *)
Definition bounds_real_capital (s : State) (B : Decimal) : Prop :=
  Forall (fun t => calculateRealCapital t s <= B) (tokens s).

(** The store of [state_of] with the capital mode set to [backing]. *)
Definition in_backing_mode (s : State) : State :=
  {| tokens := tokens s; plsPrice := plsPrice s;
     maxRoutingHops := maxRoutingHops s; applySlippage := applySlippage s;
     capitalCalculationMode := backing;
     clock := clock s; ticks := ticks s; console := console s |}.

(** ** The impact list *)

(** Is the percentage of an entry a finite number. *)
Definition finite_percent (e : TokenImpact) : bool :=
  match changePercent e with Fin _ => true | _ => false end.

(** Both percentages are finite, and that of [b] is in absolute value
    at most that of [a]. *)
Definition no_less (a b : TokenImpact) : Prop :=
  exists qa qb, changePercent a = Fin qa /\ changePercent b = Fin qb /\
                Dec.abs qb <= Dec.abs qa.

(** Every entry is [no_less] than all entries behind it. *)
Fixpoint descending (l : list TokenImpact) : Prop :=
  match l with
  | [] => True
  | a :: l' => Forall (no_less a) l' /\ descending l'
  end.

(** ** Pools within their supply *)



(** ** Wallets *)

(** No balance of the wallet is negative. *)
Definition solvent (w : Wallet.Wallet) : Prop :=
  0 <= Wallet.usdBalance w /\ 0 <= Wallet.plsBalance w /\
  forall tokenId, 0 <= Wallet.getTokenBalance w tokenId.

(** The wallets of the array carry the ids 1, 2, 3, ... in order. *)
Definition numbered (wallets : list Wallet.Wallet) : Prop :=
  forall i w, wallets !! i = Some w -> Wallet.id w = S i.

(** ** The price chain *)

(** Every entry but the last is paired with a token, and that token is
    the one of the next entry. *)
Fixpoint chain_linked (chain : list PriceLink) : Prop :=
  match chain with
  | a :: rest =>
    match rest with
    | [] => True
    | b :: _ =>
      linkPairType a = TOKEN /\ linkPairedTokenId a = Some (linkTokenId b) /\
      chain_linked rest
    end
  | [] => True
  end.

(** * Properties *)

(** ** The decimal layer *)

Module DecFacts.

Lemma isZero_true x : Dec.isZero x = true <-> x = 0.
Proof. unfold Dec.isZero. by rewrite bool_decide_eq_true. Qed.

Lemma isZero_false x : Dec.isZero x = false <-> x <> 0.
Proof. unfold Dec.isZero. by rewrite bool_decide_eq_false. Qed.

Lemma gt_true x y : Dec.gt x y = true <-> y < x.
Proof. unfold Dec.gt. by rewrite bool_decide_eq_true. Qed.

Lemma gte_true x y : Dec.gte x y = true <-> y <= x.
Proof. unfold Dec.gte. by rewrite bool_decide_eq_true. Qed.

Lemma gte_false x y : Dec.gte x y = false <-> x < y.
Proof. unfold Dec.gte. by rewrite bool_decide_eq_false, Qclt_nge. Qed.

Lemma lte_true x y : Dec.lte x y = true <-> x <= y.
Proof. unfold Dec.lte. by rewrite bool_decide_eq_true. Qed.

Lemma lte_false x y : Dec.lte x y = false <-> y < x.
Proof. unfold Dec.lte. by rewrite bool_decide_eq_false, Qclt_nge. Qed.

Lemma pos_nonzero x : 0 < x -> x <> 0.
Proof. intros H ->. by apply (Qclt_not_eq 0 0). Qed.

Lemma div_pos x y : 0 < x -> 0 < y -> 0 < x / y.
Proof. intros. apply Qcmult_pos_pos; [done|]. by apply Qcinv_pos. Qed.

End DecFacts.

(** ** What the price resolver leaves alone *)

Create HintDb frame.

Lemma cache_only_refl s : cache_only s s.
Proof. by split. Qed.

Lemma cache_only_trans s1 s2 s3 :
  cache_only s1 s2 -> cache_only s2 s3 -> cache_only s1 s3.
Proof. intros [] []. split; congruence. Qed.

Lemma cache_only_Date_now s : cache_only s (Date_now s).2.
Proof. by split. Qed.

Lemma cache_only_warn w s : cache_only s (console_warn w s).
Proof. by split. Qed.

Lemma erase_cache_set_price p now t :
  erase_cache (set_price p now t) = erase_cache t.
Proof. reflexivity. Qed.

Lemma cache_only_set_price this p now s :
  cache_only s (update this (set_price p now) s).
Proof.
  split; try reflexivity. simpl.
  apply list_eq. intros i.
  rewrite !list_lookup_fmap.
  destruct (decide (this = i)) as [->|Hne].
  - rewrite list_lookup_alter_eq. by destruct (tokens s !! i).
  - by rewrite list_lookup_alter_ne.
Qed.

#[export] Hint Resolve cache_only_refl cache_only_Date_now cache_only_warn
  cache_only_set_price : frame.

Lemma cache_only_step s1 s2 s3 :
  cache_only s1 s2 -> cache_only s2 s3 -> cache_only s1 s3.
Proof. apply cache_only_trans. Qed.

Lemma cache_only_lookup s s' i t :
  cache_only s s' -> tokens s !! i = Some t ->
  exists t', tokens s' !! i = Some t' /\ erase_cache t' = erase_cache t.
Proof.
  intros [Hp _ _ _ _ _] Ht.
  assert ((erase_cache <$> tokens s') !! i = Some (erase_cache t)) as H.
  { rewrite Hp, list_lookup_fmap, Ht. done. }
  rewrite list_lookup_fmap in H.
  destruct (tokens s' !! i) as [t'|]; [|done].
  exists t'. split; [done|]. simpl in H. congruence.
Qed.

Lemma cache_only_ids s s' : cache_only s s' -> id <$> tokens s' = id <$> tokens s.
Proof.
  intros [Hp _ _ _ _ _].
  assert (forall l : list Token, id <$> l = id <$> (erase_cache <$> l)) as E.
  { intros l. rewrite <- list_fmap_compose. done. }
  rewrite (E (tokens s')), (E (tokens s)). by rewrite Hp.
Qed.

Lemma cache_only_length s s' : cache_only s s' -> length (tokens s') = length (tokens s).
Proof.
  intros H. apply cache_only_ids in H.
  rewrite <- (length_fmap id (tokens s')), H. apply length_fmap.
Qed.

(** The pool of a token: everything the claim of read-only analysis
    speaks about. *)
Lemma erase_cache_fields t t' :
  erase_cache t' = erase_cache t ->
  id t' = id t /\ tokenReserve t' = tokenReserve t /\
  pairReserve t' = pairReserve t /\ k t' = k t /\
  lpTotalSupply t' = lpTotalSupply t /\ totalSupply t' = totalSupply t /\
  pairType t' = pairType t /\ pairedTokenId t' = pairedTokenId t.
Proof.
  destruct t, t'. unfold erase_cache, set_price. simpl.
  intros [= -> -> -> -> -> -> -> -> -> -> ->]. repeat split.
Qed.

(** ** Termination of the price recursion *)

Lemma ids_lookup s i t : tokens s !! i = Some t -> id t ∈ ids s.
Proof.
  intros H. unfold ids. apply elem_of_list_to_set, list_elem_of_fmap.
  exists t. split; [done|]. by eapply list_elem_of_lookup_2.
Qed.

Lemma size_list_to_set_le (l : list nat) :
  (size (list_to_set l : gset nat) <= length l)%nat.
Proof.
  induction l as [|x l IH].
  - by rewrite list_to_set_nil, size_empty.
  - rewrite list_to_set_cons, size_union_alt, size_singleton. simpl.
    pose proof (subseteq_size (list_to_set l ∖ {[x]}) (list_to_set l : gset nat)) as H.
    assert (list_to_set l ∖ {[x]} ⊆ (list_to_set l : gset nat)) by set_solver.
    specialize (H ltac:(done)). lia.
Qed.

Lemma size_ids s : (size (ids s) <= length (tokens s))%nat.
Proof.
  unfold ids. etrans; [apply size_list_to_set_le|]. by rewrite length_fmap.
Qed.

Lemma cache_only_ids_set s s' : cache_only s s' -> ids s' = ids s.
Proof. intros H. unfold ids. by rewrite (cache_only_ids _ _ H). Qed.

Lemma unvisited_le s visited : (unvisited s visited <= length (tokens s))%nat.
Proof.
  unfold unvisited. etrans; [|apply size_ids].
  apply subseteq_size. set_solver.
Qed.

Lemma unvisited_add s visited i :
  i ∈ ids s -> i ∉ visited ->
  (unvisited s (visited ∪ {[ i ]}) < unvisited s visited)%nat.
Proof.
  intros Hin Hnot. unfold unvisited. apply subset_size. set_solver.
Qed.

Lemma price_post_calls s visited p visited' s' :
  price_post s visited p visited' s' ->
  (calls s s' <= S (unvisited s visited))%nat.
Proof.
  intros [_ _ (a & w & Ht & Hc & Hle & _)]. unfold calls.
  rewrite Ht, Hc, length_app. lia.
Qed.

Lemma price_post_zero s visited p visited' s' :
  price_post s visited p visited' s' -> console s' <> console s -> p = 0.
Proof.
  intros [_ _ (a & w & _ & Hc & _ & Hz)] Hne. apply Hz.
  intros ->. rewrite app_nil_r in Hc. done.
Qed.

Lemma price_post_leaf s visited visited' p s' a w :
  cache_only s s' -> visited ⊆ visited' ->
  ticks s' = (ticks s + a)%nat -> console s' = console s ++ w ->
  (a + length w <= 1)%nat -> (w <> [] -> p = 0) ->
  price_post s visited p visited' s'.
Proof.
  intros Hf Hv Ht Hc Hle Hz. split; [done|done|].
  exists a, w. repeat split; try done. lia.
Qed.

(** A call that does not recurse: [a] clock readings, warnings [w]. *)
Ltac leaf a w :=
  eexists _, _, _; split; [reflexivity|];
  apply (price_post_leaf _ _ _ _ _ a w); simpl; rewrite ?app_nil_r;
  auto with frame; try lia; try done; try set_solver.

(** The resolver with a bound above the measure returns, and its result
    has [price_post]. *)
Lemma calculateTokenPriceUSD_rec_spec fuel :
  forall this visited s,
    (unvisited s visited < fuel)%nat ->
    exists p visited' s',
      calculateTokenPriceUSD_rec fuel this visited s = Done (p, visited', s')
      /\ price_post s visited p visited' s'.
Proof.
  induction fuel as [|fuel IH]; intros this visited s Hfuel; [lia|].
  simpl. destruct (tokens s !! this) as [t|] eqn:Ht; [|leaf 0%nat (@nil Warning)].
  case_bool_decide as Hvis; [leaf 0%nat [CircularPrice (id t)]|].
  set (s1 := {| tokens := tokens s; plsPrice := plsPrice s;
                maxRoutingHops := maxRoutingHops s;
                applySlippage := applySlippage s;
                capitalCalculationMode := capitalCalculationMode s;
                clock := clock s; ticks := S (ticks s);
                console := console s |}).
  assert (cache_only s s1) as Hs1 by (by split).
  assert (forall p now,
             cache_only s (update this (set_price p now) s1)) as Hwrite.
  { intros p now. eapply cache_only_trans; [exact Hs1|]. auto with frame. }
  destruct (_ && _); [leaf 1%nat (@nil Warning)|].
  destruct (_ || _); [leaf 1%nat (@nil Warning)|].
  destruct (pairType t); [leaf 1%nat (@nil Warning)..|].
  destruct (find_token s1 (pairedTokenId t)) as [pairedToken|];
    [|leaf 1%nat (@nil Warning)].
  assert (unvisited s1 (visited ∪ {[id t]}) < unvisited s visited)%nat as Hdec.
  { unfold unvisited. rewrite (cache_only_ids_set _ _ Hs1).
    apply unvisited_add; [by eapply ids_lookup|done]. }
  destruct (IH pairedToken (visited ∪ {[id t]}) s1 ltac:(lia))
    as (p & visited' & s2 & -> & [Hf Hv (a & w & Hticks & Hcons & Hle & Hz)]).
  eexists _, _, _. split; [done|].
  split.
  - eapply cache_only_trans; [exact Hs1|].
    eapply cache_only_trans; [exact Hf|]. auto with frame.
  - set_solver.
  - exists (S a), w. simpl. rewrite Hticks, Hcons. simpl.
    repeat split; [lia|lia|].
    intros Hw. rewrite (Hz Hw). apply Qcmult_0_r.
Qed.

Lemma calculateTokenPriceUSD_total this visited s :
  exists p visited' s',
    calculateTokenPriceUSD this visited s = Done (p, visited', s')
    /\ price_post s visited p visited' s'.
Proof.
  apply calculateTokenPriceUSD_rec_spec.
  pose proof (unvisited_le s visited). lia.
Qed.

(** The total resolver is the bounded one. *)
Lemma priceUSD_spec this visited s :
  calculateTokenPriceUSD this visited s = Done (priceUSD this visited s)
  /\ price_post s visited (priceUSD this visited s).1.1
                (priceUSD this visited s).1.2 (priceUSD this visited s).2.
Proof.
  destruct (calculateTokenPriceUSD_total this visited s)
    as (p & v & s' & E & H).
  unfold priceUSD. rewrite E. done.
Qed.

Lemma priceUSD_frame this visited s : cache_only s (priceUSD this visited s).2.
Proof. apply priceUSD_spec. Qed.

#[export] Hint Resolve priceUSD_frame : frame.

(** *** A cycle of two tokens *)

(** Resolving A goes A, B, A: three calls, the third one warns, and the
    price is 0; the same for B. *)
Example cycle_AB_prices :
  (priceUSD 0 ∅ cycle_AB).1.1 = 0 /\ (priceUSD 1 ∅ cycle_AB).1.1 = 0 /\
  calls cycle_AB (priceUSD 0 ∅ cycle_AB).2 = 3%nat /\
  console (priceUSD 0 ∅ cycle_AB).2 = [CircularPrice 1] /\
  console (priceUSD 1 ∅ cycle_AB).2 = [CircularPrice 2].
Proof. repeat split; apply Qc_is_canon || idtac; vm_compute; reflexivity. Qed.

(** C6. Price resolution terminates and is cycle-safe: for every state
    (whatever the pairing graph, cycles included), every token and every
    set [visited], [calculateTokenPriceUSD] returns within the bound on
    its recursion; it makes at most one call per object of the store plus
    one; and when the resolution has revisited a token of the visiting
    set (the circular-dependency warning was written) the price it
    returns is 0. *)
Theorem price_resolution_terminates_and_zero_on_cycle :
  forall (this : nat) (visited : gset nat) (s : State),
  exists p visited' s',
    calculateTokenPriceUSD this visited s = Done (p, visited', s') /\
    (calls s s' <= S (length (tokens s)))%nat /\
    (console s' <> console s -> p = 0).
Proof.
  intros this visited s.
  destruct (calculateTokenPriceUSD_total this visited s)
    as (p & v & s' & E & H).
  exists p, v, s'. split; [done|]. split.
  - pose proof (price_post_calls _ _ _ _ _ H).
    pose proof (unvisited_le s visited). lia.
  - by eapply price_post_zero.
Qed.

(** The cycle A, B at this theorem: the run returns, and as it has
    written a warning its price is 0. *)
Lemma price_resolution_cycle_witness :
  exists p visited' s',
    calculateTokenPriceUSD 0 ∅ cycle_AB = Done (p, visited', s') /\
    console s' <> console cycle_AB /\ p = 0.
Proof.
  destruct (price_resolution_terminates_and_zero_on_cycle 0 ∅ cycle_AB)
    as (p & v & s' & E & _ & Hz).
  exists p, v, s'. split; [exact E|].
  assert (console s' <> console cycle_AB) as Hne.
  { assert (console s' = [CircularPrice 1]) as ->; [|discriminate].
    pose proof (proj1 (priceUSD_spec 0 ∅ cycle_AB)) as E'.
    rewrite E in E'.
    assert (console s' = console (priceUSD 0 ∅ cycle_AB).2) as E''.
    { change (match Done (p, v, s') with
              | Done r => console r.2 | OutOfFuel => [] end
              = console (priceUSD 0 ∅ cycle_AB).2).
      rewrite E'. reflexivity. }
    rewrite E''. vm_compute. reflexivity. }
  split; [exact Hne|exact (Hz Hne)].
Defined.

(** ** Swaps *)

Lemma default_fee : defaultFeePercent / hundred = fee.
Proof. apply Qc_is_canon. vm_compute. reflexivity. Qed.

Lemma fee_pos : 0 < fee.
Proof. reflexivity. Qed.

Lemma after_fee_pos : 0 < 1 - fee.
Proof. reflexivity. Qed.

Lemma calculateSwapOutput_default a x y :
  calculateSwapOutput a x y defaultFeePercent = swapOutput a x y.
Proof. unfold calculateSwapOutput, swapOutput. by rewrite default_fee. Qed.

(** The state after a committed buy: the pool of [this] holds the new
    reserves and their product. *)
Lemma commit_buy_state this t amountIn tokenOut s :
  tokens s !! this = Some t ->
  exists t',
    tokens (priceUSD this ∅ (update this (commit_buy amountIn tokenOut) s)).2
      !! this = Some t' /\
    tokenReserve t' = tokenReserve t - tokenOut /\
    pairReserve t' = pairReserve t + amountIn /\
    k t' = tokenReserve t' * pairReserve t'.
Proof.
  intros Ht.
  set (s1 := update this (commit_buy amountIn tokenOut) s).
  assert (tokens s1 !! this = Some (commit_buy amountIn tokenOut t)) as H1.
  { unfold s1, update. simpl. by rewrite list_lookup_alter_eq, Ht. }
  destruct (cache_only_lookup _ _ _ _ (priceUSD_frame this ∅ s1) H1)
    as (t' & Ht' & He).
  exists t'. split; [done|].
  apply erase_cache_fields in He as (_ & Htr & Hpr & Hk & _).
  rewrite Htr, Hpr, Hk. done.
Qed.

(** [executeBuy] past its two entry checks. *)
Lemma executeBuy_funded this t a s :
  tokens s !! this = Some t -> 0 < a ->
  pairReserve t <> 0 -> tokenReserve t <> 0 ->
  executeBuy this a s =
    let tokenOut :=
      if applySlippage s then swapOutput a (pairReserve t) (tokenReserve t)
      else a / (pairReserve t / tokenReserve t) in
    if Dec.gte tokenOut (tokenReserve t) then
      (BuyFailure "Insufficient liquidity for this trade", s)
    else
      let priceImpact :=
        if applySlippage s then calculatePriceImpact t a tokenOut else 0 in
      let r := priceUSD this ∅ (update this (commit_buy a tokenOut) s) in
      (BuySuccess tokenOut priceImpact (applySlippage r.2) r.1.1, r.2).
Proof.
  intros Ht Ha HP HT. unfold executeBuy. rewrite Ht.
  apply DecFacts.lte_false in Ha. rewrite Ha.
  apply DecFacts.isZero_false in HP, HT. rewrite HP, HT. simpl.
  rewrite calculateSwapOutput_default.
  destruct (applySlippage s); simpl.
  - destruct (Dec.gte _ _); [done|].
    by destruct (priceUSD _ _ _) as [[? ?] ?].
  - destruct (Dec.gte _ _); [done|].
    by destruct (priceUSD _ _ _) as [[? ?] ?].
Qed.

Lemma executeBuy_empty this t a s :
  tokens s !! this = Some t -> 0 < a ->
  pairReserve t = 0 \/ tokenReserve t = 0 ->
  executeBuy this a s = (BuyFailure "No liquidity in pool", s).
Proof.
  intros Ht Ha Hz. unfold executeBuy. rewrite Ht.
  apply DecFacts.lte_false in Ha. rewrite Ha.
  destruct Hz as [Hz|Hz]; apply DecFacts.isZero_true in Hz; rewrite Hz; simpl.
  - done.
  - by rewrite orb_true_r.
Qed.

(** The algebra of a constant-product swap with a fee: what is left in
    the output reserve, and the growth of the product. *)
Lemma swapOutput_left a P T :
  P + a * (1 - fee) <> 0 ->
  T - swapOutput a P T = T * P / (P + a * (1 - fee)).
Proof. intros H. unfold swapOutput. field; exact H. Qed.

Lemma swapOutput_product a P T :
  P + a * (1 - fee) <> 0 ->
  (T - swapOutput a P T) * (P + a) - T * P
  = T * P * (a * fee) / (P + a * (1 - fee)).
Proof. intros H. unfold swapOutput. field; exact H. Qed.

Lemma with_fee_pos a P : 0 < a -> 0 < P -> 0 < P + a * (1 - fee).
Proof.
  intros Ha HP. apply Qcplus_pos_pos; [done|].
  apply Qcmult_pos_pos; [done|apply after_fee_pos].
Qed.

Lemma swapOutput_lt a P T :
  0 < a -> 0 < P -> 0 < T -> swapOutput a P T < T.
Proof.
  intros Ha HP HT.
  pose proof (with_fee_pos a P Ha HP) as Hd.
  apply Qclt_minus_iff.
  change (0 < T - swapOutput a P T).
  rewrite swapOutput_left by (by apply DecFacts.pos_nonzero).
  apply DecFacts.div_pos; [|done]. by apply Qcmult_pos_pos.
Qed.

Lemma swapOutput_k_grows a P T :
  0 < a -> 0 < P -> 0 < T ->
  T * P < (T - swapOutput a P T) * (P + a).
Proof.
  intros Ha HP HT.
  pose proof (with_fee_pos a P Ha HP) as Hd.
  apply Qclt_minus_iff.
  change (0 < (T - swapOutput a P T) * (P + a) - T * P).
  rewrite swapOutput_product by (by apply DecFacts.pos_nonzero).
  apply DecFacts.div_pos; [|done].
  repeat apply Qcmult_pos_pos; first [done | apply fee_pos].
Qed.

(** [executeBuy] in the two modes of [state.applySlippage], on a funded
    pool and a positive amount. *)
Lemma executeBuy_slippage this t a s :
  applySlippage s = true ->
  tokens s !! this = Some t -> 0 < a ->
  pairReserve t <> 0 -> tokenReserve t <> 0 ->
  let tokenOut := swapOutput a (pairReserve t) (tokenReserve t) in
  let r := priceUSD this ∅ (update this (commit_buy a tokenOut) s) in
  (tokenReserve t <= tokenOut ->
   executeBuy this a s = (BuyFailure "Insufficient liquidity for this trade", s))
  /\ (tokenOut < tokenReserve t ->
      executeBuy this a s =
        (BuySuccess tokenOut (calculatePriceImpact t a tokenOut) true r.1.1, r.2)).
Proof.
  intros Hs Ht Ha HP HT tokenOut r.
  rewrite (executeBuy_funded this t a s Ht Ha HP HT). rewrite Hs. simpl.
  fold tokenOut. fold r.
  assert (applySlippage r.2 = applySlippage s) as ->
    by exact (co_applySlippage _ _ (priceUSD_frame this ∅ _)).
  rewrite Hs.
  split; intros H.
  - apply DecFacts.gte_true in H. by rewrite H.
  - apply DecFacts.gte_false in H. by rewrite H.
Qed.

Lemma executeBuy_ideal this t a s :
  applySlippage s = false ->
  tokens s !! this = Some t -> 0 < a ->
  pairReserve t <> 0 -> tokenReserve t <> 0 ->
  let tokenOut := a / (pairReserve t / tokenReserve t) in
  let r := priceUSD this ∅ (update this (commit_buy a tokenOut) s) in
  (tokenReserve t <= tokenOut ->
   executeBuy this a s = (BuyFailure "Insufficient liquidity for this trade", s))
  /\ (tokenOut < tokenReserve t ->
      executeBuy this a s = (BuySuccess tokenOut 0 false r.1.1, r.2)).
Proof.
  intros Hs Ht Ha HP HT tokenOut r.
  rewrite (executeBuy_funded this t a s Ht Ha HP HT). rewrite Hs. simpl.
  fold tokenOut. fold r.
  assert (applySlippage r.2 = applySlippage s) as ->
    by exact (co_applySlippage _ _ (priceUSD_frame this ∅ _)).
  rewrite Hs.
  split; intros H.
  - apply DecFacts.gte_true in H. by rewrite H.
  - apply DecFacts.gte_false in H. by rewrite H.
Qed.

(** *** C2: the product of the reserves *)




(** With the fee the product grows strictly. *)
Lemma slippage_swap_grows_k s this t a :
  applySlippage s = true ->
  tokens s !! this = Some t -> 0 < a ->
  0 < tokenReserve t -> 0 < pairReserve t ->
  forall t', tokens (executeBuy this a s).2 !! this = Some t' ->
  tokenReserve t * pairReserve t < tokenReserve t' * pairReserve t'.
Proof.
  intros Hs Ht Ha HT HP t' Ht'.
  destruct (executeBuy_slippage this t a s Hs Ht Ha) as [_ Hok];
    [by apply DecFacts.pos_nonzero..|].
  rewrite (Hok (swapOutput_lt a _ _ Ha HP HT)) in Ht'. simpl in Ht'.
  destruct (commit_buy_state this t a
              (swapOutput a (pairReserve t) (tokenReserve t)) s Ht)
    as (t'' & Ht'' & Htr & Hpr & Hk).
  rewrite Ht'' in Ht'. injection Ht' as <-.
  rewrite Htr, Hpr. by apply swapOutput_k_grows.
Qed.

(** *** C5: the fee and the constant-product formula *)

Lemma simulateSwap_empty t a ty prev :
  pairReserve t = 0 \/ tokenReserve t = 0 ->
  simulateSwap t a ty prev = Returns None.
Proof.
  intros Hz. unfold simulateSwap.
  destruct Hz as [Hz|Hz]; apply DecFacts.isZero_true in Hz; rewrite Hz.
  - by rewrite orb_true_r.
  - done.
Qed.

Lemma simulateSwap_funded t a ty prev :
  pairReserve t <> 0 -> tokenReserve t <> 0 ->
  exists impact,
    simulateSwap t a (Some ty) prev
    = Returns (Some {| quoteOut := swapOutput a (pairReserve t) (tokenReserve t);
                       quoteImpact := impact |}).
Proof.
  intros HP HT. unfold simulateSwap.
  apply DecFacts.isZero_false in HP, HT. rewrite HP, HT. simpl.
  eexists. reflexivity.
Qed.

(** With slippage switched off a buy of 100 on the pool (1000, 1000)
    returns 100 tokens, not 1000 * 99.7 / 1099.7. *)
Lemma ideal_swap_applies_no_fee : ~ every_swap_applies_fee.
Proof.
  intros H.
  pose (s := ideal_mode one_pool). pose (a := Dec.lit 100 1).
  assert (pairReserve pool_X <> 0 /\ tokenReserve pool_X <> 0) as [HP HT]
    by (split; discriminate).
  pose proof (proj2 (executeBuy_ideal 0 pool_X a s eq_refl eq_refl
                       ltac:(reflexivity) HP HT) ltac:(reflexivity)) as Hideal.
  destruct (H s 0%nat pool_X a eq_refl ltac:(reflexivity)) as [_ Hf].
  destruct (proj2 (Hf HP HT) ltac:(reflexivity))
    as (impact & slip & newPrice & s' & E).
  rewrite Hideal in E.
  apply (f_equal (fun r => this (tokensReceived_of r.1))) in E.
  vm_compute in E. discriminate E.
Qed.

(** C5, amended. With [state.applySlippage] on (the default) a buy of a
    positive amount applies the 0.3% fee, [amountInWithFee = amountIn *
    (1 - 0.003)], and on a non-empty pool returns [amountOut =
    tokenReserve * amountInWithFee / (pairReserve + amountInWithFee)],
    which is also what [calculateSwapOutput] computes and what
    [simulateSwap] quotes; the buy fails when the pool is empty or when
    [amountOut >= tokenReserve], and [simulateSwap] returns [null] on an
    empty pool. *)
Theorem slippage_swap_applies_fee :
  forall s this t a,
    applySlippage s = true ->
    tokens s !! this = Some t -> 0 < a ->
    let amountInWithFee := a * (1 - Dec.lit 3 1000) in
    let amountOut :=
      tokenReserve t * amountInWithFee / (pairReserve t + amountInWithFee) in
    calculateSwapOutput a (pairReserve t) (tokenReserve t) defaultFeePercent
      = amountOut
    /\ (pairReserve t = 0 \/ tokenReserve t = 0 ->
        executeBuy this a s = (BuyFailure "No liquidity in pool", s)
        /\ forall ty prev, simulateSwap t a ty prev = Returns None)
    /\ (pairReserve t <> 0 -> tokenReserve t <> 0 ->
        (tokenReserve t <= amountOut ->
         executeBuy this a s
         = (BuyFailure "Insufficient liquidity for this trade", s))
        /\ (amountOut < tokenReserve t ->
            exists newPrice s',
              executeBuy this a s
              = (BuySuccess amountOut (calculatePriceImpact t a amountOut)
                            true newPrice, s'))
        /\ (forall ty prev, exists impact,
              simulateSwap t a (Some ty) prev
              = Returns (Some {| quoteOut := amountOut;
                                 quoteImpact := impact |}))).
Proof.
  intros s this t a Hs Ht Ha amountInWithFee amountOut.
  change amountOut with (swapOutput a (pairReserve t) (tokenReserve t)).
  split; [apply calculateSwapOutput_default|]. split.
  - intros Hz. split; [by eapply executeBuy_empty|].
    intros ty prev. by apply simulateSwap_empty.
  - intros HP HT.
    destruct (executeBuy_slippage this t a s Hs Ht Ha HP HT) as [Hfail Hok].
    split; [exact Hfail|]. split.
    + intros Hlt. eexists _, _. exact (Hok Hlt).
    + intros ty prev. by apply simulateSwap_funded.
Qed.

Lemma slippage_swap_applies_fee_witness :
  exists newPrice s',
    executeBuy 0 (Dec.lit 100 1) one_pool
    = (BuySuccess (Dec.lit 1000 1 * (Dec.lit 100 1 * (1 - Dec.lit 3 1000))
                   / (Dec.lit 1000 1 + Dec.lit 100 1 * (1 - Dec.lit 3 1000)))
                  (calculatePriceImpact pool_X (Dec.lit 100 1)
                     (Dec.lit 1000 1 * (Dec.lit 100 1 * (1 - Dec.lit 3 1000))
                      / (Dec.lit 1000 1 + Dec.lit 100 1 * (1 - Dec.lit 3 1000))))
                  true newPrice, s').
Proof.
  destruct (slippage_swap_applies_fee one_pool 0%nat pool_X (Dec.lit 100 1)
              eq_refl eq_refl ltac:(reflexivity)) as (_ & _ & H).
  destruct H as (_ & Hok & _); [done..|].
  apply Hok. reflexivity.
Defined.

(** *** C9: the ideal mode *)



(** ** C1: route execution *)





Example stale_route_negative_reserve :
  exists r s' t,
    executeRoute (Some planned_route) big_order "wallet-1" pool_after_buy
      = Returns (r, s') /\
    tokens s' !! 0%nat = Some t /\ tokenReserve t < 0.
Proof.
  eexists _, _, _. split; [vm_compute; reflexivity|].
  split; [vm_compute; reflexivity|]. reflexivity.
Qed.



(** ** C3: the system-wide price update *)

(** C3 (fails on the code). On the chain Y -> W -> WPLS, which has no
    cycle, [updateAllTokenPrices] leaves W at its price of 1 USD and Y
    at 0 instead of 0.5 * 1: the first pass has put W into the shared
    [visited], so when Y asks for the price of W the call reports a
    circular dependency and answers 0. *)
Theorem update_zeroes_price_of_dependent_token :
  let s' := updateAllTokenPrices wpls_chain in
  cached_price s' 0 = 1 /\
  cached_price s' 1 = 0 /\
  pairReserve pool_Y_on_W / tokenReserve pool_Y_on_W * cached_price s' 0
    = Dec.lit 1 2 /\
  console s' = [CircularPrice 1].
Proof.
  repeat split; try (apply Qc_is_canon); vm_compute; reflexivity.
Qed.

Example update_prices_only_first_dependent :
  let s' := updateAllTokenPrices usd_fan in
  cached_price s' 0 = 1 /\ cached_price s' 1 = Dec.lit 1 2 /\
  cached_price s' 2 = 0.
Proof.
  repeat split; apply Qc_is_canon; vm_compute; reflexivity.
Qed.

(** ** C4: available supply *)

(** C4 (fails on the code). Two deposits, each accepted: 1000 of token
    2 against 600000 of token 1 into the pool of token 2, then 500000 of
    token 1 against 500 USD into the pool of token 1.  The second one is
    checked against [totalSupply - tokenReserve] only, not against
    [getAvailableSupply()], so the 600000 locked in the other pool are
    not counted, and the available supply of token 1 ends at
    1000000 - 500000 - 600000 = -100000. *)
Theorem accepted_deposits_overdraw_supply :
  forall Decimal_sqrt : Decimal -> Decimal,
    let r1 := addLiquidity Decimal_sqrt 1 (Dec.lit 1000 1) (Dec.lit 600000 1)
                           fresh_pair in
    let r2 := addLiquidity Decimal_sqrt 0 (Dec.lit 500000 1) (Dec.lit 500 1)
                           r1.2 in
    0 <= available_at 0 fresh_pair /\
    r1.1 = true /\ 0 <= available_at 0 r1.2 /\
    r2.1 = true /\ available_at 0 r2.2 = Dec.lit (-100000) 1 /\
    available_at 0 r2.2 < 0.
Proof.
  intros Decimal_sqrt.
  repeat split; try (apply Qc_is_canon); vm_compute; try reflexivity;
    discriminate.
Qed.

(** ** C7: the route to a token paired with an anchor-paired token *)



(** ** C10: the analyzer is read-only on the pools *)

Lemma calculateDerivedCapital_frame token s :
  cache_only s (calculateDerivedCapital token s).2.
Proof.
  unfold calculateDerivedCapital.
  destruct (tokens s !! token) as [t|]; [|auto with frame].
  destruct (_ && _); [|auto with frame].
  destruct (find_token s (pairedTokenId t)) as [pairedToken|];
    [|auto with frame].
  destruct (capitalCalculationMode s); [|auto with frame].
  pose proof (priceUSD_frame pairedToken ∅ s) as H.
  by destruct (priceUSD pairedToken ∅ s) as [[? ?] ?].
Qed.

#[export] Hint Resolve calculateDerivedCapital_frame : frame.

Lemma breakdown_loop_frame n :
  forall token rc dc td tc s,
    cache_only s (breakdown_loop n token rc dc td tc s).2.
Proof.
  induction n as [|n IH]; intros token rc dc td tc s; simpl;
    [auto with frame|].
  destruct (tokens s !! token) as [t|]; [|auto with frame].
  pose proof (calculateDerivedCapital_frame token s) as H.
  destruct (calculateDerivedCapital token s) as [derived s1]. simpl in H.
  destruct (calculateLiquidityDepth token s1);
    (eapply cache_only_trans; [exact H|apply IH]).
Qed.

Lemma getCapitalBreakdown_frame s : cache_only s (getCapitalBreakdown s).2.
Proof.
  unfold getCapitalBreakdown.
  pose proof (breakdown_loop_frame (length (tokens s)) 0 0 0 0 0 s) as H.
  by destruct (breakdown_loop _ _ _ _ _ _ _) as [[[[? ?] ?] ?] ?].
Qed.

Lemma impact_of_frame m token t s : cache_only s (impact_of m token t s).2.
Proof.
  unfold impact_of.
  pose proof (calculateDerivedCapital_frame token s) as H.
  by destruct (calculateDerivedCapital token s) as [derived s1].
Qed.

Lemma impacts_loop_frame n :
  forall token m s, cache_only s (impacts_loop n token m s).2.
Proof.
  induction n as [|n IH]; intros token m s; simpl; [auto with frame|].
  destruct (tokens s !! token) as [t|]; [|auto with frame].
  pose proof (impact_of_frame m token t s) as H1.
  destruct (impact_of m token t s) as [e s1]. simpl in H1.
  pose proof (IH (S token) m s1) as H2.
  destruct (impacts_loop n (S token) m s1) as [l s2]. simpl in *.
  by eapply cache_only_trans.
Qed.

Lemma calculateCascadeImpact_frame pct s :
  cache_only s (calculateCascadeImpact pct s).2.
Proof.
  unfold calculateCascadeImpact.
  pose proof (getCapitalBreakdown_frame s) as H1.
  destruct (getCapitalBreakdown s) as [b s1]. simpl in H1.
  pose proof (impacts_loop_frame (length (tokens s1)) 0
                (1 + pct / hundred) s1) as H2.
  destruct (impacts_loop _ _ _ s1) as [l s2]. simpl in *.
  by eapply cache_only_trans.
Qed.

Lemma cache_only_pools_unchanged s s' : cache_only s s' -> pools_unchanged s s'.
Proof.
  intros H. split; [by apply cache_only_length|]. split; [|apply H].
  intros i t Ht.
  destruct (cache_only_lookup _ _ _ _ H Ht) as (t' & Ht' & He).
  exists t'. split; [done|].
  apply erase_cache_fields in He. tauto.
Qed.

(** C10. [getCapitalBreakdown] and [calculateCascadeImpact] are
    read-only on the pools: after either call every pool has the
    reserves, the [k] and the LP supply it had before, and the price of
    PLS is what it was; the shocked price is only reported, as
    [newPlsPrice].  (What the calls do write are price caches, through
    [calculateTokenPriceUSD].) *)
Theorem analysis_is_read_only :
  forall (percentageChange : Decimal) (s : State),
    pools_unchanged s (getCapitalBreakdown s).2 /\
    pools_unchanged s (calculateCascadeImpact percentageChange s).2 /\
    newPlsPrice (calculateCascadeImpact percentageChange s).1
      = plsPrice s * (1 + percentageChange / hundred).
Proof.
  intros pct s. split; [|split].
  - apply cache_only_pools_unchanged, getCapitalBreakdown_frame.
  - apply cache_only_pools_unchanged, calculateCascadeImpact_frame.
  - unfold calculateCascadeImpact.
    pose proof (getCapitalBreakdown_frame s) as H1.
    destruct (getCapitalBreakdown s) as [b s1]. simpl in H1.
    destruct (impacts_loop _ _ _ s1) as [l s2]. simpl.
    by rewrite (co_plsPrice _ _ H1).
Qed.

(** ** C8: the cascade compounds with depth *)

(** *** The pairing graph does not depend on price caches *)

Lemma find_from_ids base ts :
  forall ts' i, id <$> ts = id <$> ts' -> find_from base ts i = find_from base ts' i.
Proof.
  revert base. induction ts as [|t ts IH]; intros base [|t' ts'] i E;
    try discriminate E; [done|].
  injection E as Eid E. simpl. rewrite Eid.
  case_bool_decide; [done|]. by apply IH.
Qed.

Lemma cache_only_find s s' o : cache_only s s' -> find_token s' o = find_token s o.
Proof.
  intros H. destruct o as [i|]; [|done]. simpl.
  apply find_from_ids. by apply cache_only_ids.
Qed.

Lemma cache_only_lookup_eq s s' i :
  cache_only s s' ->
  erase_cache <$> tokens s' !! i = erase_cache <$> tokens s !! i.
Proof. intros [Hp _ _ _ _ _]. by rewrite <- !list_lookup_fmap, Hp. Qed.

Lemma calculateLiquidityDepth_rec_cache s s' fuel :
  cache_only s s' ->
  forall token visited,
    calculateLiquidityDepth_rec fuel token visited s'
    = calculateLiquidityDepth_rec fuel token visited s.
Proof.
  intros H. induction fuel as [|fuel IH]; intros token visited; [done|].
  simpl. pose proof (cache_only_lookup_eq s s' token H) as E.
  destruct (tokens s' !! token) as [t'|], (tokens s !! token) as [t|];
    try discriminate E; [|done].
  apply (inj Some) in E.
  apply erase_cache_fields in E as (-> & _ & _ & _ & _ & _ & -> & ->).
  rewrite (cache_only_find _ _ _ H).
  case_bool_decide; [done|]. destruct (_ || _); [done|].
  destruct (_ && _); [|done].
  destruct (find_token s (pairedTokenId t)); [|done]. by rewrite IH.
Qed.

Lemma calculateLiquidityDepth_cache s s' token :
  cache_only s s' ->
  calculateLiquidityDepth token s' = calculateLiquidityDepth token s.
Proof.
  intros H. unfold calculateLiquidityDepth.
  by rewrite (cache_only_length _ _ H), (calculateLiquidityDepth_rec_cache _ _ _ H).
Qed.

Lemma calculateRealCapital_cache s s' t t' :
  cache_only s s' -> erase_cache t' = erase_cache t ->
  calculateRealCapital t' s' = calculateRealCapital t s.
Proof.
  intros H E. unfold calculateRealCapital.
  apply erase_cache_fields in E as (_ & _ & -> & _ & _ & _ & -> & _).
  by rewrite (co_plsPrice _ _ H).
Qed.

(** *** The entries of the impact list *)

Lemma sgn_nonzero q : q <> 0 -> Num.sgn q <> Eq.
Proof. intros Hq E. apply Hq. by apply Qceq_alt. Qed.

Lemma impact_of_compounds m token t s : compounds m (impact_of m token t s).1.
Proof.
  unfold impact_of, compounds.
  destruct (calculateDerivedCapital token s) as [derived s1]. simpl.
  intros d Hd. rewrite Hd. simpl. split; [done|].
  intros Hov. apply DecFacts.isZero_false in Hov as Hz. rewrite Hz.
  unfold Num.minus, Num.dividedBy. simpl.
  pose proof (sgn_nonzero _ Hov) as Hs.
  destruct (Num.sgn _); [done| |]; simpl; f_equal; field; done.
Qed.

Lemma impact_of_entry m s s0 i t t0 :
  cache_only s s0 -> erase_cache t0 = erase_cache t ->
  entry_of m s i t (impact_of m i t0 s0).1.
Proof.
  intros H E. split; [|split; [|split]].
  - unfold impact_of. destruct (calculateDerivedCapital i s0). simpl.
    by apply erase_cache_fields in E as (-> & _).
  - unfold impact_of. destruct (calculateDerivedCapital i s0). simpl.
    by apply calculateLiquidityDepth_cache.
  - exists s0. split; [done|]. unfold impact_of.
    destruct (calculateDerivedCapital i s0). simpl.
    by rewrite (calculateRealCapital_cache s s0 t t0).
  - apply impact_of_compounds.
Qed.

Lemma impacts_loop_entries m s n :
  forall j s0,
    cache_only s s0 ->
    forall i t,
      (j <= i < j + n)%nat -> tokens s !! i = Some t ->
      exists e, e ∈ (impacts_loop n j m s0).1 /\ entry_of m s i t e.
Proof.
  induction n as [|n IH]; intros j s0 H i t Hi Ht; [lia|].
  simpl.
  assert (is_Some (tokens s !! j)) as [tj Htj].
  { apply lookup_lt_is_Some. apply lookup_lt_Some in Ht. lia. }
  destruct (cache_only_lookup _ _ _ _ H Htj) as (tj0 & Htj0 & Ej).
  rewrite Htj0.
  pose proof (impact_of_frame m j tj0 s0) as H1.
  pose proof (impact_of_entry m s s0 j tj tj0 H Ej) as He.
  destruct (impact_of m j tj0 s0) as [e s1]. simpl in H1, He.
  assert (cache_only s s1) as Hs1 by (by eapply cache_only_trans).
  specialize (IH (S j) s1 Hs1 i t).
  destruct (impacts_loop n (S j) m s1) as [l s2]. simpl in *.
  destruct (decide (i = j)) as [->|Hne].
  - exists e. split; [apply list_elem_of_here|].
    rewrite Htj in Ht. by injection Ht as <-.
  - destruct IH as (e' & Hin & He'); [lia|done|].
    exists e'. split; [by apply list_elem_of_further|done].
Qed.

(** Sorting moves the entries, it neither drops nor invents one. *)
Lemma insert_impact_elem a l e : e ∈ insert_impact a l <-> e = a \/ e ∈ l.
Proof.
  induction l as [|b l IH]; simpl.
  - rewrite list_elem_of_singleton. set_solver.
  - destruct (impact_after a b).
    + rewrite !elem_of_cons, IH. tauto.
    + rewrite !elem_of_cons. tauto.
Qed.

Lemma sort_impacts_elem l e : e ∈ sort_impacts l <-> e ∈ l.
Proof.
  induction l as [|a l IH]; simpl; [done|].
  change (sort_impacts (a :: l)) with (insert_impact a (sort_impacts l)).
  by rewrite insert_impact_elem, IH, elem_of_cons.
Qed.

Lemma cascade_entries pct s i t :
  tokens s !! i = Some t ->
  exists e,
    e ∈ impacts (calculateCascadeImpact pct s).1 /\
    entry_of (1 + pct / hundred) s i t e.
Proof.
  intros Ht. unfold calculateCascadeImpact.
  pose proof (getCapitalBreakdown_frame s) as H1.
  destruct (getCapitalBreakdown s) as [b s1]. simpl in H1.
  destruct (impacts_loop_entries (1 + pct / hundred) s
              (length (tokens s1)) 0 s1 H1 i t) as (e & Hin & He); [|done|].
  { rewrite (cache_only_length _ _ H1). apply lookup_lt_Some in Ht. lia. }
  destruct (impacts_loop _ _ _ s1) as [l s2]. simpl in *.
  exists e. split; [by apply sort_impacts_elem|done].
Qed.

(** C8. [calculateCascadeImpact(pctChange)] reports, for every token
    of finite liquidity depth [d], the token's value (its real plus its
    derived capital) multiplied by [(1 + pctChange/100)^(d+1)], and, when
    that value is not zero, a change of [((1 + pctChange/100)^(d+1) - 1)
    * 100] percent: for a pool of depth 2 that is the cube of the
    multiplier. *)
Theorem cascade_compounds_with_depth :
  forall (pctChange : Decimal) (s : State) (i : nat) (t : Token) (d : nat),
    tokens s !! i = Some t ->
    calculateLiquidityDepth i s = Some d ->
    let m := 1 + pctChange / hundred in
    exists e,
      e ∈ impacts (calculateCascadeImpact pctChange s).1 /\
      impactTokenId e = id t /\ impactDepth e = Some d /\
      (exists si, cache_only s si /\
         originalValue e
         = calculateRealCapital t s + (calculateDerivedCapital i si).1) /\
      newValue e = Fin (originalValue e * m ^ (d + 1)) /\
      (originalValue e <> 0 ->
       changePercent e = Fin ((m ^ (d + 1) - 1) * hundred)).
Proof.
  intros pct s i t d Ht Hd m.
  destruct (cascade_entries pct s i t Ht) as (e & Hin & Hid & Hdepth & Hov & Hc).
  rewrite Hd in Hdepth.
  exists e. repeat split; try done; by apply (Hc d).
Qed.

Lemma cascade_depth_2_witness :
  exists e,
    e ∈ impacts (calculateCascadeImpact (Dec.lit 10 1) chain_X_Y_Z).1 /\
    impactTokenId e = 3%nat /\ impactDepth e = Some 2%nat /\
    (exists si, cache_only chain_X_Y_Z si /\
       originalValue e
       = calculateRealCapital pool_Z chain_X_Y_Z
         + (calculateDerivedCapital 2 si).1) /\
    newValue e = Fin (originalValue e * (1 + Dec.lit 10 1 / hundred) ^ (2 + 1)) /\
    (originalValue e <> 0 ->
     changePercent e
     = Fin (((1 + Dec.lit 10 1 / hundred) ^ (2 + 1) - 1) * hundred)).
Proof.
  apply (cascade_compounds_with_depth (Dec.lit 10 1) chain_X_Y_Z 2 pool_Z 2).
  - reflexivity.
  - vm_compute. reflexivity.
Defined.

(** +10% on the anchor: 10% at depth 0, 21% at depth 1, 33.1% at depth
    2, and the deepest pool comes first in the sorted list. *)
Example cascade_on_chain :
  let r := (calculateCascadeImpact (Dec.lit 10 1) chain_X_Y_Z).1 in
  percent_of 1 r = Some (10 # 1)%Q /\
  percent_of 2 r = Some (21 # 1)%Q /\
  percent_of 3 r = Some (331 # 10)%Q /\
  impactTokenId <$> impacts r = [3; 2; 1]%nat.
Proof. repeat split; vm_compute; reflexivity. Qed.

(** ** The other bounded recursions return *)

Lemma calculateLiquidityDepth_rec_total fuel :
  forall token visited s,
    (unvisited s visited < fuel)%nat ->
    exists d visited',
      calculateLiquidityDepth_rec fuel token visited s = Done (d, visited').
Proof.
  induction fuel as [|fuel IH]; intros token visited s Hfuel; [lia|].
  simpl. destruct (tokens s !! token) as [t|] eqn:Ht; [|eauto].
  case_bool_decide as Hvis; [eauto|].
  destruct (_ || _); [eauto|]. destruct (_ && _); [|eauto].
  destruct (find_token s (pairedTokenId t)) as [pairedToken|]; [|eauto].
  destruct (IH pairedToken (visited ∪ {[id t]}) s) as (d & v & ->); [|eauto].
  pose proof (unvisited_add s visited (id t) (ids_lookup _ _ _ Ht) Hvis). lia.
Qed.

Lemma calculateLiquidityDepth_total token s :
  exists d visited',
    calculateLiquidityDepth_rec (S (length (tokens s))) token ∅ s
    = Done (d, visited')
    /\ calculateLiquidityDepth token s = d.
Proof.
  destruct (calculateLiquidityDepth_rec_total (S (length (tokens s))) token ∅ s)
    as (d & v & E).
  { pose proof (unvisited_le s ∅). lia. }
  exists d, v. split; [done|]. unfold calculateLiquidityDepth. by rewrite E.
Qed.

Lemma calculateRealCapitalBacking_rec_total fuel :
  forall token pairedToken visited s,
    (unvisited s visited < fuel)%nat ->
    exists c visited',
      calculateRealCapitalBacking_rec fuel token pairedToken visited s
      = Done (c, visited').
Proof.
  induction fuel as [|fuel IH]; intros token pairedToken visited s Hfuel; [lia|].
  simpl. destruct (tokens s !! token) as [t|]; [|eauto].
  destruct (tokens s !! pairedToken) as [pt|] eqn:Hpt; [|eauto].
  case_bool_decide as Hvis; [eauto|].
  destruct (Dec.isZero _); [eauto|].
  destruct (pairType pt); [eauto..|].
  destruct (truthy _); [|eauto].
  destruct (find_token s (pairedTokenId pt)) as [grandparentToken|]; [|eauto].
  destruct (IH pairedToken grandparentToken (visited ∪ {[id pt]}) s)
    as (c & v & ->); [|eauto].
  pose proof (unvisited_add s visited (id pt) (ids_lookup _ _ _ Hpt) Hvis). lia.
Qed.

Lemma calculateRealCapitalBacking_total token pairedToken s :
  exists c visited',
    calculateRealCapitalBacking_rec (S (length (tokens s))) token pairedToken ∅ s
    = Done (c, visited')
    /\ calculateRealCapitalBacking token pairedToken s = c.
Proof.
  destruct (calculateRealCapitalBacking_rec_total (S (length (tokens s)))
              token pairedToken ∅ s) as (c & v & E).
  { pose proof (unvisited_le s ∅). lia. }
  exists c, v. split; [done|]. unfold calculateRealCapitalBacking. by rewrite E.
Qed.

(** The queue of [findAllPaths] never holds more than one path, and a
    path of length [n] is taken from it in the [n]-th iteration. *)
Lemma findAllPaths_loop_total s maxDepth fuel :
  forall currentPath paths,
    (maxDepth - length currentPath + 2 <= fuel)%nat ->
    findAllPaths_loop fuel maxDepth [currentPath] paths s <> Exhausted.
Proof.
  induction fuel as [|fuel IH]; intros currentPath paths Hfuel; [lia|].
  assert (forall ps, findAllPaths_loop fuel maxDepth [] ps s <> Exhausted) as Hnil.
  { intros ps. destruct fuel; [lia|done]. }
  simpl. destruct (last currentPath ≫= _) as [currentToken|]; [|done].
  destruct (_ || _); [apply Hnil|].
  case_bool_decide as Hdepth; [apply Hnil|].
  destruct (_ && _); [|apply Hnil].
  destruct (find_token s _) as [pairedToken|]; [|apply Hnil].
  destruct (negb _); [|apply Hnil].
  apply IH. rewrite length_app. simpl. lia.
Qed.

Lemma findAllPaths_total targetToken maxDepth s :
  findAllPaths targetToken maxDepth s <> Exhausted.
Proof. unfold findAllPaths. apply findAllPaths_loop_total. simpl. lia. Qed.

(** * Further properties *)

(** ** Writes to the store *)



(** ** Liquidity deposits *)

(** The state after a rejected deposit. *)
Lemma addLiquidity_rejected_state :
  forall Decimal_sqrt this tokenAmount pairAmount s s',
    addLiquidity Decimal_sqrt this tokenAmount pairAmount s = (false, s') ->
    s' = s.
Proof.
  intros sq this ta pa s s'. unfold addLiquidity.
  destruct (tokens s !! this) as [t|]; [|congruence].
  destruct (_ || _); [congruence|].
  destruct (Dec.gt ta _); [congruence|].
  destruct (if Dec.isZero (pairReserve t) && Dec.isZero (tokenReserve t)
            then false else _); [congruence|].
  destruct (match pairType t with USD => _ | WPLS => _ | TOKEN => _ end)
    as [s1|]; [|congruence].
  destruct (priceUSD _ _ _) as [[? ?] ?]. discriminate.
Qed.

(** X1. A rejected deposit changes nothing. *)
Theorem addLiquidity_rejected_unchanged :
  forall Decimal_sqrt this tokenAmount pairAmount s s',
    addLiquidity Decimal_sqrt this tokenAmount pairAmount s = (false, s') ->
    s' = s.
Proof. exact addLiquidity_rejected_state. Qed.

Lemma addLiquidity_rejected_witness :
  (addLiquidity (fun x => x) 0 0 (Dec.lit 5 1) one_pool).2 = one_pool.
Proof.
  apply (addLiquidity_rejected_unchanged (fun x => x) 0 0 (Dec.lit 5 1) one_pool).
  vm_compute. reflexivity.
Defined.

Lemma gt_false x y : Dec.gt x y = false <-> x <= y.
Proof. unfold Dec.gt. by rewrite bool_decide_eq_false, Qcle_ngt. Qed.

(** Everything but the price cache, field by field. *)
Lemma erase_cache_all_fields t t' :
  erase_cache t' = erase_cache t ->
  id t' = id t /\ name t' = name t /\ plsBalance t' = plsBalance t /\
  totalSupply t' = totalSupply t /\ totalLiquidity t' = totalLiquidity t /\
  pairType t' = pairType t /\ pairedTokenId t' = pairedTokenId t /\
  tokenReserve t' = tokenReserve t /\ pairReserve t' = pairReserve t /\
  lpTotalSupply t' = lpTotalSupply t /\ k t' = k t.
Proof.
  destruct t, t'. unfold erase_cache, set_price. simpl.
  intros [= -> -> -> -> -> -> -> -> -> -> ->]. repeat split.
Qed.

(** What an accepted deposit has checked and written. *)
Lemma addLiquidity_accepted_inv Decimal_sqrt this ta pa s s' t :
  tokens s !! this = Some t ->
  addLiquidity Decimal_sqrt this ta pa s = (true, s') ->
  0 < ta /\ 0 < pa /\ ta <= totalSupply t - tokenReserve t /\
  (pairType t = WPLS -> pa <= plsBalance t) /\
  exists s1,
    cache_only s1 s' /\
    tokens s1 =
      alter (fun t => commit_liquidity ta pa (lp_minted Decimal_sqrt t ta pa)
                        (set_plsBalance (pls_after_deposit t pa) t))
            this (tokens s) /\
    plsPrice s1 = plsPrice s /\ applySlippage s1 = applySlippage s /\
    maxRoutingHops s1 = maxRoutingHops s /\
    capitalCalculationMode s1 = capitalCalculationMode s.
Proof.
  intros Ht. unfold addLiquidity. rewrite Ht.
  destruct (_ || _) eqn:Hpos; [discriminate|].
  apply orb_false_iff in Hpos as [Hta Hpa].
  apply DecFacts.lte_false in Hta, Hpa.
  destruct (Dec.gt ta _) eqn:Hav; [discriminate|]. apply gt_false in Hav.
  destruct (if Dec.isZero (pairReserve t) && Dec.isZero (tokenReserve t)
            then false else _); [discriminate|].
  destruct (pairType t) eqn:Hpt.
  - (* USD *)
    pose proof (priceUSD_frame this ∅
      (update this (commit_liquidity ta pa
         (if Dec.isZero (pairReserve t) && Dec.isZero (tokenReserve t)
          then Decimal_sqrt (ta * pa)
          else lpTotalSupply t * (ta / tokenReserve t))) s)) as Hf.
    destruct (priceUSD _ _ _) as [[? ?] s2]. intros [= <-].
    repeat split; try done.
    eexists. split; [exact Hf|]. repeat split.
    simpl. apply list_eq. intros j.
    destruct (decide (j = this)) as [->|Hne].
    + rewrite !list_lookup_alter_eq, Ht. simpl. f_equal.
      unfold lp_minted, pls_after_deposit. rewrite Hpt. by destruct t.
    + by rewrite !list_lookup_alter_ne.
  - (* WPLS *)
    destruct (Dec.gt pa (plsBalance t)) eqn:Hpls; [discriminate|].
    apply gt_false in Hpls.
    pose proof (priceUSD_frame this ∅
      (update this (commit_liquidity ta pa
         (if Dec.isZero (pairReserve t) && Dec.isZero (tokenReserve t)
          then Decimal_sqrt (ta * pa)
          else lpTotalSupply t * (ta / tokenReserve t)))
         (update this (fun t => set_plsBalance (plsBalance t - pa) t) s))) as Hf.
    destruct (priceUSD _ _ _) as [[? ?] s2]. intros [= <-].
    repeat split; try done.
    eexists. split; [exact Hf|]. repeat split.
    simpl. apply list_eq. intros j.
    destruct (decide (j = this)) as [->|Hne].
    + rewrite !list_lookup_alter_eq, Ht. simpl. f_equal.
      unfold lp_minted, pls_after_deposit. by rewrite Hpt.
    + by rewrite !list_lookup_alter_ne.
  - (* TOKEN *)
    destruct (find_token s (pairedTokenId t)) as [pairedToken|]; [|discriminate].
    destruct (tokens s !! pairedToken) as [pt|]; [|discriminate].
    destruct (Dec.gt pa _); [discriminate|].
    pose proof (priceUSD_frame this ∅
      (update this (commit_liquidity ta pa
         (if Dec.isZero (pairReserve t) && Dec.isZero (tokenReserve t)
          then Decimal_sqrt (ta * pa)
          else lpTotalSupply t * (ta / tokenReserve t))) s)) as Hf.
    destruct (priceUSD _ _ _) as [[? ?] s2]. intros [= <-].
    repeat split; try done.
    eexists. split; [exact Hf|]. repeat split.
    simpl. apply list_eq. intros j.
    destruct (decide (j = this)) as [->|Hne].
    + rewrite !list_lookup_alter_eq, Ht. simpl. f_equal.
      unfold lp_minted, pls_after_deposit. rewrite Hpt. by destruct t.
    + by rewrite !list_lookup_alter_ne.
Qed.

(** The pool of [this] after an accepted deposit. *)
Lemma addLiquidity_accepted_pool Decimal_sqrt this ta pa s s' t :
  tokens s !! this = Some t ->
  addLiquidity Decimal_sqrt this ta pa s = (true, s') ->
  exists t',
    tokens s' !! this = Some t' /\
    erase_cache t' =
      erase_cache (commit_liquidity ta pa (lp_minted Decimal_sqrt t ta pa)
                     (set_plsBalance (pls_after_deposit t pa) t)).
Proof.
  intros Ht H.
  destruct (addLiquidity_accepted_inv _ _ _ _ _ _ _ Ht H)
    as (_ & _ & _ & _ & s1 & Hf & Htok & _).
  assert (tokens s1 !! this
          = Some (commit_liquidity ta pa (lp_minted Decimal_sqrt t ta pa)
                    (set_plsBalance (pls_after_deposit t pa) t))) as H1.
  { rewrite Htok, list_lookup_alter_eq, Ht. done. }
  destruct (cache_only_lookup _ _ _ _ Hf H1) as (t' & Ht' & E). eauto.
Qed.

(** X2. An accepted deposit has positive amounts and a token amount
    within [totalSupply - tokenReserve]; it adds exactly the two amounts
    to the reserves, sets [k] to their new product and [totalLiquidity]
    to the new pair reserve, and leaves the token reserve within the
    total supply. *)
Theorem addLiquidity_accepted_reserves :
  forall Decimal_sqrt this tokenAmount pairAmount s s' t,
    tokens s !! this = Some t ->
    addLiquidity Decimal_sqrt this tokenAmount pairAmount s = (true, s') ->
    0 < tokenAmount /\ 0 < pairAmount /\
    exists t',
      tokens s' !! this = Some t' /\
      tokenReserve t' = tokenReserve t + tokenAmount /\
      pairReserve t' = pairReserve t + pairAmount /\
      k t' = tokenReserve t' * pairReserve t' /\
      totalLiquidity t' = pairReserve t' /\
      totalSupply t' = totalSupply t /\
      tokenReserve t' <= totalSupply t'.
Proof.
  intros sq this ta pa s s' t Ht H.
  destruct (addLiquidity_accepted_inv _ _ _ _ _ _ _ Ht H)
    as (Hta & Hpa & Hav & _).
  destruct (addLiquidity_accepted_pool _ _ _ _ _ _ _ Ht H) as (t' & Ht' & E).
  split; [done|]. split; [done|]. exists t'. split; [done|].
  apply erase_cache_all_fields in E
    as (_ & _ & _ & Hts & Htl & _ & _ & Htr & Hpr & _ & Hk).
  simpl in *. rewrite Htr, Hpr, Hk, Htl, Hts. repeat split.
  apply (Qcplus_le_mono_r _ _ (tokenReserve t)) in Hav.
  replace (totalSupply t - tokenReserve t + tokenReserve t)
    with (totalSupply t) in Hav by ring.
  by rewrite (Qcplus_comm (tokenReserve t) ta).
Qed.

Lemma addLiquidity_accepted_reserves_witness :
  let r := addLiquidity (fun x => x) 0 (Dec.lit 1000 1) (Dec.lit 10 1) fresh_pair in
  0 < Dec.lit 1000 1 /\ 0 < Dec.lit 10 1 /\
  exists t',
    tokens r.2 !! 0%nat = Some t' /\
    tokenReserve t' = tokenReserve token_1 + Dec.lit 1000 1 /\
    pairReserve t' = pairReserve token_1 + Dec.lit 10 1 /\
    k t' = tokenReserve t' * pairReserve t' /\
    totalLiquidity t' = pairReserve t' /\
    totalSupply t' = totalSupply token_1 /\
    tokenReserve t' <= totalSupply t'.
Proof.
  apply (addLiquidity_accepted_reserves (fun x => x) 0 (Dec.lit 1000 1)
           (Dec.lit 10 1) fresh_pair _ token_1 eq_refl).
  vm_compute. reflexivity.
Defined.

(** X3. The LP tokens of an accepted deposit: the first deposit into an
    empty pool mints [sqrt(tokenAmount * pairAmount)]; a later one mints
    the share [tokenAmount / tokenReserve] of the LP supply, so that the
    LP supply grows by the same factor as the token reserve. *)
Theorem addLiquidity_mints_lp :
  forall Decimal_sqrt this tokenAmount pairAmount s s' t,
    tokens s !! this = Some t ->
    addLiquidity Decimal_sqrt this tokenAmount pairAmount s = (true, s') ->
    exists t',
      tokens s' !! this = Some t' /\
      (pairReserve t = 0 -> tokenReserve t = 0 ->
       lpTotalSupply t' = lpTotalSupply t + Decimal_sqrt (tokenAmount * pairAmount))
      /\ (tokenReserve t <> 0 ->
          lpTotalSupply t' * tokenReserve t = lpTotalSupply t * tokenReserve t').
Proof.
  intros sq this ta pa s s' t Ht H.
  destruct (addLiquidity_accepted_pool _ _ _ _ _ _ _ Ht H) as (t' & Ht' & E).
  exists t'. split; [done|].
  apply erase_cache_all_fields in E
    as (_ & _ & _ & _ & _ & _ & _ & Htr & _ & Hlp & _).
  simpl in *. rewrite Hlp, Htr. unfold lp_minted. split.
  - intros HP HT. apply DecFacts.isZero_true in HP, HT. by rewrite HP, HT.
  - intros HT. apply DecFacts.isZero_false in HT as Hz. rewrite Hz, andb_false_r.
    field. done.
Qed.

Lemma addLiquidity_mints_lp_witness :
  let r := addLiquidity (fun x => x) 0 (Dec.lit 1000 1) (Dec.lit 10 1) fresh_pair in
  exists t',
    tokens r.2 !! 0%nat = Some t' /\
    (pairReserve token_1 = 0 -> tokenReserve token_1 = 0 ->
     lpTotalSupply t' = lpTotalSupply token_1 + (Dec.lit 1000 1 * Dec.lit 10 1))
    /\ (tokenReserve token_1 <> 0 ->
        lpTotalSupply t' * tokenReserve token_1
        = lpTotalSupply token_1 * tokenReserve t').
Proof.
  apply (addLiquidity_mints_lp (fun x => x) 0 (Dec.lit 1000 1)
           (Dec.lit 10 1) fresh_pair _ token_1 eq_refl).
  vm_compute. reflexivity.
Defined.

(** X4. A deposit writes to one pool only: every other object keeps
    everything but its price cache, the contract's PLS is debited by the
    pair amount for a WPLS pair and untouched otherwise, and the price
    of PLS and the settings stay. *)
Theorem addLiquidity_touches_one_pool :
  forall Decimal_sqrt this tokenAmount pairAmount s s' t,
    tokens s !! this = Some t ->
    addLiquidity Decimal_sqrt this tokenAmount pairAmount s = (true, s') ->
    (forall j, j <> this ->
       erase_cache <$> tokens s' !! j = erase_cache <$> tokens s !! j) /\
    (exists t', tokens s' !! this = Some t' /\
       plsBalance t' = pls_after_deposit t pairAmount /\
       pairType t' = pairType t /\ pairedTokenId t' = pairedTokenId t /\
       id t' = id t) /\
    plsPrice s' = plsPrice s /\ applySlippage s' = applySlippage s.
Proof.
  intros sq this ta pa s s' t Ht H.
  destruct (addLiquidity_accepted_inv _ _ _ _ _ _ _ Ht H)
    as (_ & _ & _ & _ & s1 & Hf & Htok & Hpls & Hslip & _).
  split; [|split].
  - intros j Hne. rewrite (cache_only_lookup_eq _ _ j Hf), Htok.
    by rewrite list_lookup_alter_ne.
  - destruct (addLiquidity_accepted_pool _ _ _ _ _ _ _ Ht H) as (t' & Ht' & E).
    exists t'. split; [done|].
    apply erase_cache_all_fields in E
      as (Hid & _ & Hb & _ & _ & Hpt & Hpid & _).
    simpl in *. by rewrite Hid, Hb, Hpt, Hpid.
  - rewrite (co_plsPrice _ _ Hf), (co_applySlippage _ _ Hf). done.
Qed.

Lemma addLiquidity_touches_one_pool_witness :
  let r := addLiquidity (fun x => x) 0 (Dec.lit 1000 1) (Dec.lit 10 1) fresh_pair in
  (forall j, j <> 0%nat ->
     erase_cache <$> tokens r.2 !! j = erase_cache <$> tokens fresh_pair !! j) /\
  (exists t', tokens r.2 !! 0%nat = Some t' /\
     plsBalance t' = pls_after_deposit token_1 (Dec.lit 10 1) /\
     pairType t' = pairType token_1 /\
     pairedTokenId t' = pairedTokenId token_1 /\ id t' = id token_1) /\
  plsPrice r.2 = plsPrice fresh_pair /\
  applySlippage r.2 = applySlippage fresh_pair.
Proof.
  apply (addLiquidity_touches_one_pool (fun x => x) 0 (Dec.lit 1000 1)
           (Dec.lit 10 1) fresh_pair _ token_1 eq_refl).
  vm_compute. reflexivity.
Defined.

(** ** Buys *)

(** The state after a refused buy. *)
Lemma executeBuy_failure_state :
  forall this amountIn s e s',
    executeBuy this amountIn s = (BuyFailure e, s') -> s' = s.
Proof.
  intros this a s e s'. unfold executeBuy.
  destruct (tokens s !! this) as [t|]; [|congruence].
  destruct (Dec.lte a 0); [congruence|].
  destruct (_ || _); [congruence|].
  destruct (if applySlippage s then _ else _) as [[out impact]|]; [|congruence].
  destruct (priceUSD _ _ _) as [[? ?] ?]. discriminate.
Qed.

(** X5. A refused buy changes nothing. *)
Theorem executeBuy_refused_unchanged :
  forall this amountIn s e s',
    executeBuy this amountIn s = (BuyFailure e, s') -> s' = s.
Proof. exact executeBuy_failure_state. Qed.

Lemma executeBuy_refused_witness :
  (executeBuy 0 (Dec.lit (-5) 1) one_pool).2 = one_pool.
Proof.
  apply (executeBuy_refused_unchanged 0 (Dec.lit (-5) 1) one_pool
           "Amount must be positive").
  vm_compute. reflexivity.
Defined.










(** ** Quotes against executions *)





(** ** Route execution *)







(** ** Planned routes *)

Lemma abs_nonneg x : 0 <= Dec.abs x.
Proof.
  unfold Dec.abs. case_bool_decide as H.
  - apply Qclt_le_weak, Qcopp_le_compat in H. exact H.
  - by apply Qcnot_lt_le.
Qed.

Lemma multi_hop_linked s path :
  forall i prev cur tpi hops0 hops1 out tpi',
    multi_hop path i prev cur tpi hops0 s = Returns (Some (hops1, out, tpi')) ->
    exists new,
      hops1 = hops0 ++ new /\ hopToken <$> new = path /\
      linked new out /\ (path = [] -> out = cur) /\
      (i <> 0%nat -> forall h rest, new = h :: rest -> hopAmountIn h = cur) /\
      tpi <= tpi'.
Proof.
  induction path as [|tok path IH]; intros i prev cur tpi hops0 hops1 out tpi'.
  - simpl. intros [= <- <- <-]. exists []. rewrite app_nil_r.
    repeat split; done.
  - simpl. destruct (tokens s !! tok) as [token|]; [|discriminate].
    destruct (if bool_decide (i = 0%nat) then _ else _) as [inputType cur0] eqn:Hin.
    destruct (simulateSwap token cur0 inputType prev) as [[result|]| |];
      [|discriminate..].
    intros H. apply IH in H as (new & -> & Hpath & Hlinked & Hnil & Hhead & Hle).
    eexists (_ :: new). rewrite <- app_assoc. split; [reflexivity|].
    split; [by rewrite fmap_cons, Hpath|]. split; [|split; [done|split]].
    + simpl. destruct new as [|next new'].
      * simpl. symmetry. apply Hnil. by destruct path.
      * split; [|done]. by apply (Hhead ltac:(lia) next new').
    + intros Hi h rest [= <- _]. simpl.
      rewrite bool_decide_eq_false_2 in Hin by done. by injection Hin as _ <-.
    + etrans; [|exact Hle].
      rewrite <- (Qcplus_0_r tpi) at 1. apply Qcplus_le_mono_l.
      apply abs_nonneg.
Qed.

Lemma calculatePathOutput_multi tok tok2 rest a s :
  calculatePathOutput (tok :: tok2 :: rest) a s =
  match path_tokens s (tok :: tok2 :: rest) with
  | None => TypeError
  | Some objects =>
    match multi_hop (tok :: tok2 :: rest) 0 None a 0 [] s with
    | Returns (Some (hops, currentAmount, totalPriceImpact)) =>
      Returns (Some {| hops := hops; totalAmountOut := currentAmount;
                       totalPriceImpact := totalPriceImpact;
                       pathDescription := buildPathDescription objects |})
    | Returns None => Returns None
    | TypeError => TypeError
    | Exhausted => Exhausted
    end
  end.
Proof.
  unfold calculatePathOutput.
  destruct (path_tokens s (tok :: tok2 :: rest)) as [objects|]; [|done].
  by destruct objects as [|? [|? ?]].
Qed.

Lemma calculatePathOutput_single tok t a s :
  tokens s !! tok = Some t ->
  calculatePathOutput [tok] a s =
  match pairType t with
  | TOKEN =>
    Returns (Some {| hops := []; totalAmountOut := a; totalPriceImpact := 0;
                     pathDescription := buildPathDescription [t] |})
  | anchor =>
    let pairAmount := match anchor with WPLS => a / plsPrice s | _ => a end in
    match simulateSwap t pairAmount (Some anchor) None with
    | Returns (Some result) =>
      Returns (Some {| hops := [ {| hopToken := tok; hopAmountIn := a;
                                    hopAmountOut := quoteOut result;
                                    hopPriceImpact := quoteImpact result;
                                    hopPairType := anchor |} ];
                       totalAmountOut := quoteOut result;
                       totalPriceImpact := quoteImpact result;
                       pathDescription := buildPathDescription [t] |})
    | Returns None => Returns None
    | TypeError => TypeError
    | Exhausted => Exhausted
    end
  end.
Proof.
  intros Ht. unfold calculatePathOutput, path_tokens. simpl. rewrite Ht. simpl.
  destruct (pairType t); [| |done].
  - by destruct (simulateSwap t a (Some USD) None) as [[?|]| |].
  - by destruct (simulateSwap t (a / plsPrice s) (Some WPLS) None) as [[?|]| |].
Qed.

(** X11. The shape of a planned route: when [calculatePathOutput]
    returns a route for a path that starts at an anchor-paired token,
    the route has one hop per token of the path, in path order, every
    hop takes in what the hop before it puts out, and the total of the
    route is the output of the last hop. *)
Theorem planned_route_is_linked :
  forall path amountIn s route,
    starts_at_anchor s path ->
    calculatePathOutput path amountIn s = Returns (Some route) ->
    hopToken <$> hops route = path /\
    linked (hops route) (totalAmountOut route).
Proof.
  intros path a s route (tok & rest & t & -> & Ht & Hanchor).
  destruct rest as [|tok2 rest].
  - rewrite (calculatePathOutput_single tok t a s Ht).
    destruct (pairType t); [| |done]; simpl.
    + destruct (simulateSwap t a (Some USD) None) as [[result|]| |];
        [|discriminate..].
      intros [= <-]. done.
    + destruct (simulateSwap t (a / plsPrice s) (Some WPLS) None)
        as [[result|]| |]; [|discriminate..].
      intros [= <-]. done.
  - rewrite calculatePathOutput_multi.
    destruct (path_tokens s (tok :: tok2 :: rest)) as [objects|]; [|discriminate].
    destruct (multi_hop (tok :: tok2 :: rest) 0 None a 0 [] s)
      as [[[[hs out] tpi]|]| |] eqn:Hm; [|discriminate..].
    apply multi_hop_linked in Hm as (new & -> & Hpath & Hlinked & _).
    intros [= <-]. done.
Qed.

Lemma planned_route_is_linked_witness :
  exists route,
    calculatePathOutput [0; 1]%nat (Dec.lit 100 1) two_pools
      = Returns (Some route) /\
    hopToken <$> hops route = [0; 1]%nat /\
    linked (hops route) (totalAmountOut route).
Proof.
  eexists. split; [vm_compute; reflexivity|].
  apply (planned_route_is_linked [0; 1]%nat (Dec.lit 100 1) two_pools).
  - exists 0%nat, [1%nat], pool_X. repeat split. discriminate.
  - vm_compute. reflexivity.
Defined.

(** ** The best route *)




(** ** The paths of the router *)

Lemma find_from_Some base ts i j :
  find_from base ts i = Some j ->
  exists tj, ts !! (j - base)%nat = Some tj /\ id tj = i /\ (base <= j)%nat.
Proof.
  revert base. induction ts as [|t ts IH]; intros base; simpl; [done|].
  case_bool_decide as E.
  - intros [= <-]. exists t. rewrite Nat.sub_diag. done.
  - intros H. apply IH in H as (tj & Hj & Hid & Hle).
    exists tj. replace (j - base)%nat with (S (j - S base)) by lia.
    simpl. split; [done|]. split; [done|lia].
Qed.

Lemma find_token_Some s o j :
  find_token s o = Some j ->
  exists tj, tokens s !! j = Some tj /\ o = Some (id tj).
Proof.
  destruct o as [i|]; [|done]. simpl. intros H.
  apply find_from_Some in H as (tj & Hj & <- & _).
  rewrite Nat.sub_0_r in Hj. eauto.
Qed.

Lemma findAllPaths_loop_nil fuel md paths s result :
  findAllPaths_loop fuel md [] paths s = Returns result -> result = paths.
Proof. destruct fuel; [done|]. simpl. by intros [= <-]. Qed.

(** Is the id of the object at [j] among the ids of the objects of a
    path: the test [currentPath.some(t => t.id === pairedToken.id)]. *)
Lemma some_same_id s cp j :
  existsb (fun t => bool_decide (id_at s t = id_at s j)) cp = true <->
  id_at s j ∈ id_at s <$> cp.
Proof.
  rewrite existsb_exists, list_elem_of_fmap. split.
  - intros (x & Hin & E). apply bool_decide_eq_true in E.
    exists x. split; [done|]. by apply list_elem_of_In.
  - intros (x & E & Hin). exists x. split; [by apply list_elem_of_In|].
    by apply bool_decide_eq_true.
Qed.

Lemma findAllPaths_loop_shape s md fuel :
  forall cp paths result,
    findAllPaths_loop fuel md [cp] paths s = Returns result ->
    pairing_chain s (reverse cp) ->
    NoDup (id_at s <$> cp) ->
    (length cp <= Nat.max 1 md)%nat ->
    result = paths \/
    exists ext,
      result = paths ++ [reverse (cp ++ ext)] /\
      (exists a, last (cp ++ ext) = Some a /\ anchored s a) /\
      pairing_chain s (reverse (cp ++ ext)) /\
      NoDup (id_at s <$> (cp ++ ext)) /\
      (length (cp ++ ext) <= Nat.max 1 md)%nat.
Proof.
  induction fuel as [|fuel IH]; intros cp paths result; [done|].
  cbn [findAllPaths_loop].
  destruct (last cp) as [cur|] eqn:Hlast; [|done]. cbn [mbind option_bind].
  destruct (tokens s !! cur) as [t|] eqn:Ht; [|done].
  destruct (bool_decide (pairType t = USD) || bool_decide (pairType t = WPLS))
    eqn:Hanchor.
  { intros H Hchain Hnd Hlen. apply findAllPaths_loop_nil in H as ->.
    right. exists []. rewrite app_nil_r. repeat split; try done.
    exists cur. split; [done|]. exists t. split; [done|].
    intros E. rewrite E in Hanchor. done. }
  destruct (bool_decide (md <= length cp)%nat) eqn:Hdepth.
  { intros H _ _ _. apply findAllPaths_loop_nil in H. by left. }
  apply bool_decide_eq_false in Hdepth.
  destruct (bool_decide (pairType t = TOKEN) && truthy (pairedTokenId t)) eqn:Htok.
  2:{ intros H _ _ _. apply findAllPaths_loop_nil in H. by left. }
  apply andb_true_iff in Htok as [Hpt _]. apply bool_decide_eq_true in Hpt.
  destruct (find_token s (pairedTokenId t)) as [j|] eqn:Hfind.
  2:{ intros H _ _ _. apply findAllPaths_loop_nil in H. by left. }
  destruct (negb _) eqn:Hsome.
  2:{ intros H _ _ _. apply findAllPaths_loop_nil in H. by left. }
  apply negb_true_iff in Hsome.
  assert (id_at s j ∉ id_at s <$> cp) as Hfresh.
  { intros Hin. apply some_same_id in Hin. congruence. }
  intros H Hchain Hnd Hlen.
  apply IH in H as [->|(ext & -> & Ha & Hc & Hn & Hl)].
  - by left.
  - right. exists (j :: ext).
    replace (cp ++ j :: ext) with ((cp ++ [j]) ++ ext) by (by rewrite <- app_assoc).
    done.
  - rewrite reverse_app. simpl.
    destruct (reverse cp) as [|x rest] eqn:Hrev.
    + apply (f_equal reverse) in Hrev. rewrite reverse_involutive in Hrev.
      by subst cp.
    + split; [|done].
      assert (x = cur) as ->.
      { rewrite <- (reverse_involutive cp), Hrev, reverse_cons, last_snoc in Hlast.
        by injection Hlast. }
      exists t. done.
  - rewrite fmap_app. apply NoDup_app. split; [done|]. split.
    + intros x Hx. simpl. rewrite list_elem_of_singleton. by intros ->.
    + apply NoDup_singleton.
  - rewrite length_app. simpl. lia.
Qed.

(** X13. What [findAllPaths] returns: no path, or one path.  The path
    ends at the target and starts at a token paired with USD or WPLS;
    every later token of it is paired with the token before it; no two
    of its tokens have the same id; and unless it is the target alone
    it is no longer than the hop bound. *)
Theorem findAllPaths_one_chain :
  forall targetToken maxDepth s paths,
    findAllPaths targetToken maxDepth s = Returns paths ->
    paths = [] \/
    exists path,
      paths = [path] /\
      last path = Some targetToken /\
      (exists a, head path = Some a /\ anchored s a) /\
      pairing_chain s path /\
      NoDup (id_at s <$> path) /\
      (length path <= Nat.max 1 (hop_bound s maxDepth))%nat.
Proof.
  intros target md s paths H. unfold findAllPaths in H.
  apply findAllPaths_loop_shape in H as [->|(ext & -> & (a & Ha & Hanch) & Hc & Hn & Hl)].
  - by left.
  - right. eexists. split; [reflexivity|].
    split; [by rewrite reverse_app, last_app|]. 
    split.
    { exists a. split; [|done]. by rewrite head_reverse. }
    split; [done|]. split.
    { by rewrite fmap_reverse, reverse_Permutation. }
    by rewrite length_reverse.
  - done.
  - simpl. apply NoDup_singleton.
  - simpl. lia.
Qed.

Lemma findAllPaths_one_chain_witness :
  [[0; 1; 2]%nat] = [] \/
  exists path,
    [[0; 1; 2]%nat] = [path] /\
    last path = Some 2%nat /\
    (exists a, head path = Some a /\ anchored chain_X_Y_Z a) /\
    pairing_chain chain_X_Y_Z path /\
    NoDup (id_at chain_X_Y_Z <$> path) /\
    (length path <= Nat.max 1 (hop_bound chain_X_Y_Z None))%nat.
Proof.
  apply (findAllPaths_one_chain 2 None chain_X_Y_Z). vm_compute. reflexivity.
Defined.

Lemma findAllPaths_loop_done fuel md paths s :
  (0 < fuel)%nat -> findAllPaths_loop fuel md [] paths s = Returns paths.
Proof. destruct fuel; [lia|done]. Qed.

Lemma depth_decides_path s md f1 :
  forall f2 cp cur t visited dres v' paths,
    last cp = Some cur ->
    tokens s !! cur = Some t ->
    id t ∉ visited ->
    (forall i, Some i ∈ id_at s <$> cp <-> i ∈ visited ∪ {[id t]}) ->
    (md - length cp + 2 <= f2)%nat ->
    calculateLiquidityDepth_rec f1 cur visited s = Done (dres, v') ->
    exists result,
      findAllPaths_loop f2 md [cp] paths s = Returns result /\
      match dres with
      | Some d =>
        if decide (d = 0 \/ length cp + d <= md)%nat
        then exists p, result = paths ++ [p] /\ length p = (length cp + d)%nat
        else result = paths
      | None => result = paths
      end.
Proof.
  induction f1 as [|f1 IH];
    intros f2 cp cur t visited dres v' paths Hlast Ht Hfresh Hids Hfuel; [done|].
  destruct f2 as [|f2]; [lia|].
  cbn [calculateLiquidityDepth_rec findAllPaths_loop].
  rewrite Hlast. cbn [mbind option_bind]. rewrite Ht.
  rewrite bool_decide_eq_false_2 by done.
  destruct (bool_decide (pairType t = USD) || bool_decide (pairType t = WPLS))
    eqn:Hanchor.
  { intros [= <- <-]. eexists. split; [apply findAllPaths_loop_done; lia|].
    rewrite decide_True by (by left).
    eexists. split; [done|]. rewrite length_reverse. lia. }
  destruct (bool_decide (md <= length cp)%nat) eqn:Hdepth.
  { apply bool_decide_eq_true in Hdepth.
    intros H. eexists. split; [apply findAllPaths_loop_done; lia|].
    destruct (bool_decide (pairType t = TOKEN) && truthy (pairedTokenId t));
      [|by injection H as <- <-].
    destruct (find_token s (pairedTokenId t)) as [j|]; [|by injection H as <- <-].
    destruct (calculateLiquidityDepth_rec f1 j _ s) as [[d v]|]; [|done].
    injection H as <- <-. destruct d as [d|]; [|done]. simpl.
    rewrite decide_False by lia. done. }
  apply bool_decide_eq_false in Hdepth.
  destruct (bool_decide (pairType t = TOKEN) && truthy (pairedTokenId t)).
  2:{ intros [= <- <-]. eexists. split; [apply findAllPaths_loop_done; lia|done]. }
  destruct (find_token s (pairedTokenId t)) as [j|] eqn:Hfind.
  2:{ intros [= <- <-]. eexists. split; [apply findAllPaths_loop_done; lia|done]. }
  destruct (find_token_Some _ _ _ Hfind) as (tj & Hj & _).
  assert (id_at s j = Some (id tj)) as Hidj by (unfold id_at; by rewrite Hj).
  destruct (calculateLiquidityDepth_rec f1 j (visited ∪ {[id t]}) s)
    as [[d v]|] eqn:Hrec; [|done].
  intros [= <- <-].
  destruct (existsb _ cp) eqn:Hsome; cbn [negb].
  - (* the paired token is on the path already *)
    apply some_same_id in Hsome. rewrite Hidj in Hsome. apply Hids in Hsome.
    eexists. split; [apply findAllPaths_loop_done; lia|].
    destruct f1 as [|f1]; [done|]. cbn [calculateLiquidityDepth_rec] in Hrec.
    rewrite Hj, bool_decide_eq_true_2 in Hrec by done.
    by injection Hrec as <- <-.
  - assert (id tj ∉ visited ∪ {[id t]}) as Hfreshj.
    { intros Hin. apply Hids in Hin. rewrite <- Hidj in Hin.
      apply some_same_id in Hin. congruence. }
    destruct (IH f2 (cp ++ [j]) j tj (visited ∪ {[id t]}) d v paths)
      as (result & Hres & Hd); try done.
    + by rewrite last_snoc.
    + intros i. rewrite fmap_app, elem_of_app, Hids. simpl.
      rewrite list_elem_of_singleton, Hidj. set_solver.
    + rewrite length_app. simpl. lia.
    + exists result. split; [done|].
      destruct d as [d|]; [|done]. simpl.
      rewrite length_app in Hd. simpl in Hd.
      destruct (decide (d = 0 \/ length cp + 1 + d <= md)%nat) as [Hyes|Hno].
      * rewrite decide_True by lia.
        destruct Hd as (p & -> & Hlen). exists p. split; [done|lia].
      * rewrite decide_False by lia. done.
Qed.

(** X14. The router and the depth analysis agree.  For a token of the
    store [findAllPaths] returns (it neither throws nor runs on); it
    finds a path exactly when the liquidity depth of the token is finite
    and either 0 or below the hop bound, and then the path has one token
    more than the depth. *)
Theorem findAllPaths_follows_depth :
  forall targetToken t maxDepth s,
    tokens s !! targetToken = Some t ->
    exists paths,
      findAllPaths targetToken maxDepth s = Returns paths /\
      match calculateLiquidityDepth targetToken s with
      | Some d =>
        if decide (d = 0 \/ d < hop_bound s maxDepth)%nat
        then exists path, paths = [path] /\ length path = S d
        else paths = []
      | None => paths = []
      end.
Proof.
  intros target t md s Ht.
  destruct (calculateLiquidityDepth_total target s) as (d & v & Hrec & ->).
  destruct (depth_decides_path s (hop_bound s md) (S (length (tokens s)))
              (S (S (hop_bound s md)))
              [target] target t ∅ d v [] eq_refl Ht) as (paths & Hp & Hd);
    [set_solver| |simpl; lia|exact Hrec|].
  { intros i. simpl. rewrite list_elem_of_singleton. unfold id_at. rewrite Ht.
    simpl. set_solver. }
  exists paths. split; [exact Hp|].
  destruct d as [d|]; [|done]. simpl in Hd.
  destruct (decide (d = 0 \/ S d <= hop_bound s md)%nat).
  - rewrite decide_True by lia. done.
  - rewrite decide_False by lia. done.
Qed.

Lemma findAllPaths_follows_depth_witness :
  exists paths,
    findAllPaths 2 None chain_X_Y_Z = Returns paths /\
    match calculateLiquidityDepth 2 chain_X_Y_Z with
    | Some d =>
      if decide (d = 0 \/ d < hop_bound chain_X_Y_Z None)%nat
      then exists path, paths = [path] /\ length path = S d
      else paths = []
    | None => paths = []
    end.
Proof.
  assert (tokens chain_X_Y_Z !! 2%nat = Some pool_Z) as Ht by reflexivity.
  exact (findAllPaths_follows_depth 2 pool_Z None chain_X_Y_Z Ht).
Defined.

(** ** The price update *)

(** What a call of the resolver does to [visited] and to the console:
    the id of its token is in [visited] afterwards, and it logs no line
    but circular-price warnings. *)
Lemma calculateTokenPriceUSD_rec_visits fuel :
  forall this visited s p visited' s',
    calculateTokenPriceUSD_rec fuel this visited s = Done (p, visited', s') ->
    visited ⊆ visited' /\
    (forall t, tokens s !! this = Some t -> id t ∈ visited') /\
    exists w, logged s s' w /\ MaxIterations ∉ w.
Proof.
  unfold logged.
  induction fuel as [|fuel IH]; intros this visited s p visited' s'; [done|].
  cbn [calculateTokenPriceUSD_rec].
  destruct (tokens s !! this) as [t|] eqn:Ht.
  2:{ intros [= <- <- <-]. split; [done|]. split; [done|].
      exists []. rewrite app_nil_r. split; [done|]. apply not_elem_of_nil. }
  destruct (bool_decide (id t ∈ visited)) eqn:Hvis.
  { apply bool_decide_eq_true in Hvis. intros [= <- <- <-].
    split; [done|]. split; [by intros ? [= <-]|].
    exists [CircularPrice (id t)]. split; [done|].
    rewrite list_elem_of_singleton. done. }
  assert (forall v : gset nat, visited ∪ {[id t]} ⊆ v ->
            visited ⊆ v /\ (forall t0, Some t = Some t0 -> id t0 ∈ v)) as Hv.
  { intros v Hsub. split; [set_solver|]. intros ? [= <-]. set_solver. }
  assert (exists w : list Warning,
             console s = console s ++ w /\ MaxIterations ∉ w) as Hquiet.
  { exists []. rewrite app_nil_r. split; [done|]. apply not_elem_of_nil. }
  cbn [Date_now].
  destruct (_ && _).
  { intros [= <- <- <-]. destruct (Hv _ (reflexivity _)). done. }
  destruct (_ || _).
  { intros [= <- <- <-]. destruct (Hv _ (reflexivity _)). done. }
  destruct (pairType t).
  1,2: intros [= <- <- <-]; destruct (Hv _ (reflexivity _)); done.
  destruct (find_token _ (pairedTokenId t)) as [pairedToken|].
  2:{ intros [= <- <- <-]. destruct (Hv _ (reflexivity _)). done. }
  destruct (calculateTokenPriceUSD_rec fuel pairedToken _ _)
    as [[[p2 v2] s2]|] eqn:Hrec; [|done].
  intros [= <- <- <-].
  apply IH in Hrec as (Hsub & _ & w & Hw & Hno).
  destruct (Hv _ Hsub). split; [done|]. split; [done|].
  exists w. done.
Qed.

Lemma priceUSD_visits this visited s :
  visited ⊆ (priceUSD this visited s).1.2 /\
  (forall t, tokens s !! this = Some t -> id t ∈ (priceUSD this visited s).1.2) /\
  exists w, logged s (priceUSD this visited s).2 w /\ MaxIterations ∉ w.
Proof.
  destruct (priceUSD_spec this visited s) as [E _].
  destruct (priceUSD this visited s) as [[p v] s'].
  by apply calculateTokenPriceUSD_rec_visits in E.
Qed.

(** A call on a token whose id is in [visited] already: 0, one warning,
    and no write to any token. *)
Lemma priceUSD_visited this visited s t :
  tokens s !! this = Some t -> id t ∈ visited ->
  priceUSD this visited s = (0, visited, console_warn (CircularPrice (id t)) s).
Proof.
  intros Ht Hin. unfold priceUSD, calculateTokenPriceUSD.
  cbn [calculateTokenPriceUSD_rec]. rewrite Ht.
  by rewrite bool_decide_eq_true_2.
Qed.

Lemma price_changed_same p : price_changed p p = false.
Proof.
  unfold price_changed. destruct (Dec.isZero p) eqn:E; [done|]. simpl.
  replace (p - p) with 0 by ring.
  unfold Dec.gt, Dec.abs. apply bool_decide_eq_false_2.
  rewrite bool_decide_eq_false_2 by (by vm_compute).
  unfold Qcdiv. rewrite Qcmult_0_l. by vm_compute.
Qed.

Lemma filter_from_lookup p ts :
  forall base i, i ∈ filter_from base p ts ->
    exists t, ts !! (i - base)%nat = Some t /\ pairType t = p /\ (base <= i)%nat.
Proof.
  induction ts as [|t ts IH]; intros base i; simpl.
  { intros H. by apply elem_of_nil in H. }
  assert (i ∈ filter_from (S base) p ts ->
          exists t0, (t :: ts) !! (i - base)%nat = Some t0 /\ pairType t0 = p /\
                     (base <= i)%nat) as Hrest.
  { intros H. apply IH in H as (t0 & Ht0 & Hp & Hle). exists t0.
    replace (i - base)%nat with (S (i - S base)) by lia.
    split; [done|]. split; [done|lia]. }
  case_bool_decide as Hp; [|done].
  rewrite elem_of_cons. intros [->|H]; [|by apply Hrest].
  exists t. rewrite Nat.sub_diag. done.
Qed.

Lemma tokens_paired_lookup p s i :
  i ∈ tokens_paired p s -> exists t, tokens s !! i = Some t /\ pairType t = p.
Proof.
  intros H. apply filter_from_lookup in H as (t & Ht & Hp & _).
  rewrite Nat.sub_0_r in Ht. eauto.
Qed.

Lemma filter_from_pair_types p ts :
  forall ts' base, pairType <$> ts = pairType <$> ts' ->
    filter_from base p ts = filter_from base p ts'.
Proof.
  induction ts as [|t ts IH]; intros [|t' ts'] base E; try discriminate E; [done|].
  injection E as Ept E. simpl. rewrite Ept, (IH ts' (S base) E). done.
Qed.

Lemma cache_only_tokens_paired p s s' :
  cache_only s s' -> tokens_paired p s' = tokens_paired p s.
Proof.
  intros [Hp _ _ _ _ _]. apply filter_from_pair_types.
  assert (forall l : list Token, pairType <$> l = pairType <$> (erase_cache <$> l)) as E.
  { intros l. rewrite <- list_fmap_compose. done. }
  rewrite (E (tokens s')), (E (tokens s)). by rewrite Hp.
Qed.

Lemma cache_only_id s s' i t :
  cache_only s s' -> tokens s !! i = Some t ->
  exists t', tokens s' !! i = Some t' /\ id t' = id t.
Proof.
  intros H Ht. destruct (cache_only_lookup _ _ _ _ H Ht) as (t' & Ht' & E).
  exists t'. split; [done|]. by apply erase_cache_fields in E as [? _].
Qed.

Lemma logged_trans s1 s2 s3 w1 w2 :
  logged s1 s2 w1 -> logged s2 s3 w2 -> logged s1 s3 (w1 ++ w2).
Proof. unfold logged. intros E1 E2. by rewrite E2, E1, app_assoc. Qed.

Lemma wpls_pass_spec l :
  forall visited s,
    cache_only s (wpls_pass l visited s).2 /\
    exists w, logged s (wpls_pass l visited s).2 w /\ MaxIterations ∉ w.
Proof.
  induction l as [|token l IH]; intros visited s; simpl.
  { split; [apply cache_only_refl|]. exists []. unfold logged.
    rewrite app_nil_r. split; [done|]. apply not_elem_of_nil. }
  pose proof (priceUSD_frame token visited s) as Hf.
  destruct (priceUSD_visits token visited s) as (_ & _ & w1 & Hw1 & Hno1).
  destruct (priceUSD token visited s) as [[p v1] s1]. simpl in *.
  destruct (IH v1 s1) as (Hf2 & w2 & Hw2 & Hno2).
  split; [by eapply cache_only_trans|].
  exists (w1 ++ w2). split; [by eapply logged_trans|].
  rewrite elem_of_app. tauto.
Qed.

(** One pass over the token-paired tokens: caches only, and the ids of
    all its tokens are in [visited] afterwards. *)
Lemma token_pass_spec l :
  forall updated visited s,
    cache_only s (token_pass l updated visited s).2 /\
    visited ⊆ (token_pass l updated visited s).1.2 /\
    (forall i t, i ∈ l -> tokens s !! i = Some t ->
                 id t ∈ (token_pass l updated visited s).1.2) /\
    exists w, logged s (token_pass l updated visited s).2 w /\ MaxIterations ∉ w.
Proof.
  induction l as [|token l IH]; intros updated visited s; simpl.
  { split; [apply cache_only_refl|]. split; [done|].
    split; [intros i t H; by apply elem_of_nil in H|].
    exists []. unfold logged. rewrite app_nil_r. split; [done|].
    apply not_elem_of_nil. }
  pose proof (priceUSD_frame token visited s) as Hf.
  destruct (priceUSD_visits token visited s) as (Hsub & Hin & w1 & Hw1 & Hno1).
  destruct (priceUSD token visited s) as [[p v1] s1]. simpl in *.
  destruct (IH (updated || price_changed (cached_price s token)
                                          (cached_price s1 token)) v1 s1)
    as (Hf2 & Hsub2 & Hin2 & w2 & Hw2 & Hno2).
  split; [by eapply cache_only_trans|].
  split; [set_solver|]. split.
  - intros i t Hi Ht. apply elem_of_cons in Hi as [->|Hi].
    + apply Hsub2. by apply Hin.
    + destruct (cache_only_id _ _ _ _ Hf Ht) as (t' & Ht' & <-).
      by eapply Hin2.
  - exists (w1 ++ w2). split; [by eapply logged_trans|].
    rewrite elem_of_app. tauto.
Qed.

(** A pass over tokens whose ids are all in [visited] writes no price
    and reports no change. *)
Lemma token_pass_idle l :
  forall updated visited s,
    (forall i, i ∈ l -> exists t, tokens s !! i = Some t /\ id t ∈ visited) ->
    (token_pass l updated visited s).1 = (updated, visited) /\
    tokens (token_pass l updated visited s).2 = tokens s.
Proof.
  induction l as [|token l IH]; intros updated visited s Hall; simpl; [done|].
  destruct (Hall token) as (t & Ht & Hin); [apply list_elem_of_here|].
  rewrite (priceUSD_visited _ _ _ _ Ht Hin).
  assert (cached_price (console_warn (CircularPrice (id t)) s) token
          = cached_price s token) as -> by done.
  rewrite price_changed_same, orb_false_r.
  destruct (IH updated visited (console_warn (CircularPrice (id t)) s))
    as [-> ->]; [|done].
  intros i Hi. apply Hall. by apply list_elem_of_further.
Qed.

Lemma price_loop_spec visited s :
  ((price_loop maxIterations true 0 visited s).1.1 <= 2)%nat /\
  cache_only s (price_loop maxIterations true 0 visited s).2 /\
  exists w, logged s (price_loop maxIterations true 0 visited s).2 w /\
            MaxIterations ∉ w.
Proof.
  unfold maxIterations. cbn [price_loop].
  destruct (token_pass_spec (tokens_paired TOKEN s) false visited s)
    as (Hf1 & _ & Hin1 & w1 & Hw1 & Hno1).
  destruct (token_pass (tokens_paired TOKEN s) false visited s)
    as [[updated v1] s1]. simpl in *.
  destruct updated; [|split; [simpl; lia|]; split; [done|]; by exists w1].
  rewrite (cache_only_tokens_paired _ _ _ Hf1).
  destruct (token_pass_idle (tokens_paired TOKEN s) false v1 s1) as [E Etok].
  { intros i Hi. destruct (tokens_paired_lookup _ _ _ Hi) as (t & Ht & _).
    destruct (cache_only_id _ _ _ _ Hf1 Ht) as (t' & Ht' & Hid).
    exists t'. split; [done|]. rewrite Hid. by eapply Hin1. }
  destruct (token_pass_spec (tokens_paired TOKEN s) false v1 s1)
    as (Hf2 & _ & _ & w2 & Hw2 & Hno2).
  destruct (token_pass (tokens_paired TOKEN s) false v1 s1)
    as [[updated v2] s2]. simpl in *.
  injection E as -> ->. simpl.
  split; [lia|]. split; [by eapply cache_only_trans|].
  exists (w1 ++ w2). split; [by eapply logged_trans|].
  rewrite elem_of_app. tauto.
Qed.

(** X15. [updateAllTokenPrices] writes nothing but price caches (and
    reads the clock and logs): every pool of the store, the PLS price
    and the settings are as before. *)
Theorem updateAllTokenPrices_writes_caches_only :
  forall s, cache_only s (updateAllTokenPrices s).
Proof.
  intros s. unfold updateAllTokenPrices.
  destruct (wpls_pass_spec (tokens_paired WPLS s) ∅ s) as (Hf1 & _).
  destruct (wpls_pass (tokens_paired WPLS s) ∅ s) as [v1 s1]. simpl in Hf1.
  destruct (price_loop_spec v1 s1) as (_ & Hf2 & _).
  destruct (price_loop maxIterations true 0 v1 s1) as [[iteration v2] s2].
  simpl in Hf1, Hf2.
  destruct (bool_decide (maxIterations <= iteration)%nat).
  - eapply cache_only_trans; [exact Hf1|].
    eapply cache_only_trans; [exact Hf2|]. apply cache_only_warn.
  - by eapply cache_only_trans.
Qed.

(** X16. The loop of [updateAllTokenPrices] makes at most two passes:
    after the first pass the id of every token-paired token is in the
    shared [visited], so the second pass changes no price.  The bound of
    10 iterations is never reached and its warning is never logged. *)
Theorem updateAllTokenPrices_two_passes :
  forall s,
    (passes_of_update s <= 2)%nat /\
    exists w, logged s (updateAllTokenPrices s) w /\ MaxIterations ∉ w.
Proof.
  intros s. unfold passes_of_update, updateAllTokenPrices.
  destruct (wpls_pass_spec (tokens_paired WPLS s) ∅ s) as (_ & w1 & Hw1 & Hno1).
  destruct (wpls_pass (tokens_paired WPLS s) ∅ s) as [v1 s1]. simpl in Hw1.
  destruct (price_loop_spec v1 s1) as (Hle & _ & w2 & Hw2 & Hno2).
  destruct (price_loop maxIterations true 0 v1 s1) as [[iteration v2] s2].
  simpl in Hle, Hw1, Hw2. split; [done|].
  rewrite bool_decide_eq_false_2 by (unfold maxIterations; lia).
  exists (w1 ++ w2). split; [by eapply logged_trans|].
  rewrite elem_of_app. tauto.
Qed.

(** ** The price after a buy *)




(** ** The capital breakdown *)

Lemma breakdown_loop_real s0 n :
  forall token rc dc td tc s,
    cache_only s0 s ->
    (breakdown_loop n token rc dc td tc s).1.1.1.1 =
    rc + sum_of (fun t => calculateRealCapital t s0)
                (take n (drop token (tokens s0))).
Proof.
  induction n as [|n IH]; intros token rc dc td tc s H.
  { simpl. by rewrite Qcplus_0_r. }
  cbn [breakdown_loop].
  destruct (tokens s !! token) as [t|] eqn:Ht.
  - destruct (tokens s0 !! token) as [t0|] eqn:Ht0.
    2:{ apply lookup_lt_Some in Ht. apply lookup_ge_None in Ht0.
        rewrite (cache_only_length _ _ H) in Ht. lia. }
    destruct (cache_only_lookup _ _ _ _ H Ht0) as (t' & Ht' & E).
    assert (t' = t) as -> by congruence.
    rewrite (calculateRealCapital_cache s0 s t0 t H E).
    pose proof (calculateDerivedCapital_frame token s) as Hd.
    destruct (calculateDerivedCapital token s) as [derived s1]. simpl in Hd.
    assert (cache_only s0 s1) as H1 by (by eapply cache_only_trans).
    rewrite (drop_S _ _ _ Ht0). cbn [take sum_of foldr].
    destruct (calculateLiquidityDepth token s1); rewrite (IH _ _ _ _ _ _ H1);
      unfold sum_of; ring.
  - apply lookup_ge_None in Ht. rewrite (cache_only_length _ _ H) in Ht.
    rewrite drop_ge by done. rewrite take_nil. simpl. by rewrite Qcplus_0_r.
Qed.

(** X18. The real capital of the breakdown is the sum, over the tokens
    of the store, of [calculateRealCapital]: the pair reserve of every
    pool paired with USD, and the pair reserve times the PLS price of
    every pool paired with WPLS.  No token pair and no cached price
    enters it, although the loop refreshes caches on its way. *)
Theorem getCapitalBreakdown_real_capital :
  forall s,
    realCapital (getCapitalBreakdown s).1 =
    sum_of (fun t => calculateRealCapital t s) (tokens s).
Proof.
  intros s. unfold getCapitalBreakdown.
  pose proof (breakdown_loop_real s (length (tokens s)) 0 0 0 0 0 s
                                  (cache_only_refl s)) as H.
  destruct (breakdown_loop _ _ _ _ _ _ _) as [[[[rc dc] td] tc] s1].
  simpl in *. rewrite H, drop_0, firstn_all. ring.
Qed.

(** ** Capital backing *)

Lemma share_bound r p B : 0 <= r -> r <= B -> 0 <= p -> p <= 1 ->
  0 <= r * p /\ r * p <= B.
Proof.
  intros Hr HB Hp Hp1. split; [by apply Qcmult_nonneg_nonneg|].
  etrans; [|exact HB].
  rewrite <- (Qcmult_1_r r) at 2. by apply Qcmult_le_mono_nonneg_l.
Qed.

Lemma ratio_bound x T : 0 <= x -> x <= T -> T <> 0 -> 0 <= x / T /\ x / T <= 1.
Proof.
  intros Hx HT Hne.
  assert (0 < T) as Hpos.
  { destruct (Qcle_lt_or_eq _ _ (transitivity Hx HT)) as [H|H]; [done|].
    by destruct Hne. }
  assert (0 <= / T) as Hinv by (apply Qclt_le_weak; by apply Qcinv_pos).
  split; [by apply Qcmult_nonneg_nonneg|].
  replace 1 with (T / T) by (field; done).
  by apply Qcmult_le_mono_nonneg_r.
Qed.

Lemma calculateRealCapital_nonneg t s :
  0 <= pairReserve t -> 0 <= plsPrice s -> 0 <= calculateRealCapital t s.
Proof.
  intros HP Hpls. unfold calculateRealCapital.
  destruct (negb _); [|done].
  destruct (pairType t); [done| |done]. by apply Qcmult_nonneg_nonneg.
Qed.

Lemma calculateRealCapitalBacking_rec_bound s B :
  reserves_nonneg s -> supply_respected s -> bounds_real_capital s B ->
  0 <= B ->
  forall fuel token pairedToken visited t c visited',
    tokens s !! token = Some t ->
    pairType t = TOKEN ->
    find_token s (pairedTokenId t) = Some pairedToken ->
    calculateRealCapitalBacking_rec fuel token pairedToken visited s
      = Done (c, visited') ->
    0 <= c /\ c <= B.
Proof.
  intros [Hnn Hpls] Hsup Hbound HB.
  induction fuel as [|fuel IH];
    intros token pairedToken visited t c visited' Ht Hpt Hfind; [done|].
  cbn [calculateRealCapitalBacking_rec]. rewrite Ht.
  destruct (find_token_Some _ _ _ Hfind) as (pt & Hptok & _). rewrite Hptok.
  destruct (bool_decide (id pt ∈ visited)); [by intros [= <- _]|].
  destruct (Dec.isZero (totalSupply pt)) eqn:Hz; [by intros [= <- _]|].
  apply DecFacts.isZero_false in Hz.
  assert (0 <= pairReserve t / totalSupply pt /\
          pairReserve t / totalSupply pt <= 1) as [Hp Hp1].
  { apply ratio_bound; [| |done].
    - rewrite Forall_forall in Hnn. apply Hnn.
      by eapply list_elem_of_lookup_2.
    - unfold supply_respected in Hsup. rewrite Forall_forall in Hsup.
      pose proof (Hsup t (list_elem_of_lookup_2 _ _ _ Ht)) as H.
      rewrite Hfind in H. simpl in H. rewrite Hptok in H. by apply H. }
  assert (0 <= pairReserve pt) as HPpt.
  { rewrite Forall_forall in Hnn. apply Hnn. by eapply list_elem_of_lookup_2. }
  assert (calculateRealCapital pt s <= B) as Hreal.
  { unfold bounds_real_capital in Hbound. rewrite Forall_forall in Hbound.
    apply Hbound. by eapply list_elem_of_lookup_2. }
  unfold calculateRealCapital in Hreal.
  destruct (pairType pt) eqn:Hptt.
  - intros [= <- _]. apply share_bound; try done.
    destruct (Dec.isZero (pairReserve pt)) eqn:E; [|done].
    apply DecFacts.isZero_true in E. by rewrite E.
  - intros [= <- _]. apply share_bound; try done.
    + by apply Qcmult_nonneg_nonneg.
    + destruct (Dec.isZero (pairReserve pt)) eqn:E; [|done].
      apply DecFacts.isZero_true in E. rewrite E. by rewrite Qcmult_0_l.
  - destruct (truthy (pairedTokenId pt)).
    2:{ intros [= <- _]. rewrite Qcmult_0_l. done. }
    destruct (find_token s (pairedTokenId pt)) as [gp|] eqn:Hgp.
    2:{ intros [= <- _]. rewrite Qcmult_0_l. done. }
    destruct (calculateRealCapitalBacking_rec fuel pairedToken gp _ s)
      as [[r v]|] eqn:Hrec; [|done].
    intros [= <- _].
    destruct (IH _ _ _ _ _ _ Hptok Hptt Hgp Hrec) as [Hr HrB].
    by apply share_bound.
Qed.

(** X19. The backing method never reports more than real capital.  In
    a store where no pair reserve and no PLS price is negative and no
    pool holds more of its pair token than that token has supply, the
    capital backing of a token paired with a token lies between 0 and
    any bound on the real capital of the single pools. *)
Theorem backing_within_real_capital :
  forall s B token t pairedToken,
    reserves_nonneg s -> supply_respected s -> bounds_real_capital s B ->
    tokens s !! token = Some t ->
    pairType t = TOKEN ->
    find_token s (pairedTokenId t) = Some pairedToken ->
    0 <= calculateRealCapitalBacking token pairedToken s /\
    calculateRealCapitalBacking token pairedToken s <= B.
Proof.
  intros s B token t pairedToken Hnn Hsup Hbound Ht Hpt Hfind.
  assert (0 <= B) as HB.
  { destruct Hnn as [Hnn Hpls]. unfold bounds_real_capital in Hbound.
    rewrite Forall_forall in Hbound, Hnn.
    pose proof (list_elem_of_lookup_2 _ _ _ Ht) as Hin.
    etrans; [|exact (Hbound t Hin)].
    apply calculateRealCapital_nonneg; [by apply Hnn|done]. }
  unfold calculateRealCapitalBacking.
  destruct (calculateRealCapitalBacking_rec _ token pairedToken ∅ s)
    as [[c v]|] eqn:E; [|done].
  by eapply calculateRealCapitalBacking_rec_bound.
Qed.

Lemma backing_within_real_capital_witness :
  0 <= calculateRealCapitalBacking 2 1 chain_X_Y_Z /\
  calculateRealCapitalBacking 2 1 chain_X_Y_Z <= Dec.lit 1000 1.
Proof.
  apply (backing_within_real_capital chain_X_Y_Z (Dec.lit 1000 1) 2 pool_Z 1).
  - split; [|by vm_compute]. repeat constructor; by vm_compute.
  - repeat constructor; by vm_compute.
  - repeat constructor; by vm_compute.
  - reflexivity.
  - reflexivity.
  - reflexivity.
Defined.

(** ** The analysis in backing mode *)

Lemma calculateDerivedCapital_backing token s :
  capitalCalculationMode s = backing -> (calculateDerivedCapital token s).2 = s.
Proof.
  intros Hm. unfold calculateDerivedCapital.
  destruct (tokens s !! token) as [t|]; [|done].
  destruct (_ && _); [|done].
  destruct (find_token s (pairedTokenId t)); [|done].
  by rewrite Hm.
Qed.

Lemma breakdown_loop_backing s n :
  capitalCalculationMode s = backing ->
  forall token rc dc td tc, (breakdown_loop n token rc dc td tc s).2 = s.
Proof.
  intros Hm. induction n as [|n IH]; intros token rc dc td tc; [done|].
  cbn [breakdown_loop]. destruct (tokens s !! token) as [t|]; [|done].
  pose proof (calculateDerivedCapital_backing token s Hm) as E.
  destruct (calculateDerivedCapital token s) as [derived s1]. simpl in E.
  subst s1. destruct (calculateLiquidityDepth token s); apply IH.
Qed.

Lemma impacts_loop_backing s m n :
  capitalCalculationMode s = backing ->
  forall token, (impacts_loop n token m s).2 = s.
Proof.
  intros Hm. induction n as [|n IH]; intros token; [done|].
  cbn [impacts_loop]. destruct (tokens s !! token) as [t|]; [|done].
  unfold impact_of.
  pose proof (calculateDerivedCapital_backing token s Hm) as E.
  destruct (calculateDerivedCapital token s) as [derived s1]. simpl in E.
  subst s1. specialize (IH (S token)).
  destruct (impacts_loop n (S token) m s) as [l s2]. done.
Qed.

(** X20. In backing mode the analysis is pure: [getCapitalBreakdown]
    and [calculateCascadeImpact] leave the whole state as it is, price
    caches, clock and console included; no price is resolved. *)
Theorem backing_analysis_is_pure :
  forall s percentageChange,
    capitalCalculationMode s = backing ->
    (getCapitalBreakdown s).2 = s /\
    (calculateCascadeImpact percentageChange s).2 = s.
Proof.
  intros s pct Hm.
  assert ((getCapitalBreakdown s).2 = s) as Hb.
  { unfold getCapitalBreakdown.
    pose proof (breakdown_loop_backing s (length (tokens s)) Hm 0 0 0 0 0) as E.
    by destruct (breakdown_loop _ _ _ _ _ _ _) as [[[[rc dc] td] tc] s1]. }
  split; [done|].
  unfold calculateCascadeImpact.
  destruct (getCapitalBreakdown s) as [b s1]. simpl in Hb. subst s1.
  pose proof (impacts_loop_backing s (1 + pct / hundred) (length (tokens s)) Hm 0)
    as E.
  by destruct (impacts_loop _ _ _ _) as [l s2].
Qed.

Lemma backing_analysis_is_pure_witness :
  (getCapitalBreakdown (in_backing_mode chain_X_Y_Z)).2
    = in_backing_mode chain_X_Y_Z /\
  (calculateCascadeImpact (Dec.lit 10 1) (in_backing_mode chain_X_Y_Z)).2
    = in_backing_mode chain_X_Y_Z.
Proof.
  apply (backing_analysis_is_pure (in_backing_mode chain_X_Y_Z) (Dec.lit 10 1)).
  reflexivity.
Defined.

(** ** The impact list *)

Lemma insert_impact_perm a l : insert_impact a l ≡ₚ a :: l.
Proof.
  induction l as [|b l IH]; simpl; [done|].
  destruct (impact_after a b); [|done].
  rewrite IH. apply Permutation_swap.
Qed.

Lemma sort_impacts_perm l : sort_impacts l ≡ₚ l.
Proof.
  induction l as [|a l IH]; [done|].
  change (sort_impacts (a :: l)) with (insert_impact a (sort_impacts l)).
  by rewrite insert_impact_perm, IH.
Qed.

Lemma impacts_loop_ids m s n :
  forall token s0,
    cache_only s s0 ->
    impactTokenId <$> (impacts_loop n token m s0).1
    = id <$> take n (drop token (tokens s)).
Proof.
  induction n as [|n IH]; intros token s0 H; [done|].
  cbn [impacts_loop].
  destruct (tokens s0 !! token) as [t0|] eqn:Ht0.
  - destruct (tokens s !! token) as [t|] eqn:Ht.
    2:{ apply lookup_lt_Some in Ht0. apply lookup_ge_None in Ht.
        rewrite (cache_only_length _ _ H) in Ht0. lia. }
    destruct (cache_only_id _ _ _ _ H Ht) as (t' & Ht' & Hid).
    assert (t' = t0) as -> by congruence.
    pose proof (impact_of_frame m token t0 s0) as H1.
    assert (impactTokenId (impact_of m token t0 s0).1 = id t0) as He.
    { unfold impact_of. by destruct (calculateDerivedCapital token s0). }
    destruct (impact_of m token t0 s0) as [e s1]. simpl in H1, He.
    specialize (IH (S token) s1 (cache_only_trans _ _ _ H H1)).
    destruct (impacts_loop n (S token) m s1) as [l s2]. cbn [fst] in IH.
    rewrite (drop_S _ _ _ Ht). cbn [take fst]. rewrite !fmap_cons.
    by rewrite He, Hid, IH.
  - apply lookup_ge_None in Ht0. rewrite (cache_only_length _ _ H) in Ht0.
    rewrite drop_ge by done. by rewrite take_nil.
Qed.

(** X21. The impact list has one entry for every token of the store:
    the ids of its entries are the ids of the tokens, in another
    order; sorting neither drops nor repeats an entry. *)
Theorem cascade_one_entry_per_token :
  forall percentageChange s,
    impactTokenId <$> impacts (calculateCascadeImpact percentageChange s).1
    ≡ₚ id <$> tokens s.
Proof.
  intros pct s. unfold calculateCascadeImpact.
  pose proof (getCapitalBreakdown_frame s) as H1.
  destruct (getCapitalBreakdown s) as [b s1]. simpl in H1.
  pose proof (impacts_loop_ids (1 + pct / hundred) s (length (tokens s1)) 0 s1 H1)
    as E.
  destruct (impacts_loop _ _ _ s1) as [l s2]. cbn [fst] in E. cbn [fst impacts].
  rewrite sort_impacts_perm, E, drop_0, (cache_only_length _ _ H1), firstn_all.
  done.
Qed.

Lemma impact_after_finite a b qa qb :
  changePercent a = Fin qa -> changePercent b = Fin qb ->
  impact_after a b = true <-> Dec.abs qa < Dec.abs qb.
Proof.
  intros Ea Eb. unfold impact_after. rewrite Ea, Eb. simpl.
  rewrite DecFacts.gt_true. split; intros H.
  - apply Qclt_minus_iff. exact H.
  - apply Qclt_minus_iff in H. exact H.
Qed.

Lemma finite_percent_Fin e : finite_percent e = true -> exists q, changePercent e = Fin q.
Proof. unfold finite_percent. destruct (changePercent e); eauto; done. Qed.

Lemma insert_impact_descending a l :
  finite_percent a = true -> forallb finite_percent l = true ->
  descending l -> descending (insert_impact a l).
Proof.
  intros Ha. apply finite_percent_Fin in Ha as [qa Ea].
  induction l as [|b l IH]; intros Hfin Hd; simpl; [by split|].
  simpl in Hfin. apply andb_true_iff in Hfin as [Hb Hfin].
  apply finite_percent_Fin in Hb as [qb Eb].
  destruct Hd as [Hb Hd].
  destruct (impact_after a b) eqn:Hab.
  - apply (impact_after_finite a b qa qb Ea Eb) in Hab.
    split; [|by apply IH].
    apply Forall_forall. intros x Hx. apply insert_impact_elem in Hx as [->|Hx].
    + exists qb, qa. split; [done|]. split; [done|]. by apply Qclt_le_weak.
    + rewrite Forall_forall in Hb. by apply Hb.
  - assert (Dec.abs qb <= Dec.abs qa) as Hle.
    { apply Qcnot_lt_le. intros Hlt.
      apply (impact_after_finite a b qa qb Ea Eb) in Hlt. congruence. }
    split; [|by split].
    apply Forall_cons. split; [by exists qa, qb|].
    rewrite Forall_forall in Hb. apply Forall_forall. intros x Hx.
    destruct (Hb x Hx) as (qb' & qx & Eb' & Ex & Hxb).
    assert (qb' = qb) as -> by congruence.
    exists qa, qx. split; [done|]. split; [done|]. by etrans.
Qed.

Lemma forallb_insert_impact a l :
  forallb finite_percent (insert_impact a l)
  = finite_percent a && forallb finite_percent l.
Proof.
  induction l as [|b l IH]; simpl; [done|].
  destruct (impact_after a b); simpl; [|done].
  rewrite IH. by destruct (finite_percent a), (finite_percent b).
Qed.

Lemma sort_impacts_descending l :
  forallb finite_percent l = true ->
  forallb finite_percent (sort_impacts l) = true /\ descending (sort_impacts l).
Proof.
  induction l as [|a l IH]; intros Hfin; [done|].
  simpl in Hfin. apply andb_true_iff in Hfin as [Ha Hfin].
  destruct (IH Hfin) as [Hf Hd].
  change (sort_impacts (a :: l)) with (insert_impact a (sort_impacts l)).
  split; [by rewrite forallb_insert_impact, Ha, Hf|].
  by apply insert_impact_descending.
Qed.

Lemma forallb_sort_impacts l :
  forallb finite_percent (sort_impacts l) = forallb finite_percent l.
Proof.
  induction l as [|a l IH]; [done|].
  change (sort_impacts (a :: l)) with (insert_impact a (sort_impacts l)).
  by rewrite forallb_insert_impact, IH.
Qed.

Lemma descending_lookup l :
  forallb finite_percent l = true -> descending l ->
  forall i j a b, (i <= j)%nat -> l !! i = Some a -> l !! j = Some b ->
                  no_less a b.
Proof.
  induction l as [|x l IH]; intros Hfin Hd i j a b Hij Ha Hb; [done|].
  destruct Hd as [Hx Hd]. simpl in Hfin. apply andb_true_iff in Hfin as [Hfx Hfin].
  destruct i as [|i].
  - injection Ha as <-. destruct j as [|j].
    + injection Hb as <-. apply finite_percent_Fin in Hfx as [q E].
      by exists q, q.
    + rewrite Forall_forall in Hx. apply Hx. by eapply list_elem_of_lookup_2.
  - destruct j as [|j]; [lia|]. apply (IH Hfin Hd i j); [lia|done|done].
Qed.

(** X22. The order of the impact list.  When every percentage of the
    list is a finite number, the list is in descending order of the
    absolute percentage, and [mostVulnerable] is its first entry: no
    entry has a larger absolute percentage than [mostVulnerable]. *)
Theorem cascade_sorted_by_impact :
  forall percentageChange s,
    forallb finite_percent (impacts (calculateCascadeImpact percentageChange s).1)
      = true ->
    (forall i j a b,
        (i <= j)%nat ->
        impacts (calculateCascadeImpact percentageChange s).1 !! i = Some a ->
        impacts (calculateCascadeImpact percentageChange s).1 !! j = Some b ->
        no_less a b) /\
    mostVulnerable (calculateCascadeImpact percentageChange s).1
      = impacts (calculateCascadeImpact percentageChange s).1 !! 0%nat.
Proof.
  intros pct s. unfold calculateCascadeImpact.
  destruct (getCapitalBreakdown s) as [b s1].
  destruct (impacts_loop _ _ _ s1) as [l s2]. simpl.
  intros Hfin. split.
  - rewrite forallb_sort_impacts in Hfin.
    destruct (sort_impacts_descending l Hfin) as [Hf Hd].
    by apply descending_lookup.
  - by destruct (sort_impacts l).
Qed.

Lemma cascade_sorted_by_impact_witness :
  (forall i j a b,
      (i <= j)%nat ->
      impacts (calculateCascadeImpact (Dec.lit 10 1) chain_X_Y_Z).1 !! i = Some a ->
      impacts (calculateCascadeImpact (Dec.lit 10 1) chain_X_Y_Z).1 !! j = Some b ->
      no_less a b) /\
  mostVulnerable (calculateCascadeImpact (Dec.lit 10 1) chain_X_Y_Z).1
    = impacts (calculateCascadeImpact (Dec.lit 10 1) chain_X_Y_Z).1 !! 0%nat.
Proof.
  apply (cascade_sorted_by_impact (Dec.lit 10 1) chain_X_Y_Z).
  vm_compute. reflexivity.
Defined.

(** ** Pools within their supply *)






(** ** Wallets *)

Lemma getTokenBalance_set tokenId balance w j :
  Wallet.getTokenBalance (Wallet.setTokenBalance tokenId balance w) j
  = if decide (j = tokenId) then balance else Wallet.getTokenBalance w j.
Proof.
  unfold Wallet.getTokenBalance, Wallet.setTokenBalance. simpl.
  destruct (decide (j = tokenId)) as [->|Hne].
  - by rewrite lookup_insert_eq.
  - by rewrite lookup_insert_ne.
Qed.

Lemma lt_false x y : Dec.lt x y = false <-> y <= x.
Proof. unfold Dec.lt. by rewrite bool_decide_eq_false, Qcle_ngt. Qed.

Lemma lt_true x y : Dec.lt x y = true <-> x < y.
Proof. unfold Dec.lt. by rewrite bool_decide_eq_true. Qed.

Lemma nonneg_minus x y : y <= x -> 0 <= x - y.
Proof. intros H. by apply Qcle_minus_iff in H. Qed.

(** X24. A wallet is never overdrawn by [subtractTokenBalance]: it
    refuses exactly when the balance of the token is below the amount,
    and then the wallet is unchanged; otherwise the balance of the token
    goes down by the amount and is not negative afterwards, and every
    other balance of the wallet is as before. *)
Theorem subtractTokenBalance_never_overdraws :
  forall w tokenId amount,
    ((Wallet.subtractTokenBalance tokenId amount w).1 = false <->
     Wallet.getTokenBalance w tokenId < amount) /\
    ((Wallet.subtractTokenBalance tokenId amount w).1 = false ->
     (Wallet.subtractTokenBalance tokenId amount w).2 = w) /\
    ((Wallet.subtractTokenBalance tokenId amount w).1 = true ->
     Wallet.getTokenBalance (Wallet.subtractTokenBalance tokenId amount w).2 tokenId
       = Wallet.getTokenBalance w tokenId - amount /\
     0 <= Wallet.getTokenBalance
            (Wallet.subtractTokenBalance tokenId amount w).2 tokenId /\
     (forall j, j <> tokenId ->
        Wallet.getTokenBalance (Wallet.subtractTokenBalance tokenId amount w).2 j
          = Wallet.getTokenBalance w j) /\
     Wallet.usdBalance (Wallet.subtractTokenBalance tokenId amount w).2
       = Wallet.usdBalance w /\
     Wallet.plsBalance (Wallet.subtractTokenBalance tokenId amount w).2
       = Wallet.plsBalance w).
Proof.
  intros w i a. unfold Wallet.subtractTokenBalance.
  destruct (Dec.lt (Wallet.getTokenBalance w i) a) eqn:Hlt; simpl.
  - apply lt_true in Hlt. split; [done|]. split; [done|]. discriminate.
  - apply lt_false in Hlt. split.
    { split; [discriminate|]. intros H. by apply Qclt_not_le in H. }
    split; [discriminate|]. intros _.
    rewrite !getTokenBalance_set, decide_True by done.
    split; [done|]. split; [by apply nonneg_minus|].
    split; [|done]. intros j Hne.
    by rewrite getTokenBalance_set, decide_False.
Qed.

(** X25. No operation of the wallet makes a balance negative, as long
    as no negative amount is added: a wallet without a negative balance
    has none after [subtractTokenBalance], [subtractUSD] and
    [subtractPLS] with any amount, accepted or refused, and none after
    [addTokenBalance], [addUSD] and [addPLS] with an amount that is not
    negative.  A new wallet has no negative balance. *)
Theorem wallet_stays_solvent :
  forall w tokenId amount,
    solvent w ->
    solvent (Wallet.subtractTokenBalance tokenId amount w).2 /\
    solvent (Wallet.subtractUSD amount w).2 /\
    solvent (Wallet.subtractPLS amount w).2 /\
    (0 <= amount ->
     solvent (Wallet.addTokenBalance tokenId amount w) /\
     solvent (Wallet.addUSD amount w) /\
     solvent (Wallet.addPLS amount w)).
Proof.
  intros w i a (Husd & Hpls & Htok).
  split; [|split; [|split]].
  - unfold Wallet.subtractTokenBalance.
    destruct (Dec.lt _ a) eqn:Hlt; simpl; [done|]. apply lt_false in Hlt.
    split; [done|]. split; [done|]. intros j.
    rewrite getTokenBalance_set. destruct (decide (j = i)); [|done].
    by apply nonneg_minus.
  - unfold Wallet.subtractUSD.
    destruct (Dec.lt _ a) eqn:Hlt; simpl; [done|]. apply lt_false in Hlt.
    split; [by apply nonneg_minus|done].
  - unfold Wallet.subtractPLS.
    destruct (Dec.lt _ a) eqn:Hlt; simpl; [done|]. apply lt_false in Hlt.
    split; [done|]. split; [by apply nonneg_minus|done].
  - intros Ha. split; [|split].
    + split; [done|]. split; [done|]. intros j.
      unfold Wallet.addTokenBalance. rewrite getTokenBalance_set.
      destruct (decide (j = i)); [|done].
      rewrite <- (Qcplus_0_r 0). by apply Qcplus_le_compat.
    + split; [|done]. simpl.
      rewrite <- (Qcplus_0_r 0). by apply Qcplus_le_compat.
    + split; [done|]. split; [|done]. simpl.
      rewrite <- (Qcplus_0_r 0). by apply Qcplus_le_compat.
Qed.

Lemma new_wallet_solvent i nm : solvent (Wallet.new i nm).
Proof.
  split; [by vm_compute|]. split; [by vm_compute|]. intros j.
  unfold Wallet.getTokenBalance. simpl. by rewrite lookup_empty.
Qed.

Lemma wallet_stays_solvent_witness :
  solvent (Wallet.subtractTokenBalance 1 (Dec.lit 5 1) (Wallet.new 1 None)).2 /\
  solvent (Wallet.subtractUSD (Dec.lit 5 1) (Wallet.new 1 None)).2 /\
  solvent (Wallet.subtractPLS (Dec.lit 5 1) (Wallet.new 1 None)).2 /\
  (0 <= Dec.lit 5 1 ->
   solvent (Wallet.addTokenBalance 1 (Dec.lit 5 1) (Wallet.new 1 None)) /\
   solvent (Wallet.addUSD (Dec.lit 5 1) (Wallet.new 1 None)) /\
   solvent (Wallet.addPLS (Dec.lit 5 1) (Wallet.new 1 None))).
Proof.
  apply (wallet_stays_solvent (Wallet.new 1 None) 1 (Dec.lit 5 1)).
  apply new_wallet_solvent.
Defined.



(** X27. The balance summary lists exactly the tokens of which the
    wallet holds a positive balance, each with that balance and with the
    name of the token of the store, or [Token <id>] when the store has
    no token of that id; a token never credited, or with a balance of
    zero or below, is not listed. *)
Theorem getBalanceSummary_lists_positive_balances :
  forall w s tokenId,
    Wallet.summaryTokens (Wallet.getBalanceSummary w s) !! tokenId =
    if Dec.gt (Wallet.getTokenBalance w tokenId) 0
    then Some (Wallet.getTokenBalance w tokenId, token_display_name s tokenId)
    else None.
Proof.
  intros w s i. unfold Wallet.getBalanceSummary, Wallet.getTokenBalance. simpl.
  rewrite map_lookup_imap.
  destruct (Wallet.tokenBalances w !! i) as [b|]; [done|].
  cbn [default mbind option_bind].
  destruct (Dec.gt 0 0) eqn:E; [|done].
  apply DecFacts.gt_true in E. by vm_compute in E.
Qed.

Lemma getWalletById_numbered wallets i w :
  numbered wallets -> wallets !! i = Some w ->
  getWalletById (S i) wallets = Some w.
Proof.
  intros Hn Hw. unfold getWalletById.
  assert (list_find (fun w0 => Wallet.id w0 = S i) wallets = Some (i, w)) as ->.
  { apply list_find_Some. split; [done|]. split; [by apply Hn|].
    intros j y Hy Hlt E. rewrite (Hn _ _ Hy) in E. lia. }
  done.
Qed.

(** X28. Wallet ids.  [initializeWalletSystem] on a state without
    wallets gives one wallet with id 1.  When the wallets carry the ids
    1, 2, 3, ... in order, [createWallet] gives the new wallet the next
    id and keeps that numbering, [getWalletById] finds the new wallet
    under its id and every older wallet under the id it had, and an id
    of 0 or above the number of wallets finds nothing. *)
Theorem createWallet_numbers_wallets :
  forall name wallets,
    numbered wallets ->
    numbered (initializeWalletSystem None) /\
    numbered (createWallet name wallets).2 /\
    Wallet.id (createWallet name wallets).1 = S (length wallets) /\
    getWalletById (S (length wallets)) (createWallet name wallets).2
      = Some (createWallet name wallets).1 /\
    (forall i w, wallets !! i = Some w ->
       getWalletById (S i) (createWallet name wallets).2 = Some w) /\
    getWalletById 0 wallets = None /\
    (forall i, (length wallets < i)%nat -> getWalletById i wallets = None).
Proof.
  intros nm ws Hn.
  assert (numbered (createWallet nm ws).2) as Hn'.
  { intros i w. unfold createWallet. simpl. intros Hi.
    apply lookup_app_Some in Hi as [Hi|[Hle Hi]]; [by apply Hn|].
    apply list_lookup_singleton_Some in Hi as [Hi <-]. simpl. lia. }
  assert (forall i, (i = 0 \/ length ws < i)%nat -> getWalletById i ws = None)
    as Hnone.
  { intros i Hi. unfold getWalletById.
    destruct (list_find _ ws) as [[j w]|] eqn:E; [|done].
    apply list_find_Some in E as (Hj & Hid & _).
    rewrite (Hn _ _ Hj) in Hid. apply lookup_lt_Some in Hj. lia. }
  split.
  { intros i w. unfold initializeWalletSystem. simpl. intros Hi.
    apply list_lookup_singleton_Some in Hi as [-> <-]. done. }
  split; [done|]. split; [simpl; lia|]. split.
  { apply getWalletById_numbered; [done|]. unfold createWallet. simpl.
    rewrite lookup_app_r by done. by rewrite Nat.sub_diag. }
  split.
  { intros i w Hi. apply getWalletById_numbered; [done|].
    unfold createWallet. simpl. by apply lookup_app_l_Some. }
  split; [apply Hnone; by left|]. intros i Hi. apply Hnone. by right.
Qed.

Lemma createWallet_numbers_wallets_witness :
  numbered (initializeWalletSystem None) /\
  numbered (createWallet None (initializeWalletSystem None)).2 /\
  Wallet.id (createWallet None (initializeWalletSystem None)).1
    = S (length (initializeWalletSystem None)) /\
  getWalletById (S (length (initializeWalletSystem None)))
                (createWallet None (initializeWalletSystem None)).2
    = Some (createWallet None (initializeWalletSystem None)).1 /\
  (forall i w, initializeWalletSystem None !! i = Some w ->
     getWalletById (S i) (createWallet None (initializeWalletSystem None)).2
       = Some w) /\
  getWalletById 0 (initializeWalletSystem None) = None /\
  (forall i, (length (initializeWalletSystem None) < i)%nat ->
     getWalletById i (initializeWalletSystem None) = None).
Proof.
  apply (createWallet_numbers_wallets None (initializeWalletSystem None)).
  intros i w Hi. unfold initializeWalletSystem in Hi. simpl in Hi.
  apply list_lookup_singleton_Some in Hi as [-> <-]. reflexivity.
Defined.

(** ** The price chain *)

Lemma chain_linked_snoc chain x :
  chain_linked chain ->
  (forall a, last chain = Some a ->
     linkPairType a = TOKEN /\ linkPairedTokenId a = Some (linkTokenId x)) ->
  chain_linked (chain ++ [x]).
Proof.
  induction chain as [|a [|b rest] IH]; intros Hc Hlast; [done| |].
  - simpl. destruct (Hlast a eq_refl) as [? ?]. done.
  - destruct Hc as (Hpt & Hid & Hc).
    change (chain_linked (a :: b :: (rest ++ [x]))).
    cbn [chain_linked]. split; [done|]. split; [done|].
    apply IH; [done|]. intros a0 Ha0. apply Hlast. done.
Qed.

Lemma price_chain_loop_spec s fuel :
  forall current visited chain,
    (unvisited s visited < fuel)%nat ->
    (forall i, i ∈ visited <-> i ∈ linkTokenId <$> chain) ->
    visited ⊆ ids s ->
    NoDup (linkTokenId <$> chain) ->
    chain_linked chain ->
    (forall a c t, last chain = Some a -> current = Some c ->
       tokens s !! c = Some t ->
       linkPairType a = TOKEN /\ linkPairedTokenId a = Some (id t)) ->
    exists rest,
      price_chain_loop fuel current visited chain s = Done (chain ++ rest) /\
      NoDup (linkTokenId <$> chain ++ rest) /\
      chain_linked (chain ++ rest) /\
      (forall i, i ∈ linkTokenId <$> chain ++ rest -> i ∈ ids s) /\
      (forall c t, current = Some c -> tokens s !! c = Some t ->
         id t ∉ visited -> head rest = Some (link_of t)).
Proof.
  induction fuel as [|fuel IH];
    intros current visited chain Hfuel Hvis Hsub Hnd Hlinked Hlast; [lia|].
  cbn [price_chain_loop].
  assert (forall P : Prop,
            (forall c t, current = Some c -> tokens s !! c = Some t ->
                         id t ∉ visited -> P) ->
            exists rest : list PriceLink,
              Done chain = Done (chain ++ rest) /\
              NoDup (linkTokenId <$> chain ++ rest) /\
              chain_linked (chain ++ rest) /\
              (forall i, i ∈ linkTokenId <$> chain ++ rest -> i ∈ ids s) /\
              (forall c t, current = Some c -> tokens s !! c = Some t ->
                 id t ∉ visited -> P)) as Hstop.
  { intros P HP. exists []. rewrite app_nil_r. repeat split; try done.
    intros i Hi. apply Hsub. by apply Hvis. }
  destruct current as [c|]; cbn [mbind option_bind].
  2:{ destruct (Hstop False) as (rest & ? & ? & ? & ? & HF); [done|].
      exists rest. repeat split; try done. }
  destruct (tokens s !! c) as [t|] eqn:Ht.
  2:{ destruct (Hstop False) as (rest & ? & ? & ? & ? & HF).
      { intros c0 t0 [= <-] Ht0. congruence. }
      exists rest. repeat split; try done.
      intros c0 t0 Hc0 Ht0 Hni. destruct (HF c0 t0 Hc0 Ht0 Hni). }
  destruct (bool_decide (id t ∈ visited)) eqn:Hin.
  { apply bool_decide_eq_true in Hin.
    destruct (Hstop False) as (rest & ? & ? & ? & ? & HF).
    { intros c0 t0 [= <-] Ht0. assert (t0 = t) as -> by congruence. done. }
    exists rest. repeat split; try done.
    intros c0 t0 Hc0 Ht0 Hni. destruct (HF c0 t0 Hc0 Ht0 Hni). }
  apply bool_decide_eq_false in Hin.
  assert (id t ∉ linkTokenId <$> chain) as Hfresh by (by rewrite <- Hvis).
  assert (NoDup (linkTokenId <$> chain ++ [link_of t])) as Hnd'.
  { rewrite fmap_app. apply NoDup_app. split; [done|]. split.
    - intros x Hx. simpl. rewrite list_elem_of_singleton. by intros ->.
    - apply NoDup_singleton. }
  assert (chain_linked (chain ++ [link_of t])) as Hlinked'.
  { apply chain_linked_snoc; [done|]. intros a Ha. by apply (Hlast a c t). }
  assert (forall i, i ∈ visited ∪ {[id t]} <->
                    i ∈ linkTokenId <$> chain ++ [link_of t]) as Hvis'.
  { intros i. rewrite fmap_app, elem_of_app, <- Hvis. simpl.
    rewrite list_elem_of_singleton. set_solver. }
  assert (visited ∪ {[id t]} ⊆ ids s) as Hsub'.
  { pose proof (ids_lookup _ _ _ Ht). set_solver. }
  assert (forall c0 t0, Some c = Some c0 -> tokens s !! c0 = Some t0 ->
            head ([link_of t]) = Some (link_of t0)) as Hhead.
  { intros c0 t0 [= <-] Ht0. by assert (t0 = t) as -> by congruence. }
  destruct (bool_decide (pairType t = TOKEN)) eqn:Hpt.
  2:{ exists [link_of t]. repeat split; try done.
      - intros i Hi. apply Hsub'. by apply Hvis'.
      - intros c0 t0 Hc0 Ht0 _. by apply (Hhead c0 t0). }
  apply bool_decide_eq_true in Hpt.
  destruct (IH (find_token s (pairedTokenId t)) (visited ∪ {[id t]})
               (chain ++ [link_of t])) as (rest & E & Hn & Hl & Hi & _);
    try done.
  { pose proof (unvisited_add s visited (id t) (ids_lookup _ _ _ Ht) Hin). lia. }
  { intros a c0 t0 Ha Hc0 Ht0. rewrite last_snoc in Ha. injection Ha as <-.
    simpl. split; [done|].
    destruct (find_token_Some _ _ _ Hc0) as (tj & Htj & Hp).
    assert (tj = t0) as -> by congruence. done. }
  exists (link_of t :: rest).
  replace (chain ++ link_of t :: rest) with ((chain ++ [link_of t]) ++ rest)
    by (by rewrite <- app_assoc).
  repeat split; try done.
  intros c0 t0 Hc0 Ht0 _. by apply (Hhead c0 t0).
Qed.

(** X29. The price chain of a token.  [getTokenPriceChain] gives
    [null] exactly for an id that no token of the store has.  Otherwise
    the chain starts with the entry of the token; every entry but the
    last is paired with a token, the one of the next entry; no token
    occurs twice, so that a circular pairing ends the chain; and the
    chain has at most as many entries as the store has tokens. *)
Theorem getTokenPriceChain_shape :
  forall tokenId s,
    (getTokenPriceChain tokenId s = None <->
     find_token s (Some tokenId) = None) /\
    forall chain,
      getTokenPriceChain tokenId s = Some chain ->
      (exists first, head chain = Some first /\ linkTokenId first = tokenId) /\
      chain_linked chain /\
      NoDup (linkTokenId <$> chain) /\
      (length chain <= length (tokens s))%nat.
Proof.
  intros tokenId s. unfold getTokenPriceChain.
  destruct (find_token s (Some tokenId)) as [token|] eqn:Hfind; [|done].
  destruct (find_token_Some _ _ _ Hfind) as (t & Ht & Hid).
  destruct (price_chain_loop_spec s (S (length (tokens s))) (Some token) ∅ [])
    as (rest & E & Hnd & Hl & Hin & Hhead); try done.
  { pose proof (unvisited_le s ∅). lia. }
  { intros i. simpl. rewrite elem_of_nil. set_solver. }
  { apply NoDup_nil_2. }
  rewrite E. simpl in *. split; [done|].
  intros chain [= <-]. split.
  { exists (link_of t). split; [by apply (Hhead token t)|].
    simpl. by injection Hid. }
  split; [done|]. split; [done|].
  rewrite <- (length_fmap linkTokenId rest).
  rewrite <- (size_list_to_set (C := gset nat) _ Hnd).
  etrans; [|apply size_ids]. apply subseteq_size.
  intros i Hi. apply Hin. by apply elem_of_list_to_set in Hi.
Qed.

Lemma getTokenPriceChain_shape_witness :
  exists chain,
    getTokenPriceChain 3 chain_X_Y_Z = Some chain /\
    (exists first, head chain = Some first /\ linkTokenId first = 3%nat) /\
    chain_linked chain /\
    NoDup (linkTokenId <$> chain) /\
    (length chain <= length (tokens chain_X_Y_Z))%nat.
Proof.
  eexists. split; [vm_compute; reflexivity|].
  apply (proj2 (getTokenPriceChain_shape 3 chain_X_Y_Z)).
  vm_compute. reflexivity.
Defined.

(** ** Arbitrage detection *)

Lemma calculatePathPriceThroughWPLS_frame tokenA tokenB s :
  cache_only s (calculatePathPriceThroughWPLS tokenA tokenB s).2.
Proof.
  unfold calculatePathPriceThroughWPLS.
  pose proof (priceUSD_frame tokenA ∅ s) as H1.
  destruct (priceUSD tokenA ∅ s) as [[priceA vA] s1]. simpl in H1.
  pose proof (priceUSD_frame tokenB ∅ s1) as H2.
  destruct (priceUSD tokenB ∅ s1) as [[priceB vB] s2]. simpl in H2.
  destruct (_ || _); simpl; by eapply cache_only_trans.
Qed.

Lemma arbitrage_inner_spec n :
  forall tokenA tokenB opportunities s,
    (arbitrage_inner n tokenA tokenB opportunities s).1 = opportunities /\
    cache_only s (arbitrage_inner n tokenA tokenB opportunities s).2.
Proof.
  induction n as [|n IH]; intros tokenA tokenB opportunities s.
  { split; [done|apply cache_only_refl]. }
  cbn [arbitrage_inner].
  destruct (id_at s tokenA) as [idA|]; [|split; [done|apply cache_only_refl]].
  destruct (id_at s tokenB) as [idB|]; [|split; [done|apply cache_only_refl]].
  destruct (bool_decide (idB <= idA)%nat); [apply IH|].
  pose proof (calculatePathPriceThroughWPLS_frame tokenA tokenB s) as H1.
  destruct (calculatePathPriceThroughWPLS tokenA tokenB s) as [viaWPLS s1].
  simpl in H1. unfold calculatePathPrice.
  destruct (IH tokenA (S tokenB) opportunities s1) as [E H2].
  split; [done|]. by eapply cache_only_trans.
Qed.

Lemma arbitrage_outer_spec n :
  forall tokenA opportunities s,
    (arbitrage_outer n tokenA opportunities s).1 = opportunities /\
    cache_only s (arbitrage_outer n tokenA opportunities s).2.
Proof.
  induction n as [|n IH]; intros tokenA opportunities s.
  { split; [done|apply cache_only_refl]. }
  cbn [arbitrage_outer].
  destruct (arbitrage_inner_spec (length (tokens s)) tokenA 0 opportunities s)
    as [E1 H1].
  destruct (arbitrage_inner _ tokenA 0 opportunities s) as [found s1].
  simpl in E1, H1. subst found.
  destruct (IH (S tokenA) opportunities s1) as [E2 H2].
  split; [done|]. by eapply cache_only_trans.
Qed.

(** X30. [detectArbitrageOpportunities] never reports an opportunity:
    the direct price it compares with is never found, since
    [calculatePathPrice] returns [null], so the list it returns is empty
    on every store.  What it does is resolve prices: it changes nothing
    but price caches, the clock reading and the console. *)
Theorem detectArbitrageOpportunities_reports_nothing :
  forall s,
    (detectArbitrageOpportunities s).1 = [] /\
    cache_only s (detectArbitrageOpportunities s).2.
Proof. intros s. apply arbitrage_outer_spec. Qed.
